(** * web-sequencer: the step scheduler and the four track synthesizers

    A shallow embedding of [src/App.tsx].  The React component keeps the
    sequencer state in hooks and drives the Web Audio API from a
    [setInterval] callback.  Here the hook values are a record, a state
    setter is a function on that record, and every call the component makes
    on the audio context is appended to a log kept in the audio world, so
    that what a firing schedules can be read back from the log.

    JavaScript numbers are IEEE 754 binary64 values: they are Rocq's
    primitive [float]s, with the same rounding.  The grid position and the
    array indices are integers. *)

From Stdlib Require Import ZArith Lia Bool Uint63 Floats.
From stdpp Require Import base option list gmap strings.

Set Warnings "-inexact-float,-abstract-large-number".
Local Open Scope Z_scope.

(** ** Numbers *)

Abbreviation number := float (only parsing).

(** A loop counter, which stays an integer below 2^53, read as a number. *)
Definition numberOfNat (i : nat) : number :=
  PrimFloat.of_uint63 (Uint63.of_Z (Z.of_nat i)).

(** The integer part of a number (truncation towards zero); zero for NaN,
    the zeros and the infinities. *)
Definition integerPart (x : number) : Z :=
  match Prim2SF x with
  | S754_finite s m e =>
      let a := Z.shiftl (Z.pos m) e in if s then - a else a
  | _ => 0
  end.

(** The conversion the platform bindings apply to an argument declared
    [unsigned long]: integer part, then modulo 2^32. *)
Definition toUnsignedLong (x : number) : Z := integerPart x mod 2 ^ 32.

(** [Math.fround]: the number a [Float32Array] holds after a write of [x],
    read back as a number.  A finite [x] is rounded to the nearest binary32
    value, ties to even, with 24 bits of precision and exponents up to 128;
    that value is a binary64 value too.  The zeros, the infinities and NaN
    are kept. *)
Definition fround (x : number) : number :=
  match Prim2SF x with
  | S754_finite s m e => SF2Prim (binary_round 24 128 s m e)
  | _ => x
  end.

(** [lo <= x <= hi] on numbers; false as soon as one of them is NaN. *)
Definition between (lo hi x : number) : bool :=
  (lo <=? x)%float && (x <=? hi)%float.

(** ** Tracks and sequences (App.tsx, lines 4-37) *)

Inductive Track := SWEEP | PULSE | NOISE | SAMPLE.

Definition Track_eqb (a b : Track) : bool :=
  match a, b with
  | SWEEP, SWEEP | PULSE, PULSE | NOISE, NOISE | SAMPLE, SAMPLE => true
  | _, _ => false
  end.

Definition BEATS_PER_BAR : Z := 16.

Record SweepSequence := mkSweep {
  attack : number;
  release : number;
  sweepSteps : list bool
}.

Record PulseSequence := mkPulse {
  frequency : number;
  lfo : number;
  pulseSteps : list bool
}.

Record NoiseSequence := mkNoise {
  duration : number;
  band : number;
  noiseSteps : list bool
}.

Record SampleSequence := mkSample {
  rate : number;
  sampleSteps : list bool
}.

(** A sequence is a JavaScript object: a finite map from property names to
    values, here numbers and arrays of gates. *)
Inductive JsValue :=
| JsNumber (v : number)
| JsArray (a : list bool).

(** The bound [T extends SweepSequence | PulseSequence | NoiseSequence |
    SampleSequence] of [toggleSequenceStep]: an object with a [steps] field.
    [withSteps s q] is the object literal [{ ...params, steps: s }], where
    [params] is [q] without its [steps]; [toObject q] is [q] as the object
    it is at run time. *)
Class Sequence (T : Type) := {
  steps : T -> list bool;
  withSteps : list bool -> T -> T;
  toObject : T -> gmap string JsValue
}.

#[export] Instance SweepSequence_Sequence : Sequence SweepSequence := {
  steps := sweepSteps;
  withSteps s q := {| attack := attack q; release := release q; sweepSteps := s |};
  toObject q := {[ "attack"%string := JsNumber (attack q);
                   "release"%string := JsNumber (release q);
                   "steps"%string := JsArray (sweepSteps q) ]}
}.

#[export] Instance PulseSequence_Sequence : Sequence PulseSequence := {
  steps := pulseSteps;
  withSteps s q := {| frequency := frequency q; lfo := lfo q; pulseSteps := s |};
  toObject q := {[ "frequency"%string := JsNumber (frequency q);
                   "lfo"%string := JsNumber (lfo q);
                   "steps"%string := JsArray (pulseSteps q) ]}
}.

#[export] Instance NoiseSequence_Sequence : Sequence NoiseSequence := {
  steps := noiseSteps;
  withSteps s q := {| duration := duration q; band := band q; noiseSteps := s |};
  toObject q := {[ "duration"%string := JsNumber (duration q);
                   "band"%string := JsNumber (band q);
                   "steps"%string := JsArray (noiseSteps q) ]}
}.

#[export] Instance SampleSequence_Sequence : Sequence SampleSequence := {
  steps := sampleSteps;
  withSteps s q := {| rate := rate q; sampleSteps := s |};
  toObject q := {[ "rate"%string := JsNumber (rate q);
                   "steps"%string := JsArray (sampleSteps q) ]}
}.

(** [steps[i]] read as a condition: an index outside the array gives
    [undefined], which is falsy. *)
Definition gate (s : list bool) (i : Z) : bool :=
  if i <? 0 then false else default false (s !! Z.to_nat i).

(** ** Component state (App.tsx, lines 40-62) *)

Record AppState := mkApp {
  currentStep : Z;
  tempo : number;
  isPlaying : bool;
  selectedTrack : Track;
  sweepSequence : SweepSequence;
  pulseSequence : PulseSequence;
  noiseSequence : NoiseSequence;
  sampleSequence : SampleSequence
}.

Definition noSteps : list bool := replicate (Z.to_nat BEATS_PER_BAR) false.

Definition initialState : AppState := {|
  currentStep := 0;
  tempo := 120;
  isPlaying := false;
  selectedTrack := SWEEP;
  sweepSequence := {| attack := 0.2; release := 0.5; sweepSteps := noSteps |};
  pulseSequence := {| frequency := 880; lfo := 30; pulseSteps := noSteps |};
  noiseSequence := {| duration := 1; band := 1000; noiseSteps := noSteps |};
  sampleSequence := {| rate := 1; sampleSteps := noSteps |}
|}.

(** The state setters. *)
Definition setCurrentStep (n : Z) (st : AppState) : AppState :=
  {| currentStep := n; tempo := tempo st; isPlaying := isPlaying st;
     selectedTrack := selectedTrack st; sweepSequence := sweepSequence st;
     pulseSequence := pulseSequence st; noiseSequence := noiseSequence st;
     sampleSequence := sampleSequence st |}.

Definition setTempo (v : number) (st : AppState) : AppState :=
  {| currentStep := currentStep st; tempo := v; isPlaying := isPlaying st;
     selectedTrack := selectedTrack st; sweepSequence := sweepSequence st;
     pulseSequence := pulseSequence st; noiseSequence := noiseSequence st;
     sampleSequence := sampleSequence st |}.

Definition setIsPlaying (f : bool -> bool) (st : AppState) : AppState :=
  {| currentStep := currentStep st; tempo := tempo st;
     isPlaying := f (isPlaying st);
     selectedTrack := selectedTrack st; sweepSequence := sweepSequence st;
     pulseSequence := pulseSequence st; noiseSequence := noiseSequence st;
     sampleSequence := sampleSequence st |}.

Definition setSelectedTrack (t : Track) (st : AppState) : AppState :=
  {| currentStep := currentStep st; tempo := tempo st; isPlaying := isPlaying st;
     selectedTrack := t; sweepSequence := sweepSequence st;
     pulseSequence := pulseSequence st; noiseSequence := noiseSequence st;
     sampleSequence := sampleSequence st |}.

Definition setSweepSequence (f : SweepSequence -> SweepSequence)
    (st : AppState) : AppState :=
  {| currentStep := currentStep st; tempo := tempo st; isPlaying := isPlaying st;
     selectedTrack := selectedTrack st; sweepSequence := f (sweepSequence st);
     pulseSequence := pulseSequence st; noiseSequence := noiseSequence st;
     sampleSequence := sampleSequence st |}.

Definition setPulseSequence (f : PulseSequence -> PulseSequence)
    (st : AppState) : AppState :=
  {| currentStep := currentStep st; tempo := tempo st; isPlaying := isPlaying st;
     selectedTrack := selectedTrack st; sweepSequence := sweepSequence st;
     pulseSequence := f (pulseSequence st); noiseSequence := noiseSequence st;
     sampleSequence := sampleSequence st |}.

Definition setNoiseSequence (f : NoiseSequence -> NoiseSequence)
    (st : AppState) : AppState :=
  {| currentStep := currentStep st; tempo := tempo st; isPlaying := isPlaying st;
     selectedTrack := selectedTrack st; sweepSequence := sweepSequence st;
     pulseSequence := pulseSequence st; noiseSequence := f (noiseSequence st);
     sampleSequence := sampleSequence st |}.

Definition setSampleSequence (f : SampleSequence -> SampleSequence)
    (st : AppState) : AppState :=
  {| currentStep := currentStep st; tempo := tempo st; isPlaying := isPlaying st;
     selectedTrack := selectedTrack st; sweepSequence := sweepSequence st;
     pulseSequence := pulseSequence st; noiseSequence := noiseSequence st;
     sampleSequence := f (sampleSequence st) |}.

(** ** Pattern edits (App.tsx, lines 71-102) *)

(** [[...steps.slice(0, i), !steps[i], ...steps.slice(i + 1)]].  Past the
    end [steps[i]] is [undefined] and its negation is [true]. *)
Definition toggledSteps (i : nat) (s : list bool) : list bool :=
  take i s ++ [negb (default false (s !! i))] ++ drop (i + 1) s.

Definition toggleSequenceStep {T} `{Sequence T} (i : nat) (prevState : T) : T :=
  withSteps (toggledSteps i (steps prevState)) prevState.

(** The same function on the objects themselves: the destructuring
    [const { steps, ...params } = prevState] takes [steps] out, and the
    literal [{ ...params, steps: trackSteps }] copies the rest and adds the
    new array.  Without an array under [steps] the call of [slice] throws;
    the type bound excludes it. *)
Definition toggleObject (i : nat) (prevState : gmap string JsValue)
    : option (gmap string JsValue) :=
  match prevState !! "steps"%string with
  | Some (JsArray steps) =>
      let params := delete "steps"%string prevState in
      Some (<["steps"%string := JsArray (toggledSteps i steps)]> params)
  | _ => None
  end.

Definition handleStepClick (track : Track) (i : nat) (st : AppState) : AppState :=
  match track with
  | SWEEP => setSweepSequence (toggleSequenceStep i) st
  | PULSE => setPulseSequence (toggleSequenceStep i) st
  | NOISE => setNoiseSequence (toggleSequenceStep i) st
  | SAMPLE => setSampleSequence (toggleSequenceStep i) st
  end.

(** The arrays behind the [steps] fields live in the JavaScript heap and a
    field holds a reference.  [ArrayHeap] keeps that view for the pattern
    edit: the array literal of [toggleSequenceStep] is a new object. *)
Module ArrayHeap.
Definition ref := positive.

Definition allocate (a : list bool) (h : gmap positive (list bool))
    : ref * gmap positive (list bool) :=
  let r := fresh (dom h) in (r, <[r := a]> h).

(** [a[j] = v] on the array behind [r]. *)
Definition assign (r : ref) (j : nat) (v : bool)
    (h : gmap positive (list bool)) : gmap positive (list bool) :=
  match h !! r with
  | Some a => <[r := <[j := v]> a]> h
  | None => h
  end.

Definition toggleSteps (i : nat) (r : ref) (h : gmap positive (list bool))
    : option (ref * gmap positive (list bool)) :=
  a ← h !! r; Some (allocate (toggledSteps i a) h).
End ArrayHeap.

(** ** The audio context (App.tsx, lines 12-14)

    [audioContext] and [analyzer] are module-level objects of the platform.
    The world below holds what the component can observe of them and a log
    of the calls it makes on them, oldest first.  The log keeps a call as
    it is made.  The scheduling methods reject a time that is negative or
    not finite; the clock starts at 0 and the sliders keep the parameters
    small, so the times the component passes are neither. *)

Inductive ContextState := Suspended | Running | Closed.

Inductive OscillatorType := Sine | Square.
Inductive FilterType := Bandpass.

(** The two ends of a [connect]. *)
Inductive Endpoint :=
| Node (n : nat)
| GainParam (n : nat)
| Analyzer
| Destination.

Record AudioBuffer := mkBuffer {
  numberOfChannels : Z;
  bufferRate : number;
  channelData : list number
}.

Inductive ApiCall :=
| CreateOscillator (n : nat)
| SetPeriodicWave (n : nat)
| SetOscillatorType (n : nat) (ty : OscillatorType)
| SetFrequency (n : nat) (v : number)
| CreateGain (n : nat)
| SetGainValue (n : nat) (v : number)
| CancelScheduledValues (n : nat) (cancelTime : number)
| SetValueAtTime (n : nat) (v : number) (startTime : number)
| LinearRampToValueAtTime (n : nat) (v : number) (endTime : number)
| CreateBufferSource (n : nat)
| SetBuffer (n : nat) (b : AudioBuffer)
| SetPlaybackRate (n : nat) (v : number)
| CreateBiquadFilter (n : nat)
| SetFilterType (n : nat) (ty : FilterType)
| Connect (source target : Endpoint)
| Start (n : nat) (when : option number)
| Stop (n : nat) (when : number)
| Resume
| RequestAnimationFrame
| ClearInterval.

Record Audio := mkAudio {
  state : ContextState;
  currentTime : number;
  sampleRate : number;
  (** whether the promise of a pending [resume()] will be fulfilled *)
  resumeSucceeds : bool;
  (** the values [Math.random()] returns during a firing, in call order *)
  mathRandom : nat -> number;
  nextNode : nat;
  calls : list ApiCall
}.

Inductive DOMException := NotSupportedError.

(** How a piece of the callback ends: normally, by an exception that
    nothing in the component catches, or not at all. *)
Inductive Completion (A : Type) :=
| Normal (a : A)
| Throw (e : DOMException)
| Hang.
Arguments Normal {A} a.
Arguments Throw {A} e.
Arguments Hang {A}.

Definition Script (A : Type) : Type := Audio -> Completion A * Audio.

Definition ret {A} (a : A) : Script A := fun w => (Normal a, w).

Definition bind {A B} (m : Script A) (k : A -> Script B) : Script B :=
  fun w =>
    match m w with
    | (Normal a, w') => k a w'
    | (Throw e, w') => (Throw e, w')
    | (Hang, w') => (Hang, w')
    end.

Declare Scope script_scope.
Delimit Scope script_scope with script.
Notation "x <- m ;; k" := (bind m (fun x => k))
  (at level 100, m at next level, right associativity) : script_scope.
Notation "m ;; k" := (bind m (fun _ => k))
  (at level 100, right associativity) : script_scope.
Local Open Scope script_scope.

Definition throw {A} (e : DOMException) : Script A := fun w => (Throw e, w).
Definition hang {A} : Script A := fun w => (Hang, w).

Definition call (c : ApiCall) : Script unit :=
  fun w =>
    (Normal tt,
     {| state := state w; currentTime := currentTime w;
        sampleRate := sampleRate w; resumeSucceeds := resumeSucceeds w;
        mathRandom := mathRandom w; nextNode := nextNode w;
        calls := calls w ++ [c] |}).

(** A factory method of the context: a new node, named by a fresh number. *)
Definition create (mk : nat -> ApiCall) : Script nat :=
  fun w =>
    (Normal (nextNode w),
     {| state := state w; currentTime := currentTime w;
        sampleRate := sampleRate w; resumeSucceeds := resumeSucceeds w;
        mathRandom := mathRandom w; nextNode := S (nextNode w);
        calls := calls w ++ [mk (nextNode w)] |}).

Definition getSampleRate : Script number := fun w => (Normal (sampleRate w), w).
Definition getCurrentTime : Script number := fun w => (Normal (currentTime w), w).
Definition getState : Script ContextState := fun w => (Normal (state w), w).
Definition getMathRandom : Script (nat -> number) :=
  fun w => (Normal (mathRandom w), w).

(** [audioContext.resume()].  The promise it returns is dropped by the
    caller; the context is running afterwards when the promise is
    fulfilled and stays suspended when it is rejected. *)
Definition resume : Script unit :=
  fun w =>
    (Normal tt,
     {| state := if resumeSucceeds w then Running else state w;
        currentTime := currentTime w;
        sampleRate := sampleRate w; resumeSucceeds := resumeSucceeds w;
        mathRandom := mathRandom w; nextNode := nextNode w;
        calls := calls w ++ [Resume] |}).

(** [audioContext.createBuffer(numberOfChannels, length, sampleRate)].
    [length] is an [unsigned long]; the Web Audio API has the method throw
    [NotSupportedError] when an argument is zero.  The rate passed by the
    component is the context's own and is not checked again here. *)
Definition createBuffer (channels : Z) (length : number) (rate : number)
    : Script AudioBuffer :=
  let n := toUnsignedLong length in
  if (channels =? 0) || (n =? 0) then throw NotSupportedError
  else ret {| numberOfChannels := channels; bufferRate := rate;
              channelData := replicate (Z.to_nat n) 0%float |}.

(** [a.connect(b).connect(c)]: [connect] returns its argument. *)
Fixpoint connectChain (source : Endpoint) (rest : list Endpoint) : Script unit :=
  match rest with
  | [] => ret tt
  | target :: rest' => call (Connect source target) ;; connectChain target rest'
  end.

(** ** The synthesizers (App.tsx, lines 104-233) *)

Definition playSweep (st : AppState) (time : number) : Script unit :=
  let sweepLength := 2%float in
  osc <- create CreateOscillator ;;
  call (SetPeriodicWave osc) ;;
  call (SetFrequency osc 380) ;;
  sweepEnv <- create CreateGain ;;
  call (CancelScheduledValues sweepEnv time) ;;
  call (SetValueAtTime sweepEnv 0 time) ;;
  call (LinearRampToValueAtTime sweepEnv 1
          (time + attack (sweepSequence st))%float) ;;
  call (LinearRampToValueAtTime sweepEnv 0
          (time + sweepLength - release (sweepSequence st))%float) ;;
  (if Track_eqb (selectedTrack st) SWEEP
   then connectChain (Node osc) [Node sweepEnv; Analyzer; Destination]
   else connectChain (Node osc) [Node sweepEnv; Destination]) ;;
  call (Start osc (Some time)) ;;
  call (Stop osc (time + sweepLength)%float).

Definition playPulse (st : AppState) (time : number) : Script unit :=
  let pulseTime := 1%float in
  osc <- create CreateOscillator ;;
  call (SetOscillatorType osc Sine) ;;
  call (SetFrequency osc (frequency (pulseSequence st))) ;;
  amp <- create CreateGain ;;
  call (SetGainValue amp 1) ;;
  lfoOsc <- create CreateOscillator ;;
  call (SetOscillatorType lfoOsc Square) ;;
  call (SetFrequency lfoOsc (lfo (pulseSequence st))) ;;
  call (Connect (Node lfoOsc) (GainParam amp)) ;;
  (if Track_eqb (selectedTrack st) PULSE
   then connectChain (Node osc) [Node amp; Analyzer; Destination]
   else connectChain (Node osc) [Node amp; Destination]) ;;
  call (Start lfoOsc None) ;;
  call (Start osc (Some time)) ;;
  call (Stop osc (time + pulseTime)%float).

(** [for (let i = 0; i < bufferSize; i++) data[i] = Math.random() * 2 - 1].
    [data] is a typed array: its length is fixed and a write past its end
    is dropped, so only the rounds with [i] below the length leave a trace
    and the recursion is on the number of slots left.  The rounds after
    them end as soon as [i] reaches [bufferSize]; see [playNoise] for the
    one case in which they do not end.  [data] is a [Float32Array]: the
    value written is narrowed to single precision, and [fround] of it is
    what the array holds. *)
Fixpoint fillNoise (slots : nat) (i : nat) (bufferSize : number)
    (random : nat -> number) (data : list number) : list number :=
  match slots with
  | O => data
  | S slots' =>
      if (numberOfNat i <? bufferSize)%float
      then fillNoise slots' (S i) bufferSize random
             (<[i := fround (random i * 2 - 1)]> data)
      else data
  end.

(** The largest value the counter [i] can reach: above it [i++] leaves a
    binary64 value unchanged. *)
Definition counterLimit : number := 9007199254740992%float.

Definition playNoise (st : AppState) (time : number) : Script unit :=
  rate <- getSampleRate ;;
  let bufferSize := (rate * duration (noiseSequence st))%float in
  buffer <- createBuffer 1 bufferSize rate ;;
  random <- getMathRandom ;;
  let data :=
    fillNoise (length (channelData buffer)) 0 bufferSize random
      (channelData buffer) in
  (if (counterLimit <? bufferSize)%float then hang else ret tt) ;;
  let buffer := {| numberOfChannels := numberOfChannels buffer;
                   bufferRate := bufferRate buffer; channelData := data |} in
  noise <- create CreateBufferSource ;;
  call (SetBuffer noise buffer) ;;
  bandpass <- create CreateBiquadFilter ;;
  call (SetFilterType bandpass Bandpass) ;;
  call (SetFrequency bandpass (band (noiseSequence st))) ;;
  (if Track_eqb (selectedTrack st) NOISE
   then connectChain (Node noise) [Node bandpass; Analyzer; Destination]
   else connectChain (Node noise) [Node bandpass; Destination]) ;;
  call (Start noise (Some time)).

Definition playSample (st : AppState) (audioBuffer : AudioBuffer)
    (time : number) : Script nat :=
  sampleSource <- create CreateBufferSource ;;
  call (SetBuffer sampleSource audioBuffer) ;;
  call (SetPlaybackRate sampleSource (rate (sampleSequence st))) ;;
  (if Track_eqb (selectedTrack st) SAMPLE
   then connectChain (Node sampleSource) [Analyzer; Destination]
   else connectChain (Node sampleSource) [Destination]) ;;
  call (Start sampleSource (Some time)) ;;
  ret sampleSource.

Definition playSound (st : AppState) (track : Track) (time : number)
    (audioBuffer : option AudioBuffer) : Script unit :=
  match track with
  | SWEEP => playSweep st time
  | PULSE => playPulse st time
  | NOISE => playNoise st time
  | SAMPLE =>
      match audioBuffer with
      | None => ret tt
      | Some b => playSample st b time ;; ret tt
      end
  end.

(** ** The controls (App.tsx, lines 235-367 and 461-473)

    Every control is an [<input type="range">]; its [name], [min] and [max]
    attributes are listed here.  [value] below is [Number(e.target.value)]
    of the change event. *)

Inductive Control :=
| bpm_control
| attack_control
| release_control
| hz_control
| lfo_control
| duration_control
| band_control
| rate_control.

Definition minOf (c : Control) : number :=
  match c with
  | bpm_control => 60
  | attack_control | release_control | duration_control => 0
  | hz_control => 660
  | lfo_control => 20
  | band_control => 400
  | rate_control => 0.1
  end.

Definition maxOf (c : Control) : number :=
  match c with
  | bpm_control => 240
  | attack_control | release_control => 1
  | hz_control => 1320
  | lfo_control => 40
  | duration_control | rate_control => 2
  | band_control => 1200
  end.

(** Every control is an [<input type="range">] with [min], [max] and
    [step] attributes.  Such an element lets the user choose among its
    stops only: [min], [min + step], and so on up to [max].  [stepsOf] is
    the number of steps from the first stop to the last. *)
Definition stepsOf (c : Control) : Z :=
  match c with
  | bpm_control => 180
  | attack_control | release_control => 10
  | hz_control => 660
  | lfo_control => 20
  | duration_control => 20
  | band_control => 160
  | rate_control => 19
  end.

(** [Number(e.target.value)] with the thumb on stop [n].  The element
    writes its value in decimal, so the third stop of a step of 0.1 reads
    "0.3": the number is the quotient 3 / 10, rounded once. *)
Definition stopAt (c : Control) (n : nat) : number :=
  match c with
  | bpm_control => numberOfNat (60 + n)
  | attack_control | release_control | duration_control =>
      (numberOfNat n / 10)%float
  | hz_control => numberOfNat (660 + n)
  | lfo_control => numberOfNat (20 + n)
  | band_control => numberOfNat (400 + 5 * n)
  | rate_control => (numberOfNat (1 + n) / 10)%float
  end.

(** The value the element delivers when the user asks for stop [k],
    counted from the first: the thumb does not leave the track, so a
    request before the first stop gives the first and one past the last
    gives the last. *)
Definition stopValue (c : Control) (k : Z) : number :=
  stopAt c (Z.to_nat (Z.max 0 (Z.min k (stepsOf c)))).

(** The [onChange] handlers.  The playback-rate input has none. *)
Definition onChange (c : Control) (value : number) (st : AppState) : AppState :=
  match c with
  | bpm_control => setTempo value st
  | attack_control =>
      setSweepSequence (fun prevState =>
        {| attack := value; release := release prevState;
           sweepSteps := sweepSteps prevState |}) st
  | release_control =>
      setSweepSequence (fun prevState =>
        {| attack := attack prevState; release := value;
           sweepSteps := sweepSteps prevState |}) st
  | hz_control =>
      setPulseSequence (fun prevState =>
        {| frequency := value; lfo := lfo prevState;
           pulseSteps := pulseSteps prevState |}) st
  | lfo_control =>
      setPulseSequence (fun prevState =>
        {| frequency := frequency prevState; lfo := value;
           pulseSteps := pulseSteps prevState |}) st
  | duration_control =>
      setNoiseSequence (fun prevState =>
        {| duration := value; band := band prevState;
           noiseSteps := noiseSteps prevState |}) st
  | band_control =>
      setNoiseSequence (fun prevState =>
        {| duration := duration prevState; band := value;
           noiseSteps := noiseSteps prevState |}) st
  | rate_control => st
  end.

(** The [value] attribute of a control: the state it displays. *)
Definition valueOf (c : Control) (st : AppState) : number :=
  match c with
  | bpm_control => tempo st
  | attack_control => attack (sweepSequence st)
  | release_control => release (sweepSequence st)
  | hz_control => frequency (pulseSequence st)
  | lfo_control => lfo (pulseSequence st)
  | duration_control => duration (noiseSequence st)
  | band_control => band (noiseSequence st)
  | rate_control => rate (sampleSequence st)
  end.

(** ** The scheduler (App.tsx, lines 409-455) *)

(** The period of the interval timer, in milliseconds. *)
Definition tickPeriod (st : AppState) : number := (60 / tempo st * 1000)%float.

Definition when (b : bool) (m : Script unit) : Script unit :=
  if b then m else ret tt.

(** The track firings of one tick, in the order of the four [if]s. *)
Definition fireTracks (st : AppState) (nextStep : Z) (time : number)
    : Script unit :=
  when (gate (steps (sweepSequence st)) nextStep)
       (playSound st SWEEP time None) ;;
  when (gate (steps (pulseSequence st)) nextStep)
       (playSound st PULSE time None) ;;
  when (gate (steps (noiseSequence st)) nextStep)
       (playSound st NOISE time None) ;;
  when (gate (steps (sampleSequence st)) nextStep)
       (playSound st SAMPLE time None).

(** One run of the interval callback, in the state [st] its closure holds.
    JavaScript's [%] takes the sign of the dividend, as [Z.rem] does.
    [setCurrentStep(nextStep)] comes before the firings and none of the
    statements before it can throw, so the new state does not depend on how
    the firings end. *)
Definition tick (st : AppState) (w : Audio) : AppState * (Completion unit * Audio) :=
  let w := snd (call RequestAnimationFrame w) in
  if negb (isPlaying st) then (st, call ClearInterval w)
  else
    let nextStep := Z.rem (currentStep st + 1) BEATS_PER_BAR in
    (setCurrentStep nextStep st,
     (s <- getState ;;
      (match s with Suspended => resume | _ => ret tt end) ;;
      currentTime <- getCurrentTime ;;
      fireTracks st nextStep currentTime) w).

(** [k] runs of the callback.  Between two runs the audio world moves on
    (the clock advances, a resumption settles, the platform drops finished
    nodes): [env j] is that change after run [j]. *)
Fixpoint ticks (env : nat -> Audio -> Audio) (j : nat) (k : nat)
    (st : AppState) (w : Audio) : AppState * Audio :=
  match k with
  | O => (st, w)
  | S k' =>
      let '(st', (_, w')) := tick st w in
      ticks env (S j) k' st' (env j w')
  end.

(** ** Reading the log *)

(** The calls a script adds to the log. *)
Definition callsOf {A} (m : Script A) (w : Audio) : list ApiCall :=
  drop (length (calls w)) (calls (snd (m w))).

(** The world [w] with the context in state [s] and [new] added to the log. *)
Definition logged (new : list ApiCall) (s : ContextState) (w : Audio) : Audio := {|
  state := s; currentTime := currentTime w; sampleRate := sampleRate w;
  resumeSucceeds := resumeSucceeds w; mathRandom := mathRandom w;
  nextNode := nextNode w; calls := calls w ++ new
|}.

(** The world in which the firings of a tick run: the frame request is
    logged, and on a suspended context [resume()] has been called, which
    the platform grants or not. *)
Definition afterHousekeeping (w : Audio) : Audio :=
  logged
    (RequestAnimationFrame
       :: match state w with Suspended => [Resume] | _ => [] end)
    (match state w with
     | Suspended => if resumeSucceeds w then Running else Suspended
     | s => s
     end)
    w.

(** The sources started, and those told to stop, in the order of the log. *)
Definition startedNodes (log : list ApiCall) : list nat :=
  omap (fun c => match c with Start n _ => Some n | _ => None end) log.

Definition stoppedNodes (log : list ApiCall) : list nat :=
  omap (fun c => match c with Stop n _ => Some n | _ => None end) log.

(** The time at which node [n] is told to stop, if it is told at all. *)
Definition stopTime (n : nat) (log : list ApiCall) : option number :=
  head (omap (fun c =>
                match c with
                | Stop n' t => if Nat.eqb n n' then Some t else None
                | _ => None
                end) log).

(** The oscillators created, in the order of the log. *)
Definition oscillators (log : list ApiCall) : list nat :=
  omap (fun c => match c with CreateOscillator n => Some n | _ => None end) log.

(** The oscillators that were started and are never told to stop.  An
    oscillator sounds from its start to its stop: these keep running, and
    the platform keeps them, for as long as the context lives. *)
Definition neverStopped (log : list ApiCall) : list nat :=
  filter (fun n => n ∈ startedNodes log /\ n ∉ stoppedNodes log)
         (oscillators log).

(** The buffers handed to buffer sources. *)
Definition buffersSet (log : list ApiCall) : list AudioBuffer :=
  omap (fun c => match c with SetBuffer _ b => Some b | _ => None end) log.

(** [times] firings of the Pulse track, one after the other. *)
Fixpoint firePulses (st : AppState) (times : list number) : Script unit :=
  match times with
  | [] => ret tt
  | t :: times' => playPulse st t ;; firePulses st times'
  end.

(** The calls of one Pulse firing whose first node is [n], and of a run of
    firings. *)
Definition pulseCalls (st : AppState) (t : number) (n : nat) : list ApiCall :=
  [CreateOscillator n;
   SetOscillatorType n Sine;
   SetFrequency n (frequency (pulseSequence st));
   CreateGain (S n);
   SetGainValue (S n) 1;
   CreateOscillator (S (S n));
   SetOscillatorType (S (S n)) Square;
   SetFrequency (S (S n)) (lfo (pulseSequence st));
   Connect (Node (S (S n))) (GainParam (S n))]
  ++ (if Track_eqb (selectedTrack st) PULSE
      then [Connect (Node n) (Node (S n));
            Connect (Node (S n)) Analyzer;
            Connect Analyzer Destination]
      else [Connect (Node n) (Node (S n));
            Connect (Node (S n)) Destination])
  ++ [Start (S (S n)) None; Start n (Some t); Stop n (t + 1)%float].

Fixpoint pulsesCalls (st : AppState) (times : list number) (n : nat)
    : list ApiCall :=
  match times with
  | [] => []
  | t :: times' => pulseCalls st t n ++ pulsesCalls st times' (3 + n)
  end.

(** Two audio worlds in which a firing sees the same clock, rate, random
    values and next node name; they may differ in the state of the context
    and in what was logged so far. *)
Definition sameSound (w1 w2 : Audio) : Prop :=
  currentTime w1 = currentTime w2 /\ sampleRate w1 = sampleRate w2
  /\ mathRandom w1 = mathRandom w2 /\ nextNode w1 = nextNode w2.

(** A script that reads nothing but those four, and only adds to the log. *)
Definition uniform {A} (m : Script A) : Prop :=
  forall w1 w2, sameSound w1 w2 ->
    exists new,
      fst (m w1) = fst (m w2)
      /\ calls (snd (m w1)) = calls w1 ++ new
      /\ calls (snd (m w2)) = calls w2 ++ new
      /\ state (snd (m w1)) = state w1
      /\ state (snd (m w2)) = state w2
      /\ sameSound (snd (m w1)) (snd (m w2)).

(** ** States and worlds used as examples *)

(** A running context at 44100 Hz, nothing logged yet. *)
Definition anAudio : Audio := {|
  state := Running; currentTime := 0; sampleRate := 44100;
  resumeSucceeds := true; mathRandom := fun _ => 0.5%float;
  nextNode := 0; calls := []
|}.

(** A context the platform keeps suspended: [resume()] is rejected. *)
Definition stuckAudio : Audio := {|
  state := Suspended; currentTime := 0; sampleRate := 44100;
  resumeSucceeds := false; mathRandom := fun _ => 0.5%float;
  nextNode := 0; calls := []
|}.

(** The world [w] with its context running. *)
Definition runningAudio (w : Audio) : Audio := {|
  state := Running; currentTime := currentTime w; sampleRate := sampleRate w;
  resumeSucceeds := resumeSucceeds w; mathRandom := mathRandom w;
  nextNode := nextNode w; calls := calls w
|}.

(** Playing, at grid position [p], every pattern empty. *)
Definition playingAt (p : Z) : AppState :=
  setCurrentStep p (setIsPlaying negb initialState).

(** Playing at position 0 with the Sweep gate of step 1 on. *)
Definition sweepOnOne : AppState := handleStepClick SWEEP 1 (playingAt 0).

(** Playing at position 0 with the Sample gate of step 1 on. *)
Definition sampleOnOne : AppState := handleStepClick SAMPLE 1 (playingAt 0).

(** Playing at position 0 with the Noise and Sample gates of step 1 on and
    the Duration slider at its minimum. *)
Definition silentNoise : AppState :=
  onChange duration_control 0
    (handleStepClick SAMPLE 1 (handleStepClick NOISE 1 (playingAt 0))).

(** A running context at 44100 Hz whose random draws go through 0, 0.1,
    ..., 0.9 again and again. *)
Definition noisyAudio : Audio := {|
  state := Running; currentTime := 0; sampleRate := 44100;
  resumeSucceeds := true;
  mathRandom := fun k => (numberOfNat (k mod 10) / 10)%float;
  nextNode := 0; calls := []
|}.

(** The Duration slider at 0.7, the rest as at start-up. *)
Definition shortNoise : AppState := onChange duration_control 0.7 initialState.

(** ** The rest of the component

    What follows embeds the parts of [App.tsx] that the sections above do
    not need: the pads and the events of the page, and the waveform
    painter. *)

(** [sequenceMap[track].steps] (App.tsx, lines 64-69). *)
Definition sequenceSteps (st : AppState) (track : Track) : list bool :=
  match track with
  | SWEEP => steps (sweepSequence st)
  | PULSE => steps (pulseSequence st)
  | NOISE => steps (noiseSequence st)
  | SAMPLE => steps (sampleSequence st)
  end.

(** The pads (App.tsx, lines 503-517): one button for each index below
    [BEATS_PER_BAR].  [ariaChecked] is [steps[i]] of the selected track,
    which is [undefined] past the end of the array; [triggered] says
    whether the class name is ["triggered"]. *)
Record Pad := mkPad {
  ariaChecked : option bool;
  triggered : bool
}.

Definition padIndices : list nat := seq 0 (Z.to_nat BEATS_PER_BAR).

Definition pads (st : AppState) : list Pad :=
  map (fun i =>
         {| ariaChecked := sequenceSteps st (selectedTrack st) !! i;
            triggered := isPlaying st && (currentStep st =? Z.of_nat i) |})
      padIndices.

(** The [onClick] of each pad. *)
Definition padHandlers (st : AppState) : list (AppState -> AppState) :=
  map (fun i => handleStepClick (selectedTrack st) i) padIndices.

(** What the user and the timer can do to the page. *)
Inductive Event :=
| PadClick (i : nat)
| TrackClick (track : Track)
| PlayClick
| InputChange (c : Control) (value : number)
| TimerFires.

(** One event on a page just rendered from [st], so that the interval
    callback is the one of that render.  A click on the pad [i] runs the
    handler of that pad, if the page has such a pad. *)
Definition handleEvent (e : Event) (sw : AppState * Audio) : AppState * Audio :=
  let '(st, w) := sw in
  match e with
  | PadClick i => (default id (padHandlers st !! i) st, w)
  | TrackClick track => (setSelectedTrack track st, w)
  | PlayClick => (setIsPlaying negb st, w)
  | InputChange c value => (onChange c value st, w)
  | TimerFires => let '(st', (_, w')) := tick st w in (st', w')
  end.

(** Does the effect run again, and arm a new timer, after the event [e]
    took the state from [st] to [st']?  Its dependencies (App.tsx, lines
    447-455) are [isPlaying], [currentStep], [tempo] and the [steps]
    arrays of the Sweep, Pulse and Noise sequences, compared with
    [Object.is]: a toggle makes a new array, a parameter write keeps the
    array, and neither the selection nor the Sample sequence is among
    them. *)
Definition rearms (e : Event) (st st' : AppState) : bool :=
  match e with
  | PadClick i =>
      match padHandlers st !! i, selectedTrack st with
      | None, _ | _, SAMPLE => false
      | _, _ => true
      end
  | TrackClick _ => false
  | PlayClick => true
  | InputChange bpm_control value => negb (PrimFloat.Leibniz.eqb (tempo st) value)
  | InputChange _ _ => false
  | TimerFires => negb (currentStep st' =? currentStep st)
  end.

(** One event on a page whose state is [st] while the interval callback
    is the one of an earlier render, of the state [closure]: the callback
    reads [closure] and writes the grid position of the page; the handlers
    of the page read [st]. *)
Definition handleArmed (page : AppState * AppState * Audio) (e : Event)
    : AppState * AppState * Audio :=
  let '(st, closure, w) := page in
  let '(st', w') :=
    match e with
    | TimerFires =>
        (if isPlaying closure
         then setCurrentStep
                (Z.rem (currentStep closure + 1) BEATS_PER_BAR) st
         else st,
         snd (snd (tick closure w)))
    | _ => handleEvent e (st, w)
    end in
  (st', if rearms e st st' then st' else closure, w').

(** A sequence of events, from a page just rendered. *)
Definition handleEvents (es : list Event) (sw : AppState * Audio)
    : AppState * Audio :=
  let '(st, _, w) := foldl handleArmed (sw.1, sw.1, sw.2) es in (st, w).

(** Every pattern has one gate for each pad and the grid position is the
    index of a pad. *)
Definition wellFormed (st : AppState) : Prop :=
  (forall track, length (sequenceSteps st track) = Z.to_nat BEATS_PER_BAR)
  /\ 0 <= currentStep st < BEATS_PER_BAR.

(** Every parameter is inside the range its control declares. *)
Definition inRange (st : AppState) : Prop :=
  forall c, between (minOf c) (maxOf c) (valueOf c st) = true.

(** An event a range input can produce: the value of a change is between
    the [min] and the [max] of the input. *)
Definition fromTheSliders (e : Event) : Prop :=
  match e with
  | InputChange c value => between (minOf c) (maxOf c) value = true
  | _ => True
  end.

(** The calls one run of the interval callback adds to the log. *)
Definition tickCalls (st : AppState) (w : Audio) : list ApiCall :=
  drop (length (calls w)) (calls (snd (snd (tick st w)))).

(** A script that only adds to the log, and only calls that satisfy [P]. *)
Definition emits {A} (P : ApiCall -> Prop) (m : Script A) : Prop :=
  forall w, exists new,
    calls (snd (m w)) = calls w ++ new /\ Forall P new.

(** The calls of the callback itself, as opposed to those of a firing. *)
Definition isHousekeeping (c : ApiCall) : bool :=
  match c with
  | Resume | RequestAnimationFrame | ClearInterval => true
  | _ => false
  end.

(** A call that carries a start time carries the time [t]. *)
Definition anchoredAt (t : number) (c : ApiCall) : Prop :=
  match c with
  | Start _ (Some t') => t' = t
  | SetValueAtTime _ _ t' => t' = t
  | CancelScheduledValues _ t' => t' = t
  | _ => True
  end.

(** A source started without a time: [start()]. *)
Definition isUntimedStart (c : ApiCall) : bool :=
  match c with Start _ None => true | _ => false end.

(** Each synthesizer makes one call that no other makes: it marks a firing
    of the track in the log. *)
Definition marks (track : Track) (c : ApiCall) : bool :=
  match track, c with
  | SWEEP, SetPeriodicWave _ => true
  | PULSE, SetGainValue _ _ => true
  | NOISE, CreateBiquadFilter _ => true
  | SAMPLE, SetPlaybackRate _ _ => true
  | _, _ => false
  end.

Definition firingsOf (track : Track) (log : list ApiCall) : nat :=
  length (filter (fun c => marks track c = true) log).

(** The gates of a pattern that are on. *)
Definition gatesOn (s : list bool) : nat :=
  length (filter (fun b => b = true) s).

Definition isConnect (c : ApiCall) : bool :=
  match c with Connect _ _ => true | _ => false end.

(** The connections made, and the nodes created, in the order of the log. *)
Definition connections (log : list ApiCall) : list (Endpoint * Endpoint) :=
  omap (fun c => match c with Connect a b => Some (a, b) | _ => None end) log.

Definition createdNodes (log : list ApiCall) : list nat :=
  omap (fun c =>
          match c with
          | CreateOscillator n | CreateGain n | CreateBufferSource n
          | CreateBiquadFilter n => Some n
          | _ => None
          end) log.

(** An endpoint of the firing whose nodes are [nodes]: one of them, a
    parameter of one of them, the analyzer or the destination. *)
Definition ownEndpoint (nodes : list nat) (e : Endpoint) : Prop :=
  match e with
  | Node n | GainParam n => n ∈ nodes
  | Analyzer | Destination => True
  end.

(** The signal entering at [a] arrives at the destination: along the
    connections, and from a parameter of a node through that node. *)
Inductive flowsTo (cs : list (Endpoint * Endpoint)) : Endpoint -> Prop :=
| at_destination : flowsTo cs Destination
| through a b : (a, b) ∈ cs -> flowsTo cs b -> flowsTo cs a
| into_parameter n : flowsTo cs (Node n) -> flowsTo cs (GainParam n).

(** ** The oscilloscope (App.tsx, lines 369-407) *)

(** What [visualize] reads from the page: the canvas, if the document has
    one, with its size and whether it hands out a 2d context; and the
    bytes that [getByteTimeDomainData] writes into the array, one for each
    of the [frequencyBinCount] slots. *)
Record Canvas := {
  width : number;
  height : number;
  context2d : bool
}.

Record Page := {
  canvas : option Canvas;
  byteTimeDomainData : list nat
}.

Inductive CanvasCall :=
| SetFillStyle (style : string)
| FillRect (x y w h : number)
| SetLineWidth (v : number)
| SetStrokeStyle (style : string)
| BeginPath
| MoveTo (x y : number)
| LineTo (x y : number)
| Stroke.

(** The loop over the bytes: [i] counts them, [x] is advanced by
    [sliceWidth] after each. *)
Fixpoint plot (data : list nat) (i : nat) (x sliceWidth h : number)
    : list CanvasCall :=
  match data with
  | [] => []
  | byte :: data' =>
      let v := (numberOfNat byte / 128)%float in
      let y := (v * h / 2)%float in
      (if Nat.eqb i 0 then MoveTo x y else LineTo x y)
        :: plot data' (S i) (x + sliceWidth)%float sliceWidth h
  end.

(** The calls on the 2d context, and whether [visualize] asked for another
    animation frame. *)
Definition visualize (page : Page) : list CanvasCall * bool :=
  match canvas page with
  | None => ([], false)
  | Some c =>
      if negb (context2d c) then ([], false)
      else
        let bufferLength := length (byteTimeDomainData page) in
        let sliceWidth := (width c * 1.0 / numberOfNat bufferLength)%float in
        ([SetFillStyle "hsla(0, 0%, 10%, 1)";
          FillRect 0 0 (width c) (height c);
          SetLineWidth 2;
          SetStrokeStyle "rgb(202, 131, 0)";
          BeginPath]
         ++ plot (byteTimeDomainData page) 0 0 sliceWidth (height c)
         ++ [LineTo (width c) (height c / 2)%float; Stroke],
         true)
  end.

(** One animation frame: the browser runs the callbacks requested since
    the last frame, here [callbacks] times [visualize]; the result is what
    was painted and how many callbacks were requested for the next frame. *)
Definition animationFrame (page : Page) (callbacks : nat)
    : list CanvasCall * nat :=
  Nat.iter callbacks
    (fun '(painted, next) =>
       let '(p, again) := visualize page in
       (painted ++ p, if again then S next else next))
    ([], 0%nat).

Definition isFrameRequest (c : ApiCall) : bool :=
  match c with RequestAnimationFrame => true | _ => false end.

(** The timer and the display run side by side: a beat is a run of the
    interval callback or an animation frame of the page as it then is. *)
Inductive Beat :=
| TimerBeat
| FrameBeat (page : Page).

(** The state of the app and of the audio world, and the number of
    [visualize] callbacks waiting for the next frame. *)
Definition runBeat (s : AppState * Audio * nat) (b : Beat)
    : AppState * Audio * nat :=
  let '(st, w, callbacks) := s in
  match b with
  | TimerBeat =>
      (handleEvent TimerFires (st, w),
       (callbacks
        + length (filter (fun c => isFrameRequest c = true) (tickCalls st w)))%nat)
  | FrameBeat page => (st, w, snd (animationFrame page callbacks))
  end.

Definition paints (b : Beat) : Prop :=
  match b with
  | TimerBeat => True
  | FrameBeat page =>
      exists c, canvas page = Some c /\ context2d c = true
  end.

Definition isTimerBeat (b : Beat) : bool :=
  match b with TimerBeat => true | FrameBeat _ => false end.

(** The second coordinate of a point of the path. *)
Definition ordinate (c : CanvasCall) : option number :=
  match c with
  | MoveTo _ y | LineTo _ y => Some y
  | _ => None
  end.

Definition isMoveTo (c : CanvasCall) : bool :=
  match c with MoveTo _ _ => true | _ => false end.

(** * Properties *)

(** ** Scripts and their logs *)

Lemma callsOf_app {A} (m : Script A) (w : Audio) (new : list ApiCall) :
  calls (snd (m w)) = calls w ++ new -> callsOf m w = new.
Proof. intros E. unfold callsOf. rewrite E. apply drop_app_length. Qed.

(** Unfolds a script down to the record it returns and flattens its log. *)
Ltac run_script :=
  cbn [bind ret call create throw hang when connectChain
       getSampleRate getCurrentTime getState getMathRandom resume
       fst snd calls nextNode state currentTime sampleRate resumeSucceeds
       mathRandom];
  unfold call, create, ret, throw, hang;
  cbn [fst snd calls nextNode state currentTime sampleRate resumeSucceeds
       mathRandom];
  rewrite <- ?app_assoc; cbn [app].

(** ** The grid position *)

Lemma tick_isPlaying st w : isPlaying (fst (tick st w)) = isPlaying st.
Proof. unfold tick. destruct (isPlaying st) eqn:E; cbn; auto. Qed.

Lemma tick_currentStep st w :
  isPlaying st = true ->
  currentStep (fst (tick st w)) = Z.rem (currentStep st + 1) BEATS_PER_BAR.
Proof. intros E. unfold tick. rewrite E. reflexivity. Qed.

Lemma ticks_isPlaying env j k st w :
  isPlaying (fst (ticks env j k st w)) = isPlaying st.
Proof.
  revert j st w. induction k as [|k IH]; intros j st w; cbn; [done|].
  pose proof (tick_isPlaying st w) as E.
  destruct (tick st w) as [st' [c w']]. rewrite IH. exact E.
Qed.

Lemma ticks_currentStep env j k st w :
  isPlaying st = true -> 0 <= currentStep st < 16 ->
  currentStep (fst (ticks env j k st w)) = (currentStep st + Z.of_nat k) mod 16.
Proof.
  revert j st w. induction k as [|k IH]; intros j st w Hp Hr.
  - cbn. rewrite Z.add_0_r, Z.mod_small; lia.
  - cbn [ticks].
    pose proof (tick_isPlaying st w) as E1.
    pose proof (tick_currentStep st w Hp) as E2.
    destruct (tick st w) as [st' [c w']]. cbn [fst] in E1, E2.
    assert (E3 : currentStep st' = (currentStep st + 1) mod 16).
    { rewrite E2. unfold BEATS_PER_BAR. apply Z.rem_mod_nonneg; lia. }
    rewrite IH.
    + rewrite E3, Zplus_mod_idemp_l. f_equal. lia.
    + congruence.
    + rewrite E3. apply Z.mod_pos_bound. lia.
Qed.

(** C1.  From a grid position [p0] in [0,16), [k] runs of the scheduler
    callback while the transport is playing leave the position at
    [(p0 + k) mod 16], an integer in [0,16) and so never negative, whatever
    the audio world does in between. *)
Theorem grid_position_after_ticks env j k st w :
  isPlaying st = true -> 0 <= currentStep st < 16 ->
  currentStep (fst (ticks env j k st w)) = (currentStep st + Z.of_nat k) mod 16
  /\ 0 <= currentStep (fst (ticks env j k st w)) < 16.
Proof.
  intros Hp Hr. rewrite ticks_currentStep by assumption.
  split; [reflexivity | apply Z.mod_pos_bound; lia].
Qed.

Lemma grid_position_after_ticks_witness :
  currentStep (fst (ticks (fun _ w => w) 0 20 (playingAt 13) anAudio)) = (13 + 20) mod 16
  /\ 0 <= currentStep (fst (ticks (fun _ w => w) 0 20 (playingAt 13) anAudio)) < 16.
Proof.
  apply (grid_position_after_ticks (fun _ w => w) 0 20 (playingAt 13) anAudio).
  - reflexivity.
  - cbn. lia.
Defined.

(** ** Pattern edits *)

Lemma toggledSteps_insert i (s : list bool) :
  (i < length s)%nat ->
  toggledSteps i s = <[i := negb (default false (s !! i))]> s.
Proof.
  intros Hi. unfold toggledSteps.
  destruct (lookup_lt_is_Some_2 s i Hi) as [b Eb].
  rewrite Eb. cbn [default].
  rewrite <- (take_drop_middle s i b Eb) at 3.
  rewrite insert_app_r_alt by (rewrite length_take; lia).
  rewrite length_take, Nat.min_l, Nat.sub_diag by lia.
  cbn. by rewrite Nat.add_1_r.
Qed.

Lemma toggledSteps_length i (s : list bool) :
  (i < length s)%nat -> length (toggledSteps i s) = length s.
Proof. intros Hi. rewrite toggledSteps_insert by done. apply length_insert. Qed.

Lemma toggledSteps_same i (s : list bool) :
  (i < length s)%nat ->
  toggledSteps i s !! i = Some (negb (default false (s !! i))).
Proof. intros Hi. rewrite toggledSteps_insert by done. by apply list_lookup_insert_eq. Qed.

Lemma toggledSteps_other i j (s : list bool) :
  (i < length s)%nat -> j <> i -> toggledSteps i s !! j = s !! j.
Proof. intros Hi Hj. rewrite toggledSteps_insert by done. by apply list_lookup_insert_ne. Qed.

Lemma toggledSteps_twice i (s : list bool) :
  (i < length s)%nat -> toggledSteps i (toggledSteps i s) = s.
Proof.
  intros Hi.
  rewrite (toggledSteps_insert i (toggledSteps i s))
    by (by rewrite toggledSteps_length).
  rewrite toggledSteps_same by done.
  rewrite toggledSteps_insert by done.
  rewrite list_insert_insert_eq.
  destruct (lookup_lt_is_Some_2 s i Hi) as [b Eb].
  rewrite Eb. cbn. rewrite negb_involutive. by apply list_insert_id.
Qed.

(** C3.  On a pattern of sixteen gates and an index below sixteen, two
    toggles of the same gate give the pattern back and one toggle leaves
    every other gate as it was.  The toggled pattern is a new array: it is
    behind a reference other than the old one, the old array still holds
    the old gates, and a later write into the new array does not reach
    it. *)
Theorem toggle_twice_and_frame (s : list bool) (i : nat) :
  length s = 16%nat -> (i < 16)%nat ->
  toggledSteps i (toggledSteps i s) = s
  /\ (forall j, j <> i -> toggledSteps i s !! j = s !! j)
  /\ forall (h : gmap positive (list bool)) r, h !! r = Some s ->
       exists r' h',
         ArrayHeap.toggleSteps i r h = Some (r', h')
         /\ r' <> r
         /\ h' !! r' = Some (toggledSteps i s)
         /\ h' !! r = Some s
         /\ forall j v, ArrayHeap.assign r' j v h' !! r = Some s.
Proof.
  intros Hl Hi. assert (Hi' : (i < length s)%nat) by lia.
  split; [by apply toggledSteps_twice|].
  split; [intros j Hj; by apply toggledSteps_other|].
  intros h r Hr. unfold ArrayHeap.toggleSteps, ArrayHeap.allocate.
  rewrite Hr. cbn.
  set (r' := fresh (dom h)).
  assert (Hfresh : h !! r' = None).
  { apply not_elem_of_dom. apply is_fresh. }
  assert (Hne : r' <> r) by congruence.
  exists r', (<[r' := toggledSteps i s]> h).
  split; [done|]. split; [done|].
  split; [apply lookup_insert_eq|].
  split; [by rewrite lookup_insert_ne|].
  intros j v. unfold ArrayHeap.assign.
  rewrite lookup_insert_eq, lookup_insert_ne by done.
  by rewrite lookup_insert_ne.
Qed.

Lemma toggle_twice_and_frame_witness :
  toggledSteps 3 (toggledSteps 3 noSteps) = noSteps
  /\ (forall j, j <> 3%nat -> toggledSteps 3 noSteps !! j = noSteps !! j)
  /\ forall (h : gmap positive (list bool)) r, h !! r = Some noSteps ->
       exists r' h',
         ArrayHeap.toggleSteps 3 r h = Some (r', h')
         /\ r' <> r
         /\ h' !! r' = Some (toggledSteps 3 noSteps)
         /\ h' !! r = Some noSteps
         /\ forall j v, ArrayHeap.assign r' j v h' !! r = Some noSteps.
Proof.
  apply (toggle_twice_and_frame noSteps 3).
  - reflexivity.
  - lia.
Defined.

Lemma toggleObject_frame i prevState nextState key :
  toggleObject i prevState = Some nextState -> key <> "steps"%string ->
  nextState !! key = prevState !! key.
Proof.
  unfold toggleObject.
  destruct (prevState !! "steps"%string) as [[v|a]|] eqn:E; try done.
  intros [= <-] Hk. by rewrite lookup_insert_ne, lookup_delete_ne.
Qed.

(** C10.  A toggle rebuilds the sequence from its own parameters and the
    new gates: attack and release, frequency and lfo, duration and band,
    and rate are the same after it as before it, for every index; so are
    the tempo and every value a control shows when a pad is clicked.  On
    the objects themselves, the toggle of a sequence is the object of the
    toggled sequence, and every property other than [steps] is left as it
    was. *)
Theorem toggle_keeps_parameters (i : nat) :
  (forall q : SweepSequence,
     attack (toggleSequenceStep i q) = attack q
     /\ release (toggleSequenceStep i q) = release q
     /\ toggleObject i (toObject q) = Some (toObject (toggleSequenceStep i q)))
  /\ (forall q : PulseSequence,
     frequency (toggleSequenceStep i q) = frequency q
     /\ lfo (toggleSequenceStep i q) = lfo q
     /\ toggleObject i (toObject q) = Some (toObject (toggleSequenceStep i q)))
  /\ (forall q : NoiseSequence,
     duration (toggleSequenceStep i q) = duration q
     /\ band (toggleSequenceStep i q) = band q
     /\ toggleObject i (toObject q) = Some (toObject (toggleSequenceStep i q)))
  /\ (forall q : SampleSequence,
     rate (toggleSequenceStep i q) = rate q
     /\ toggleObject i (toObject q) = Some (toObject (toggleSequenceStep i q)))
  /\ (forall prevState nextState key,
     toggleObject i prevState = Some nextState -> key <> "steps"%string ->
     nextState !! key = prevState !! key)
  /\ forall track c st, valueOf c (handleStepClick track i st) = valueOf c st.
Proof.
  repeat split.
  - apply toggleObject_frame.
  - intros track c st. destruct track, c; reflexivity.
Qed.

(** ** The Sweep envelope *)

Lemma playSweep_run st t w :
  playSweep st t w =
  (Normal tt,
   {| state := state w; currentTime := currentTime w;
      sampleRate := sampleRate w; resumeSucceeds := resumeSucceeds w;
      mathRandom := mathRandom w; nextNode := S (S (nextNode w));
      calls := calls w ++
        [CreateOscillator (nextNode w);
         SetPeriodicWave (nextNode w);
         SetFrequency (nextNode w) 380;
         CreateGain (S (nextNode w));
         CancelScheduledValues (S (nextNode w)) t;
         SetValueAtTime (S (nextNode w)) 0 t;
         LinearRampToValueAtTime (S (nextNode w)) 1
           (t + attack (sweepSequence st))%float;
         LinearRampToValueAtTime (S (nextNode w)) 0
           (t + 2 - release (sweepSequence st))%float]
        ++ (if Track_eqb (selectedTrack st) SWEEP
            then [Connect (Node (nextNode w)) (Node (S (nextNode w)));
                  Connect (Node (S (nextNode w))) Analyzer;
                  Connect Analyzer Destination]
            else [Connect (Node (nextNode w)) (Node (S (nextNode w)));
                  Connect (Node (S (nextNode w))) Destination])
        ++ [Start (nextNode w) (Some t); Stop (nextNode w) (t + 2)%float] |}).
Proof.
  unfold playSweep. destruct (Track_eqb (selectedTrack st) SWEEP); run_script;
    reflexivity.
Qed.

(** C2.  A Sweep firing at [t] with attack [a] and release [r] makes the
    calls listed below and no other: on its gain, value 0 at [t], a linear
    ramp to 1 ending at [t + a], a linear ramp to 0 ending at [t + 2 - r];
    on its oscillator, start at [t] and stop at [t + 2], where neither [a]
    nor [r] occurs.  With the initial parameters (attack 0.2, release 0.5)
    and [t = 0] the ramps end at 0.2 and at 1.5 and the oscillator stops at
    2. *)
Theorem sweep_schedule :
  (forall st t w,
     let a := attack (sweepSequence st) in
     let r := release (sweepSequence st) in
     let osc := nextNode w in
     let sweepEnv := S (nextNode w) in
     fst (playSweep st t w) = Normal tt
     /\ callsOf (playSweep st t) w =
          [CreateOscillator osc;
           SetPeriodicWave osc;
           SetFrequency osc 380;
           CreateGain sweepEnv;
           CancelScheduledValues sweepEnv t;
           SetValueAtTime sweepEnv 0 t;
           LinearRampToValueAtTime sweepEnv 1 (t + a)%float;
           LinearRampToValueAtTime sweepEnv 0 (t + 2 - r)%float]
          ++ (if Track_eqb (selectedTrack st) SWEEP
              then [Connect (Node osc) (Node sweepEnv);
                    Connect (Node sweepEnv) Analyzer;
                    Connect Analyzer Destination]
              else [Connect (Node osc) (Node sweepEnv);
                    Connect (Node sweepEnv) Destination])
          ++ [Start osc (Some t); Stop osc (t + 2)%float])
  /\ callsOf (playSweep initialState 0) anAudio =
       [CreateOscillator 0;
        SetPeriodicWave 0;
        SetFrequency 0 380;
        CreateGain 1;
        CancelScheduledValues 1 0;
        SetValueAtTime 1 0 0;
        LinearRampToValueAtTime 1 1 0.2;
        LinearRampToValueAtTime 1 0 1.5;
        Connect (Node 0) (Node 1);
        Connect (Node 1) Analyzer;
        Connect Analyzer Destination;
        Start 0 (Some 0%float);
        Stop 0 2].
Proof.
  split.
  - intros st t w a r osc sweepEnv. rewrite playSweep_run. split; [done|].
    apply callsOf_app. rewrite playSweep_run. reflexivity.
  - vm_compute. reflexivity.
Qed.

(** ** The Pulse oscillators *)

Lemma playPulse_run st t w :
  playPulse st t w =
  (Normal tt,
   {| state := state w; currentTime := currentTime w;
      sampleRate := sampleRate w; resumeSucceeds := resumeSucceeds w;
      mathRandom := mathRandom w; nextNode := 3 + nextNode w;
      calls := calls w ++ pulseCalls st t (nextNode w) |}).
Proof.
  unfold playPulse, pulseCalls.
  destruct (Track_eqb (selectedTrack st) PULSE); run_script; reflexivity.
Qed.

Lemma firePulses_run st times w :
  firePulses st times w =
  (Normal tt,
   {| state := state w; currentTime := currentTime w;
      sampleRate := sampleRate w; resumeSucceeds := resumeSucceeds w;
      mathRandom := mathRandom w;
      nextNode := 3 * length times + nextNode w;
      calls := calls w ++ pulsesCalls st times (nextNode w) |}).
Proof.
  revert w. induction times as [|t times IH]; intros w.
  - cbn. rewrite app_nil_r. by destruct w.
  - cbn [firePulses]. unfold bind. rewrite playPulse_run, IH.
    cbn [nextNode calls state currentTime sampleRate resumeSucceeds mathRandom
         pulsesCalls length].
    rewrite <- app_assoc. do 2 f_equal. lia.
Qed.

Lemma startedNodes_pulseCalls st t n :
  startedNodes (pulseCalls st t n) = [S (S n); n].
Proof. unfold pulseCalls. by destruct (Track_eqb _ _). Qed.

Lemma stoppedNodes_pulseCalls st t n : stoppedNodes (pulseCalls st t n) = [n].
Proof. unfold pulseCalls. by destruct (Track_eqb _ _). Qed.

Lemma stopTime_pulseCalls st t n m :
  stopTime m (pulseCalls st t n) = if Nat.eqb m n then Some (t + 1)%float else None.
Proof.
  unfold pulseCalls, stopTime.
  destruct (Track_eqb _ _); cbn; by destruct (Nat.eqb m n).
Qed.

Lemma oscillators_pulseCalls st t n :
  oscillators (pulseCalls st t n) = [n; S (S n)].
Proof. unfold pulseCalls. by destruct (Track_eqb _ _). Qed.

Lemma startedNodes_app l1 l2 :
  startedNodes (l1 ++ l2) = startedNodes l1 ++ startedNodes l2.
Proof. apply omap_app. Qed.

Lemma stoppedNodes_app l1 l2 :
  stoppedNodes (l1 ++ l2) = stoppedNodes l1 ++ stoppedNodes l2.
Proof. apply omap_app. Qed.

Lemma oscillators_app l1 l2 :
  oscillators (l1 ++ l2) = oscillators l1 ++ oscillators l2.
Proof. apply omap_app. Qed.

(** The nodes of later firings have later names. *)
Lemma pulsesCalls_ge st times n m :
  m ∈ startedNodes (pulsesCalls st times n)
  \/ m ∈ stoppedNodes (pulsesCalls st times n)
  \/ m ∈ oscillators (pulsesCalls st times n) ->
  (n <= m)%nat.
Proof.
  revert n. induction times as [|t times IH]; intros n; cbn [pulsesCalls].
  - cbn. rewrite !elem_of_nil. tauto.
  - rewrite startedNodes_app, stoppedNodes_app, oscillators_app.
    rewrite startedNodes_pulseCalls, stoppedNodes_pulseCalls,
      oscillators_pulseCalls, !elem_of_app, !elem_of_cons, !elem_of_nil.
    specialize (IH (3 + n)%nat). intros H.
    assert (m = n \/ m = S (S n) \/ (3 + n <= m)%nat) as [?|[?|?]]; [|lia..].
    tauto.
Qed.

Lemma filter_ext_elem_of {A} (P Q : A -> Prop)
    `{forall x, Decision (P x)} `{forall x, Decision (Q x)} (l : list A) :
  (forall x, x ∈ l -> P x <-> Q x) -> filter P l = filter Q l.
Proof.
  induction l as [|a l IH]; intros E; [done|].
  rewrite !filter_cons.
  rewrite IH by (intros x Hx; apply E; by right).
  pose proof (E a (list_elem_of_here a l)) as Ea.
  destruct (decide (P a)), (decide (Q a)); tauto.
Qed.

Lemma neverStopped_pulsesCalls st times n :
  length (neverStopped (pulsesCalls st times n)) = length times.
Proof.
  revert n. induction times as [|t times IH]; intros n; [done|].
  cbn [pulsesCalls length]. rewrite <- (IH (3 + n)%nat).
  unfold neverStopped.
  rewrite startedNodes_app, stoppedNodes_app, oscillators_app.
  rewrite startedNodes_pulseCalls, stoppedNodes_pulseCalls, oscillators_pulseCalls.
  cbn [app]. rewrite filter_cons_False; cycle 1.
  { rewrite ?elem_of_app, ?elem_of_cons. tauto. }
  rewrite filter_cons_True; cycle 1.
  { rewrite ?elem_of_app, ?elem_of_cons, ?elem_of_nil. split; [tauto|].
    pose proof (pulsesCalls_ge st times (3 + n) (S (S n))). intuition lia. }
  cbn [length]. f_equal.
  f_equal. apply filter_ext_elem_of. intros m Hm.
  pose proof (pulsesCalls_ge st times (3 + n) m) as Hge.
  rewrite ?elem_of_app, ?elem_of_cons, ?elem_of_nil.
  assert ((3 + n <= m)%nat) by tauto.
  split.
  - intros [[?|[?|?]] Hs]; [lia..|]. split; [done|]. tauto.
  - intros [? Hs]. split; [tauto|]. intros [?|?]; [lia|tauto].
Qed.

(** C4, as the code has it.  A Pulse firing at [t] starts the main tone at
    [t] and stops it at [t + 1].  It also starts the LFO, at once, and
    makes no call that stops it: the LFO is the one oscillator of the
    firing that is never told to stop, and after any number of firings
    there are as many such oscillators as there were firings. *)
Theorem pulse_lfo_never_stopped st t w :
  let osc := nextNode w in
  let lfoOsc := S (S (nextNode w)) in
  let log := callsOf (playPulse st t) w in
  Start osc (Some t) ∈ log
  /\ stopTime osc log = Some (t + 1)%float
  /\ Start lfoOsc None ∈ log
  /\ stopTime lfoOsc log = None
  /\ neverStopped log = [lfoOsc]
  /\ forall times,
       length (neverStopped (callsOf (firePulses st times) w)) = length times.
Proof.
  intros osc lfoOsc log.
  assert (E : log = pulseCalls st t (nextNode w)).
  { apply callsOf_app. by rewrite playPulse_run. }
  rewrite E. repeat split.
  - unfold pulseCalls. rewrite !elem_of_app. right. right. set_solver.
  - rewrite stopTime_pulseCalls. by rewrite Nat.eqb_refl.
  - unfold pulseCalls. rewrite !elem_of_app. right. right. set_solver.
  - rewrite stopTime_pulseCalls.
    replace (Nat.eqb lfoOsc (nextNode w)) with false; [done|].
    symmetry. apply Nat.eqb_neq. unfold lfoOsc. lia.
  - unfold neverStopped.
    rewrite startedNodes_pulseCalls, stoppedNodes_pulseCalls, oscillators_pulseCalls.
    rewrite filter_cons_False by (rewrite !elem_of_cons; tauto).
    rewrite filter_cons_True; [done|].
    rewrite !elem_of_cons, !elem_of_nil. unfold lfoOsc. split; [tauto|lia].
  - intros times.
    rewrite (callsOf_app _ _ (pulsesCalls st times (nextNode w)))
      by (by rewrite firePulses_run).
    apply neverStopped_pulsesCalls.
Qed.

(** ** What a firing reads *)

Lemma uniform_ret {A} (a : A) : uniform (ret a).
Proof. intros w1 w2 H. exists []. by rewrite !app_nil_r. Qed.

Lemma uniform_throw {A} e : uniform (@throw A e).
Proof. intros w1 w2 H. exists []. by rewrite !app_nil_r. Qed.

Lemma uniform_hang {A} : uniform (@hang A).
Proof. intros w1 w2 H. exists []. by rewrite !app_nil_r. Qed.

Lemma uniform_call c : uniform (call c).
Proof. intros w1 w2 (?&?&?&?). exists [c]. by repeat split. Qed.

Lemma uniform_create mk : uniform (create mk).
Proof.
  intros w1 w2 (?&?&?&E). exists [mk (nextNode w1)]. cbn.
  rewrite E. by repeat split.
Qed.

Lemma uniform_getSampleRate : uniform getSampleRate.
Proof.
  intros w1 w2 H. exists []. rewrite !app_nil_r. cbn.
  destruct H as (?&E&?&?). rewrite E. by repeat split.
Qed.

Lemma uniform_getMathRandom : uniform getMathRandom.
Proof.
  intros w1 w2 H. exists []. rewrite !app_nil_r. cbn.
  destruct H as (?&?&E&?). rewrite E. by repeat split.
Qed.

Lemma uniform_bind {A B} (m : Script A) (k : A -> Script B) :
  uniform m -> (forall a, uniform (k a)) -> uniform (bind m k).
Proof.
  intros Hm Hk w1 w2 H.
  destruct (Hm w1 w2 H) as (new & Ec & E1 & E2 & S1 & S2 & H').
  unfold bind.
  destruct (m w1) as [c1 v1], (m w2) as [c2 v2]. cbn in *. subst c2.
  destruct c1 as [a | e |].
  - destruct (Hk a v1 v2 H') as (new' & Ec' & E1' & E2' & S1' & S2' & H'').
    exists (new ++ new'). rewrite E1', E2', E1, E2, !app_assoc.
    split; [done|]. split; [done|]. split; [done|].
    split; [by rewrite S1'|]. split; [by rewrite S2'|]. done.
  - by exists new.
  - by exists new.
Qed.

Lemma uniform_if {A} (b : bool) (m1 m2 : Script A) :
  uniform m1 -> uniform m2 -> uniform (if b then m1 else m2).
Proof. by destruct b. Qed.

Lemma uniform_connectChain source rest : uniform (connectChain source rest).
Proof.
  revert source. induction rest as [|target rest IH]; intros source; cbn.
  - apply uniform_ret.
  - apply uniform_bind; [apply uniform_call | intros _; apply IH].
Qed.

Lemma uniform_createBuffer channels len rate :
  uniform (createBuffer channels len rate).
Proof.
  unfold createBuffer. apply uniform_if; [apply uniform_throw | apply uniform_ret].
Qed.

Create HintDb uniform discriminated.
#[local] Hint Resolve uniform_ret uniform_throw uniform_hang uniform_call
  uniform_create uniform_getSampleRate uniform_getMathRandom
  uniform_connectChain uniform_createBuffer : uniform.

(** Splits a script into its statements and closes each with the hints. *)
Ltac uniform_script :=
  repeat first
    [ apply uniform_bind; [| intros ?]
    | apply uniform_if
    | solve [auto with uniform] ].

Lemma uniform_playSound st track t : uniform (playSound st track t None).
Proof.
  destruct track; cbn [playSound];
    [unfold playSweep | unfold playPulse | unfold playNoise |];
    uniform_script.
Qed.

Lemma uniform_when b m : uniform m -> uniform (when b m).
Proof. intros Hm. unfold when. destruct b; [done | apply uniform_ret]. Qed.

Lemma uniform_fireTracks st next t : uniform (fireTracks st next t).
Proof.
  unfold fireTracks.
  do 3 (apply uniform_bind;
        [apply uniform_when, uniform_playSound | intros _]).
  apply uniform_when, uniform_playSound.
Qed.

(** ** A suspended context *)

Lemma tick_suspended st w :
  isPlaying st = true -> state w = Suspended ->
  tick st w =
  (setCurrentStep (Z.rem (currentStep st + 1) BEATS_PER_BAR) st,
   fireTracks st (Z.rem (currentStep st + 1) BEATS_PER_BAR) (currentTime w)
     (logged [RequestAnimationFrame; Resume]
        (if resumeSucceeds w then Running else Suspended) w)).
Proof.
  intros Hp Hs. unfold tick. rewrite Hp. cbn [negb]. f_equal.
  unfold bind at 1. unfold getState. cbn [fst snd call state]. rewrite Hs.
  unfold bind at 1. unfold resume.
  cbn [fst snd state calls currentTime sampleRate resumeSucceeds mathRandom nextNode].
  unfold bind at 1. unfold getCurrentTime. cbn [fst snd currentTime].
  unfold logged. rewrite <- app_assoc. reflexivity.
Qed.

Lemma tick_not_suspended st w :
  isPlaying st = true -> state w <> Suspended ->
  tick st w =
  (setCurrentStep (Z.rem (currentStep st + 1) BEATS_PER_BAR) st,
   fireTracks st (Z.rem (currentStep st + 1) BEATS_PER_BAR) (currentTime w)
     (logged [RequestAnimationFrame] (state w) w)).
Proof.
  intros Hp Hs. unfold tick. rewrite Hp. cbn [negb]. f_equal.
  unfold bind at 1. unfold getState. cbn [fst snd call state].
  destruct (state w) eqn:E; [done| |];
    unfold bind at 1; unfold ret; unfold bind at 1; unfold getCurrentTime;
    cbn [fst snd currentTime]; unfold logged; rewrite <- ?app_assoc; reflexivity.
Qed.

(** C5, as the code has it.  On a tick while playing and with the context
    suspended, the callback calls [resume()] once, right after it has
    requested the animation frame and before any call of a firing.  It
    does not wait for the outcome: it advances the grid position and makes
    the same firing calls [fired], ending the same way, as the same tick
    does on a running context, whether the resumption succeeds or not. *)
Theorem suspended_tick_resumes_then_fires st w :
  isPlaying st = true -> state w = Suspended ->
  let next := Z.rem (currentStep st + 1) BEATS_PER_BAR in
  exists fired,
    fst (tick st w) = setCurrentStep next st
    /\ calls (snd (snd (tick st w)))
       = calls w ++ RequestAnimationFrame :: Resume :: fired
    /\ fst (tick st (runningAudio w)) = setCurrentStep next st
    /\ calls (snd (snd (tick st (runningAudio w))))
       = calls w ++ RequestAnimationFrame :: fired
    /\ fst (snd (tick st w)) = fst (snd (tick st (runningAudio w)))
    /\ state (snd (snd (tick st w)))
       = if resumeSucceeds w then Running else Suspended.
Proof.
  intros Hp Hs next.
  rewrite (tick_suspended st w Hp Hs).
  rewrite (tick_not_suspended st (runningAudio w) Hp) by done.
  cbn [fst snd currentTime runningAudio state]. fold next.
  destruct (uniform_fireTracks st next (currentTime w)
              (logged [RequestAnimationFrame; Resume]
                 (if resumeSucceeds w then Running else Suspended) w)
              (logged [RequestAnimationFrame] Running (runningAudio w)))
    as (fired & Ec & E1 & E2 & S1 & S2 & _); [by repeat split|].
  exists fired. rewrite E1, E2, S1. cbn [logged calls state runningAudio].
  rewrite <- !app_assoc. by repeat split.
Qed.

Lemma suspended_tick_resumes_then_fires_witness :
  exists fired,
    fst (tick sweepOnOne stuckAudio) = setCurrentStep 1 sweepOnOne
    /\ calls (snd (snd (tick sweepOnOne stuckAudio)))
       = calls stuckAudio ++ RequestAnimationFrame :: Resume :: fired
    /\ fst (tick sweepOnOne (runningAudio stuckAudio)) = setCurrentStep 1 sweepOnOne
    /\ calls (snd (snd (tick sweepOnOne (runningAudio stuckAudio))))
       = calls stuckAudio ++ RequestAnimationFrame :: fired
    /\ fst (snd (tick sweepOnOne stuckAudio))
       = fst (snd (tick sweepOnOne (runningAudio stuckAudio)))
    /\ state (snd (snd (tick sweepOnOne stuckAudio)))
       = if resumeSucceeds stuckAudio then Running else Suspended.
Proof.
  apply (suspended_tick_resumes_then_fires sweepOnOne stuckAudio); reflexivity.
Defined.

(** The claim C5 fails here: the context is suspended and its resumption
    is rejected, so it is still suspended after the tick, and yet the tick
    has fired the Sweep track (its oscillator, node 0, was started) and has
    moved the grid to step 1. *)
Lemma suspended_tick_still_fires :
  state stuckAudio = Suspended
  /\ resumeSucceeds stuckAudio = false
  /\ state (snd (snd (tick sweepOnOne stuckAudio))) = Suspended
  /\ startedNodes (calls (snd (snd (tick sweepOnOne stuckAudio)))) = [0%nat]
  /\ currentStep (fst (tick sweepOnOne stuckAudio)) = 1.
Proof. vm_compute. done. Qed.

(** ** The Sample track without a buffer *)

Lemma tick_sequences st w :
  sweepSequence (fst (tick st w)) = sweepSequence st
  /\ pulseSequence (fst (tick st w)) = pulseSequence st
  /\ noiseSequence (fst (tick st w)) = noiseSequence st
  /\ sampleSequence (fst (tick st w)) = sampleSequence st.
Proof. unfold tick. by destruct (isPlaying st). Qed.

Lemma ticks_sampleSequence env j k st w :
  sampleSequence (fst (ticks env j k st w)) = sampleSequence st.
Proof.
  revert j st w. induction k as [|k IH]; intros j st w; [done|].
  cbn [ticks]. pose proof (tick_sequences st w) as (_&_&_&E).
  destruct (tick st w) as [st' [c w']]. rewrite IH. exact E.
Qed.

Lemma setCurrentStep_twice a b st :
  setCurrentStep a (setCurrentStep b st) = setCurrentStep a st.
Proof. reflexivity. Qed.

Lemma setCurrentStep_same st : setCurrentStep (currentStep st) st = st.
Proof. by destruct st. Qed.

(** While playing, the callback writes nothing but the grid position. *)
Lemma ticks_setCurrentStep env j k st w :
  isPlaying st = true ->
  fst (ticks env j k st w)
  = setCurrentStep (currentStep (fst (ticks env j k st w))) st.
Proof.
  revert j st w. induction k as [|k IH]; intros j st w Hp; cbn [ticks].
  - cbn [fst]. by rewrite setCurrentStep_same.
  - assert (E : fst (tick st w)
                = setCurrentStep (Z.rem (currentStep st + 1) BEATS_PER_BAR) st).
    { unfold tick. by rewrite Hp. }
    destruct (tick st w) as [st' [c w']]. cbn [fst] in E. subst st'.
    rewrite IH at 1 by done. by rewrite setCurrentStep_twice.
Qed.

Lemma tick_playing st w :
  isPlaying st = true ->
  tick st w =
  (setCurrentStep (Z.rem (currentStep st + 1) BEATS_PER_BAR) st,
   fireTracks st (Z.rem (currentStep st + 1) BEATS_PER_BAR) (currentTime w)
     (afterHousekeeping w)).
Proof.
  intros Hp. unfold afterHousekeeping. destruct (state w) eqn:Es.
  - by rewrite (tick_suspended st w Hp Es).
  - rewrite (tick_not_suspended st w Hp) by congruence. by rewrite Es.
  - rewrite (tick_not_suspended st w Hp) by congruence. by rewrite Es.
Qed.

(** A firing that returns at once leaves no trace behind the firings
    before it. *)
Lemma inert_last (a b c s : Script unit) (w : Audio) :
  (forall w', s w' = (Normal tt, w')) ->
  (a ;; b ;; c ;; s) w = (a ;; b ;; c) w.
Proof.
  intros Hs. unfold bind.
  destruct (a w) as [[[]| |] w1]; [|done..].
  destruct (b w1) as [[[]| |] w2]; [|done..].
  destruct (c w2) as [[[]| |] w3]; [apply Hs|done..].
Qed.

(** C6.  With no buffer, firing the Sample track at any time returns
    normally and leaves the audio world as it found it, the log included;
    the firing has no access to the component state.  When the transport
    is playing and the Sample gate of the next step is on, the run of the
    callback advances the grid position and, after the housekeeping calls,
    runs the firings of that step, of which the Sample firing is the last,
    made with the time of the audio clock; what the run leaves in the
    audio world is what the three other tracks left.  The run writes
    nothing but the grid position, so after any number of passes of
    sixteen runs the state is again the one of the first run, the gate
    included: what is said of the first run holds again of the run that
    follows each pass. *)
Theorem sample_without_buffer_is_inert env j (passes : nat) st w :
  isPlaying st = true -> 0 <= currentStep st < 16 ->
  let next := Z.rem (currentStep st + 1) BEATS_PER_BAR in
  gate (steps (sampleSequence st)) next = true ->
  let st' := fst (ticks env j (16 * passes) st w) in
  let sweep (t : number) :=
    when (gate (steps (sweepSequence st')) next) (playSound st' SWEEP t None) in
  let pulse (t : number) :=
    when (gate (steps (pulseSequence st')) next) (playSound st' PULSE t None) in
  let noise (t : number) :=
    when (gate (steps (noiseSequence st')) next) (playSound st' NOISE t None) in
  (forall t w', playSound st' SAMPLE t None w' = (Normal tt, w'))
  /\ st' = st
  /\ gate (steps (sampleSequence st'))
          (Z.rem (currentStep st' + 1) BEATS_PER_BAR) = true
  /\ (forall w0,
        tick st' w0 =
        (setCurrentStep next st',
         fireTracks st' next (currentTime w0) (afterHousekeeping w0)))
  /\ (forall t,
        fireTracks st' next t =
        (sweep t ;; pulse t ;; noise t ;; playSound st' SAMPLE t None))
  /\ (forall w0,
        let t := currentTime w0 in
        snd (tick st' w0) = (sweep t ;; pulse t ;; noise t) (afterHousekeeping w0)).
Proof.
  intros Hp Hr next Hg st' sweep pulse noise.
  assert (E : st' = st).
  { unfold st'. rewrite ticks_setCurrentStep by done.
    rewrite (ticks_currentStep env j (16 * passes) st w Hp Hr).
    rewrite Nat2Z.inj_mul, Z.mul_comm.
    change (Z.of_nat 16) with 16. rewrite Z.mod_add by lia.
    rewrite Z.mod_small by lia. apply setCurrentStep_same. }
  assert (F : forall t,
             fireTracks st' next t =
             (sweep t ;; pulse t ;; noise t ;; playSound st' SAMPLE t None)).
  { intros t. unfold sweep, pulse, noise. clearbody st'. subst st'.
    unfold fireTracks. by rewrite Hg. }
  assert (T : forall w0,
             tick st' w0 =
             (setCurrentStep next st',
              fireTracks st' next (currentTime w0) (afterHousekeeping w0))).
  { intros w0. clearbody st'. subst st'. apply (tick_playing st w0 Hp). }
  split; [done|]. split; [done|]. split; [by rewrite E|]. split; [exact T|].
  split; [exact F|].
  intros w0 t. rewrite T, F. cbn [snd]. by apply inert_last.
Qed.

Lemma sample_without_buffer_is_inert_witness :
  let st' := fst (ticks (fun _ w => w) 0 (16 * 2) sampleOnOne anAudio) in
  let sweep (t : number) :=
    when (gate (steps (sweepSequence st')) 1) (playSound st' SWEEP t None) in
  let pulse (t : number) :=
    when (gate (steps (pulseSequence st')) 1) (playSound st' PULSE t None) in
  let noise (t : number) :=
    when (gate (steps (noiseSequence st')) 1) (playSound st' NOISE t None) in
  (forall t w', playSound st' SAMPLE t None w' = (Normal tt, w'))
  /\ st' = sampleOnOne
  /\ gate (steps (sampleSequence st'))
          (Z.rem (currentStep st' + 1) BEATS_PER_BAR) = true
  /\ (forall w0,
        tick st' w0 =
        (setCurrentStep 1 st',
         fireTracks st' 1 (currentTime w0) (afterHousekeeping w0)))
  /\ (forall t,
        fireTracks st' 1 t =
        (sweep t ;; pulse t ;; noise t ;; playSound st' SAMPLE t None))
  /\ (forall w0,
        let t := currentTime w0 in
        snd (tick st' w0) = (sweep t ;; pulse t ;; noise t) (afterHousekeeping w0)).
Proof.
  apply (sample_without_buffer_is_inert (fun _ w => w) 0 2 sampleOnOne anAudio).
  - reflexivity.
  - cbn. lia.
  - reflexivity.
Defined.

(** ** A noise burst of no length *)

Lemma toUnsignedLong_mul_zero (x : number) : toUnsignedLong (x * 0)%float = 0.
Proof.
  unfold toUnsignedLong, integerPart. rewrite mul_spec.
  change (Prim2SF 0) with (S754_zero false).
  by destruct (Prim2SF x) as [s | s | | s m e].
Qed.

(** C8 fails at the lower end of the Duration slider.  Zero is in the
    declared range of the duration (and the band of the example, 1000, in
    its own).  With a duration of zero the buffer size is zero,
    [createBuffer] throws, and [playNoise] ends by that exception before it
    has made any call: nothing catches it.  In a tick whose Noise and
    Sample gates are on, the callback ends by the exception after the
    Noise firing and the Sample firing is never reached. *)
Theorem noise_zero_duration_throws st t w :
  between (minOf duration_control) (maxOf duration_control) 0 = true
  /\ between (minOf band_control) (maxOf band_control)
       (band (noiseSequence silentNoise)) = true
  /\ duration (noiseSequence (onChange duration_control 0 st)) = 0%float
  /\ playNoise (onChange duration_control 0 st) t w = (Throw NotSupportedError, w)
  /\ tick silentNoise anAudio =
     (setCurrentStep 1 silentNoise,
      (Throw NotSupportedError, logged [RequestAnimationFrame] Running anAudio)).
Proof.
  split; [done|]. split; [done|]. split; [done|]. split.
  - unfold playNoise, bind, getSampleRate.
    cbn [onChange setNoiseSequence noiseSequence duration].
    unfold createBuffer. rewrite toUnsignedLong_mul_zero. reflexivity.
  - vm_compute. reflexivity.
Qed.

(** ** Parameter writes *)

(** A change handler stores the number of the event as it is: it neither
    clamps nor refuses it.  The Playback Rate control has no handler and
    its value never changes. *)
Lemma handler_stores_the_value (c : Control) (v : number) (st : AppState) :
  valueOf c (onChange c v st)
  = match c with rate_control => valueOf c st | _ => v end.
Proof. by destruct c. Qed.

Lemma onChange_keeps_the_ranges (c : Control) (v : number) (st : AppState) :
  between (minOf c) (maxOf c) v = true ->
  (forall c', between (minOf c') (maxOf c') (valueOf c' st) = true) ->
  forall c', between (minOf c') (maxOf c') (valueOf c' (onChange c v st)) = true.
Proof.
  intros Hv H c'. pose proof (H c') as Hc'.
  destruct c, c'; first [exact Hv | exact Hc'].
Qed.

(** Every stop of a range input lies between its [min] and its [max]. *)
Lemma stops_in_range (c : Control) (n : nat) :
  (n <= Z.to_nat (stepsOf c))%nat ->
  between (minOf c) (maxOf c) (stopAt c n) = true.
Proof.
  intros Hn.
  assert (H : forallb (fun c =>
                forallb (fun n => between (minOf c) (maxOf c) (stopAt c n))
                  (seq 0 (S (Z.to_nat (stepsOf c)))))
                [bpm_control; attack_control; release_control; hz_control;
                 lfo_control; duration_control; band_control; rate_control]
              = true) by (vm_compute; reflexivity).
  rewrite forallb_forall in H.
  specialize (H c ltac:(destruct c; cbn; tauto)).
  rewrite forallb_forall in H. apply H, in_seq. lia.
Qed.

Lemma stopValue_in_range (c : Control) (k : Z) :
  between (minOf c) (maxOf c) (stopValue c k) = true.
Proof.
  apply stops_in_range.
  assert (0 <= stepsOf c) by (by destruct c). lia.
Qed.

(** C9.  The mutation surface of a parameter is its range input and the
    change handler behind it.  Whatever stop the user asks for, the
    element delivers a value between [min] and [max]: a request before the
    first stop is clamped to [min] and one past the last to [max].  The
    handler stores that value as it is, and the Playback Rate input, which
    has no handler, refuses every write.  So after any sequence of writes
    from start-up every parameter is inside its range; the tempo is a whole
    number of BPM from 60 to 240. *)
Theorem range_inputs_keep_values_in_range
    (writes : list (Control * Z)) (c : Control) (k : Z) :
  let write st (request : Control * Z) :=
    onChange request.1 (stopValue request.1 request.2) st in
  let st := foldl write initialState writes in
  between (minOf c) (maxOf c) (stopValue c k) = true
  /\ (k <= 0 -> stopValue c k = minOf c)
  /\ (stepsOf c <= k -> stopValue c k = maxOf c)
  /\ valueOf c (write st (c, k))
     = match c with rate_control => valueOf c st | _ => stopValue c k end
  /\ (forall c', between (minOf c') (maxOf c') (valueOf c' st) = true)
  /\ (forall c',
        between (minOf c') (maxOf c') (valueOf c' (write st (c, k))) = true)
  /\ tempo (write st (bpm_control, k))
     = numberOfNat (60 + Z.to_nat (Z.max 0 (Z.min k 180))).
Proof.
  intros write st.
  assert (Hst : forall c', between (minOf c') (maxOf c') (valueOf c' st) = true).
  { unfold st. induction writes as [|[c0 k0] writes IH] using rev_ind.
    - intros c'. by destruct c'.
    - rewrite foldl_snoc. unfold write at 1. cbn [fst snd].
      apply onChange_keeps_the_ranges; [apply stopValue_in_range | exact IH]. }
  split; [apply stopValue_in_range|].
  split.
  { intros Hk. unfold stopValue.
    replace (Z.max 0 (Z.min k (stepsOf c))) with 0
      by (assert (0 <= stepsOf c) by (by destruct c); lia).
    by destruct c; vm_compute. }
  split.
  { intros Hk. unfold stopValue.
    replace (Z.max 0 (Z.min k (stepsOf c))) with (stepsOf c)
      by (assert (0 <= stepsOf c) by (by destruct c); lia).
    by destruct c; vm_compute. }
  split; [apply handler_stores_the_value|].
  split; [exact Hst|].
  split.
  { unfold write. cbn [fst snd].
    apply onChange_keeps_the_ranges; [apply stopValue_in_range | exact Hst]. }
  reflexivity.
Qed.

(** ** Rounding in binary64

    The primitive operations on [float] are specified by [SpecFloat]'s
    functions on sign, mantissa and exponent.  What follows bounds the
    result of a rounding by a power of two, which is enough to keep a noise
    sample between -1 and 1. *)

Lemma digits2_pos_upper (p : positive) : Z.pos p < 2 ^ Z.pos (digits2_pos p).
Proof.
  induction p as [p IH | p IH |]; cbn [digits2_pos]; [| |done];
    rewrite Pos2Z.inj_succ, Z.pow_succ_r by lia; lia.
Qed.

Lemma pow2_pos_exponent (x j : Z) : 1 <= x -> x < 2 ^ j -> 0 < j.
Proof.
  intros Hx Hj. destruct (Z.le_gt_cases j 0) as [H|H]; [|done].
  pose proof (Z.pow_le_mono_r 2 j 0 ltac:(lia) H) as H'.
  change (2 ^ 0) with 1 in H'. lia.
Qed.

Lemma digits2_pos_le (p : positive) (j : Z) :
  Z.pos p < 2 ^ j -> Z.pos (digits2_pos p) <= j.
Proof.
  revert j. induction p as [p IH | p IH |]; intros j Hj; cbn [digits2_pos];
    (assert (H0 : 0 < j) by (eapply pow2_pos_exponent; [|exact Hj]; lia));
    [| |lia];
    replace j with (Z.succ (j - 1)) in Hj by lia;
    rewrite Z.pow_succ_r in Hj by lia;
    rewrite Pos2Z.inj_succ; specialize (IH (j - 1)); lia.
Qed.

Lemma iter_pos_nat {A} (f : A -> A) (n : positive) (x : A) :
  SpecFloat.iter_pos f n x = Nat.iter (Pos.to_nat n) f x.
Proof.
  revert x. induction n as [n IH | n IH |]; intros x; cbn [SpecFloat.iter_pos].
  - rewrite !IH, Pos2Nat.inj_xI. 
    replace (S (2 * Pos.to_nat n)) with (Pos.to_nat n + (Pos.to_nat n + 1))%nat by lia.
    rewrite !Nat.iter_add. reflexivity.
  - rewrite !IH, Pos2Nat.inj_xO.
    replace (2 * Pos.to_nat n)%nat with (Pos.to_nat n + Pos.to_nat n)%nat by lia.
    rewrite Nat.iter_add. reflexivity.
  - reflexivity.
Qed.

Lemma shr_1_spec (r : shr_record) :
  0 <= shr_m r ->
  shr_m (shr_1 r) = shr_m r / 2
  /\ (shr_r r = false -> shr_s r = false -> shr_m r mod 2 = 0 ->
      shr_r (shr_1 r) = false /\ shr_s (shr_1 r) = false).
Proof.
  destruct r as [m r s]. cbn [shr_m shr_r shr_s]. intros Hm.
  destruct m as [|[p|p|]|p]; cbn [shr_1 shr_m shr_r shr_s orb]; try lia.
  - split; [reflexivity | intros -> ->; done].
  - split; [rewrite Pos2Z.inj_xI; apply Z.div_unique with 1; lia|].
    intros _ _ H. rewrite Pos2Z.inj_xI in H.
    rewrite Z.add_comm, Z.mul_comm, Z.mod_add in H by lia. done.
  - split; [rewrite Pos2Z.inj_xO; apply Z.div_unique with 0; lia|].
    intros -> ->; done.
  - split; [reflexivity|]. intros _ _ H. done.
Qed.

Lemma iter_shr_1_spec (k : nat) (r : shr_record) :
  0 <= shr_m r ->
  shr_m (Nat.iter k shr_1 r) = shr_m r / 2 ^ Z.of_nat k
  /\ (shr_r r = false -> shr_s r = false -> shr_m r mod 2 ^ Z.of_nat k = 0 ->
      shr_r (Nat.iter k shr_1 r) = false /\ shr_s (Nat.iter k shr_1 r) = false).
Proof.
  intros Hm. induction k as [|k [IH1 IH2]].
  - cbn. rewrite Z.div_1_r. auto.
  - rewrite !Nat.iter_succ.
    assert (H0 : 0 <= shr_m (Nat.iter k shr_1 r)).
    { rewrite IH1. apply Z.div_pos; lia. }
    destruct (shr_1_spec _ H0) as [E1 E2].
    rewrite Nat2Z.inj_succ, Z.pow_succ_r by lia.
    split.
    + rewrite E1, IH1, Z.div_div by lia. f_equal. lia.
    + intros Hr Hs Hmod.
      assert (Hk : shr_m r mod 2 ^ Z.of_nat k = 0).
      { apply Z.mod_divide in Hmod; [|lia]. apply Z.mod_divide; [lia|].
        destruct Hmod as [q Hq]. exists (q * 2). lia. }
      destruct (IH2 Hr Hs Hk) as [R S]. apply E2; [done..|].
      rewrite IH1. apply Z.mod_divide in Hmod; [|lia].
      destruct Hmod as [q Hq]. rewrite Hq.
      replace (q * (2 * 2 ^ Z.of_nat k)) with (q * 2 * 2 ^ Z.of_nat k) by lia.
      rewrite Z.div_mul by lia. rewrite Z.mul_comm, Z.mul_comm, Z.mod_mul; lia.
Qed.

Lemma fexp_binary64 (z : Z) : fexp prec emax z = Z.max (z - 53) (-1074).
Proof. reflexivity. Qed.

Lemma shr_spec (m e n : Z) :
  0 <= m ->
  shr_m (fst (shr (Build_shr_record m false false) e n)) = m / 2 ^ Z.max 0 n
  /\ snd (shr (Build_shr_record m false false) e n) = e + Z.max 0 n
  /\ (m mod 2 ^ Z.max 0 n = 0 ->
      loc_of_shr_record (fst (shr (Build_shr_record m false false) e n))
      = loc_Exact).
Proof.
  intros Hm. destruct n as [|p|p]; cbn [shr fst snd shr_m].
  - rewrite Z.max_l, Z.div_1_r by lia. repeat split; lia.
  - rewrite Z.max_r by lia. rewrite iter_pos_nat.
    destruct (iter_shr_1_spec (Pos.to_nat p) (Build_shr_record m false false) Hm)
      as [E1 E2].
    rewrite positive_nat_Z in E1, E2. cbn [shr_m shr_r shr_s] in E1, E2.
    repeat split; [done|]. intros H. destruct (E2 eq_refl eq_refl H) as [R S].
    destruct (Nat.iter _ _ _) as [m' r' s']. cbn in R, S. by subst.
  - rewrite Z.max_l, Z.div_1_r by lia. repeat split; lia.
Qed.

Lemma zdigits2_le (m j : Z) : 0 <= m -> 0 <= j -> m < 2 ^ j -> Zdigits2 m <= j.
Proof.
  intros Hm Hj H. destruct m as [|p|p]; cbn [Zdigits2]; [done| |lia].
  by apply digits2_pos_le.
Qed.

Lemma round_nearest_even_bound (m : Z) (l : location) :
  (l = loc_Exact -> round_nearest_even m l = m)
  /\ m <= round_nearest_even m l <= m + 1.
Proof.
  split; [by intros ->|].
  destruct l as [|[]]; cbn [round_nearest_even]; try lia.
  destruct (Z.even m); lia.
Qed.

(** One shift step of the rounding: the mantissa stays below the bound
    [2 ^ (k - e)] when the exponent moves from [e] to [e']. *)
Lemma shifted_bound (m e e' k : Z) :
  0 <= m -> e <= e' <= k -> m <= 2 ^ (k - e) ->
  0 <= m / 2 ^ (e' - e) <= 2 ^ (k - e')
  /\ (m mod 2 ^ (e' - e) <> 0 -> m / 2 ^ (e' - e) + 1 <= 2 ^ (k - e')).
Proof.
  intros Hm He Hb.
  assert (Hp : 0 < 2 ^ (e' - e)) by (apply Z.pow_pos_nonneg; lia).
  assert (E : 2 ^ (k - e) = 2 ^ (k - e') * 2 ^ (e' - e)).
  { rewrite <- Z.pow_add_r by lia. f_equal. lia. }
  pose proof (Z.div_mod m (2 ^ (e' - e)) ltac:(lia)) as Hdm.
  pose proof (Z.mod_pos_bound m (2 ^ (e' - e)) Hp) as Hmod.
  assert (Hq : 0 <= m / 2 ^ (e' - e)) by (apply Z.div_pos; lia).
  split; [split; [done|] |]; nia.
Qed.

Lemma binary_round_aux_bound (s : bool) (mx ex k : Z) :
  0 < mx -> ex <= k -> mx <= 2 ^ (k - ex) -> -1022 <= k <= 1023 -> ex <= 971 ->
  binary_round_aux prec emax s mx ex loc_Exact = S754_zero s
  \/ exists m e,
       binary_round_aux prec emax s mx ex loc_Exact = S754_finite s m e
       /\ e <= Z.max ex (k - 52) /\ Z.pos m <= 2 ^ (k - e).
Proof.
  intros Hmx Hex Hb Hk Hex'.
  unfold binary_round_aux, shr_fexp. cbn [shr_record_of_loc].
  rewrite !fexp_binary64.
  set (n1 := Z.max (Zdigits2 mx + ex - 53) (-1074) - ex).
  destruct (shr_spec mx ex n1) as (M1 & E1 & L1); [lia|].
  destruct (shr (Build_shr_record mx false false) ex n1) as [mrs' e'].
  cbn [fst snd] in M1, E1, L1. cbv beta iota. rewrite fexp_binary64.
  assert (Hd : Zdigits2 mx <= k - ex + 1).
  { apply zdigits2_le; [lia..|]. rewrite Z.pow_add_r, Z.pow_1_r by lia. lia. }
  assert (He' : ex <= e' <= Z.max ex (k - 52)) by lia.
  assert (En1 : Z.max 0 n1 = e' - ex) by lia.
  rewrite En1 in M1, L1.
  destruct (shifted_bound mx ex e' k) as [B1 B1']; [lia..|].
  rewrite <- M1 in B1, B1'.
  set (m1 := round_nearest_even (shr_m mrs') (loc_of_shr_record mrs')).
  assert (Hm1 : 0 <= m1 <= 2 ^ (k - e')).
  { destruct (round_nearest_even_bound (shr_m mrs') (loc_of_shr_record mrs'))
      as [R1 R2]. fold m1 in R1, R2.
    destruct (Z.eq_dec (mx mod 2 ^ (e' - ex)) 0) as [Hz|Hz].
    - rewrite (R1 (L1 Hz)). lia.
    - specialize (B1' Hz). lia. }
  set (n2 := Z.max (Zdigits2 m1 + e' - 53) (-1074) - e').
  destruct (shr_spec m1 e' n2) as (M2 & E2 & _); [lia|].
  destruct (shr (Build_shr_record m1 false false) e' n2) as [mrs'' e''].
  cbn [fst snd] in M2, E2.
  assert (Hd1 : Zdigits2 m1 <= k - e' + 1).
  { apply zdigits2_le; [lia..|]. rewrite Z.pow_add_r, Z.pow_1_r by lia. lia. }
  assert (He'' : e' <= e'' <= Z.max ex (k - 52)) by lia.
  assert (En2 : Z.max 0 n2 = e'' - e') by lia.
  rewrite En2 in M2.
  destruct (shifted_bound m1 e' e'' k) as [B2 _]; [lia..|].
  rewrite <- M2 in B2.
  cbv beta iota.
  destruct (shr_m mrs'') as [|m|m]; [by left| |lia].
  right. exists m, e''. change (emax - prec) with 971.
  replace (e'' <=? 971) with true by (symmetry; apply Z.leb_le; lia).
  split; [done|]. split; lia.
Qed.

Lemma iter_xO_pow2 (m d : positive) :
  Z.pos (Pos.iter xO m d) = Z.pos m * 2 ^ Z.pos d.
Proof.
  induction d as [|d IH] using Pos.peano_ind.
  - cbn [Pos.iter]. lia.
  - rewrite Pos.iter_succ, Pos2Z.inj_xO, IH, Pos2Z.inj_succ, Z.pow_succ_r; lia.
Qed.

Lemma shl_align_spec (mx : positive) (ex e' : Z) :
  snd (shl_align mx ex e') = Z.min ex e'
  /\ Z.pos (fst (shl_align mx ex e')) = Z.pos mx * 2 ^ (ex - Z.min ex e').
Proof.
  unfold shl_align. destruct (e' - ex) as [|d|d] eqn:E; cbn [fst snd].
  - rewrite Z.min_l, Z.sub_diag by lia. lia.
  - rewrite Z.min_l, Z.sub_diag by lia. lia.
  - rewrite Z.min_r by lia. split; [done|].
    rewrite iter_xO_pow2. do 2 f_equal. lia.
Qed.

Lemma binary_round_bound (s : bool) (mx : positive) (ex : Z) :
  ex <= -52 -> Z.pos mx <= 2 ^ (- ex) ->
  binary_round prec emax s mx ex = S754_zero s
  \/ exists m e,
       binary_round prec emax s mx ex = S754_finite s m e
       /\ e <= -52 /\ Z.pos m <= 2 ^ (- e).
Proof.
  intros Hex Hb. unfold binary_round.
  destruct (shl_align_spec mx ex (fexp prec emax (Z.pos (digits2_pos mx) + ex)))
    as [E1 E2].
  destruct (shl_align _ _ _) as [mz ez]. cbn [fst snd] in E1, E2.
  rewrite <- E1 in E2.
  destruct (binary_round_aux_bound s (Z.pos mz) ez 0) as [H|(m & e & H & He & Hm)];
    [lia | lia | | lia | lia | by left |].
  - rewrite E2. replace (0 - ez) with (- ex + (ex - ez)) by lia.
    rewrite Z.pow_add_r by lia. apply Z.mul_le_mono_nonneg_r; [|done].
    apply Z.pow_nonneg. lia.
  - right. exists m, e. split; [done|]. split; [lia|].
    by replace (- e) with (0 - e) by lia.
Qed.

(** The binary64 values of 1, 2 and -1. *)
Lemma Prim2SF_one : Prim2SF 1 = S754_finite false 4503599627370496 (-52).
Proof. reflexivity. Qed.
Lemma Prim2SF_two : Prim2SF 2 = S754_finite false 4503599627370496 (-51).
Proof. reflexivity. Qed.
Lemma Prim2SF_minus_one : Prim2SF (-1) = S754_finite true 4503599627370496 (-52).
Proof. reflexivity. Qed.

Lemma compare_cont_Z (p q : positive) :
  Pos.compare_cont Eq p q = (Z.pos p ?= Z.pos q).
Proof. reflexivity. Qed.

Lemma compare_with_one (s : bool) (m : positive) (e : Z) :
  e <= -52 -> Z.pos m <= 2 ^ (- e) ->
  SFleb (S754_finite true 4503599627370496 (-52)) (S754_finite s m e) = true
  /\ SFleb (S754_finite s m e) (S754_finite false 4503599627370496 (-52)) = true.
Proof.
  intros He Hm. unfold SFleb, SFcompare. rewrite !compare_cont_Z.
  destruct s.
  - split; [|done]. destruct (Z.compare_spec (-52) e) as [E|E|E]; [|lia|done].
    subst e. change (2 ^ (- -52)) with (Z.pos 4503599627370496) in Hm.
    destruct (Z.compare_spec (Z.pos 4503599627370496) (Z.pos m)); [done|lia|done].
  - split; [done|]. destruct (Z.compare_spec e (-52)) as [E|E|E]; [|done|lia].
    subst e. change (2 ^ (- -52)) with (Z.pos 4503599627370496) in Hm.
    destruct (Z.compare_spec (Z.pos m) (Z.pos 4503599627370496)); [done|done|lia].
Qed.

(** A canonical binary64 value in [0,1) has a mantissa below 2^53 and an
    exponent of at most -53. *)
Lemma below_one_canonical (m : positive) (e : Z) :
  valid_binary (S754_finite false m e) = true ->
  SFltb (S754_finite false m e) (S754_finite false 4503599627370496 (-52)) = true ->
  e <= -53 /\ Z.pos m < 2 ^ 53.
Proof.
  unfold Floats.SpecFloat.valid_binary, bounded, canonical_mantissa.
  rewrite fexp_binary64. intros Hv Hlt.
  apply andb_prop in Hv as [Hc _]. apply Z.eqb_eq in Hc.
  pose proof (digits2_pos_upper m) as Hd.
  assert (Hd53 : Z.pos (digits2_pos m) <= 53) by lia.
  assert (Hm : Z.pos m < 2 ^ 53).
  { eapply Z.lt_le_trans; [exact Hd|]. apply Z.pow_le_mono_r; lia. }
  split; [|done].
  unfold SFltb, SFcompare in Hlt.
  destruct (Z.compare_spec e (-52)) as [E|E|E]; [|lia|done].
  subst e. rewrite compare_cont_Z in Hlt.
  destruct (Z.compare_spec (Z.pos m) (Z.pos 4503599627370496)) as [H|H|H];
    [done| |done].
  change (Z.pos 4503599627370496) with (2 ^ 52) in H.
  pose proof (digits2_pos_le m 52 H). lia.
Qed.

Lemma SF64_sample_range (x : spec_float) :
  valid_binary x = true ->
  SFleb (S754_zero false) x = true ->
  SFltb x (S754_finite false 4503599627370496 (-52)) = true ->
  let y :=
    SF64sub (SF64mul x (S754_finite false 4503599627370496 (-51)))
            (S754_finite false 4503599627370496 (-52)) in
  SFleb (S754_finite true 4503599627370496 (-52)) y = true
  /\ SFleb y (S754_finite false 4503599627370496 (-52)) = true.
Proof.
  intros Hv H0 H1 y. subst y.
  destruct x as [s | s | | s m e]; [by destruct s | by destruct s | done |].
  destruct s; [done|].
  destruct (below_one_canonical m e Hv H1) as [He Hm].
  unfold SF64mul, SFmul. cbn [xorb].
  destruct (binary_round_aux_bound false (Z.pos (m * 4503599627370496)) (e + -51) 1)
    as [E|(m2 & e2 & E & He2 & Hm2)]; [lia | lia | | lia | lia | |].
  - rewrite Pos2Z.inj_mul. replace (1 - (e + -51)) with (- e - 1 + 53) by lia.
    rewrite Z.pow_add_r by lia.
    change (Z.pos 4503599627370496) with (2 ^ 52).
    assert (2 ^ 53 <= 2 ^ (- e)) by (apply Z.pow_le_mono_r; lia).
    replace (- e) with (- e - 1 + 1) in H by lia.
    rewrite Z.pow_add_r, Z.pow_1_r in H by lia.
    change (2 ^ 53) with (2 * 2 ^ 52) in *. nia.
  - rewrite E. done.
  - rewrite E. unfold SF64sub, SFsub.
    set (ez := Z.min e2 (-52)).
    destruct (shl_align_spec m2 e2 ez) as [_ A].
    destruct (shl_align_spec 4503599627370496 (-52) ez) as [_ B].
    cbn [cond_Zopp]. 
    replace (Z.min e2 ez) with ez in A by lia.
    replace (Z.min (-52) ez) with ez in B by lia.
    set (a := Z.pos (fst (shl_align m2 e2 ez))) in *.
    set (b := Z.pos (fst (shl_align 4503599627370496 (-52) ez))) in *.
    assert (Hb : b = 2 ^ (- ez)).
    { rewrite B. change (Z.pos 4503599627370496) with (2 ^ 52).
      rewrite <- Z.pow_add_r by lia. f_equal. lia. }
    assert (Ha : 0 < a <= 2 * 2 ^ (- ez)).
    { split; [unfold a; lia|]. rewrite A.
      replace (2 * 2 ^ (- ez)) with (2 ^ (1 - e2) * 2 ^ (e2 - ez)).
      - apply Z.mul_le_mono_nonneg_r; [apply Z.pow_nonneg; lia | done].
      - rewrite <- Z.pow_add_r by lia. replace (1 - e2 + (e2 - ez)) with (Z.succ (- ez)) by lia.
        rewrite Z.pow_succ_r by lia. done. }
    assert (Hp : 0 < 2 ^ (- ez)) by (apply Z.pow_pos_nonneg; lia).
    unfold binary_normalize.
    destruct (a - b) as [|p|p] eqn:Ed.
    + done.
    + destruct (binary_round_bound false p ez) as [R|(m3 & e3 & R & He3 & Hm3)];
        [lia | lia | rewrite R; done |].
      rewrite R. by apply compare_with_one.
    + destruct (binary_round_bound true p ez) as [R|(m3 & e3 & R & He3 & Hm3)];
        [lia | lia | rewrite R; done |].
      rewrite R. by apply compare_with_one.
Qed.

Lemma sample_in_range (u : float) :
  (0 <=? u)%float = true -> (u <? 1)%float = true ->
  (-1 <=? u * 2 - 1)%float && (u * 2 - 1 <=? 1)%float = true.
Proof.
  rewrite !leb_spec, ltb_spec, sub_spec, mul_spec.
  rewrite Prim2SF_one, Prim2SF_two, Prim2SF_minus_one.
  change (Prim2SF 0) with (S754_zero false).
  intros H0 H1.
  destruct (SF64_sample_range (Prim2SF u) (Prim2SF_valid u) H0 H1) as [L U].
  by rewrite L, U.
Qed.

(** *** The integer part of a buffer size *)

Lemma digits2_pos_lower (p : positive) : 2 ^ (Z.pos (digits2_pos p) - 1) <= Z.pos p.
Proof.
  induction p as [p IH | p IH |]; cbn [digits2_pos]; [| |done];
    rewrite Pos2Z.inj_succ;
    replace (Z.succ (Z.pos (digits2_pos p)) - 1)
      with (Z.succ (Z.pos (digits2_pos p) - 1)) by lia;
    rewrite Z.pow_succ_r by lia; lia.
Qed.

Lemma Prim2SF_two32 :
  Prim2SF 4294967296 = S754_finite false 4503599627370496 (-20).
Proof. reflexivity. Qed.

Lemma Prim2SF_counterLimit :
  Prim2SF counterLimit = S754_finite false 4503599627370496 1.
Proof. reflexivity. Qed.

(** A canonical binary64 value in [1, 2^32): sign, mantissa and exponent. *)
Lemma one_to_two32_canonical (x : spec_float) :
  valid_binary x = true ->
  SFleb (S754_finite false 4503599627370496 (-52)) x = true ->
  SFltb x (S754_finite false 4503599627370496 (-20)) = true ->
  exists m e, x = S754_finite false m e
              /\ -52 <= e <= -21 /\ 2 ^ 52 <= Z.pos m < 2 ^ 53.
Proof.
  intros Hv H1 H2.
  destruct x as [s | s | | s m e]; [by destruct s | by destruct s | done |].
  destruct s; [done|]. exists m, e. split; [done|].
  unfold Floats.SpecFloat.valid_binary, bounded, canonical_mantissa in Hv.
  rewrite fexp_binary64 in Hv.
  apply andb_prop in Hv as [Hc _]. apply Z.eqb_eq in Hc.
  unfold SFleb, SFcompare in H1. unfold SFltb, SFcompare in H2.
  rewrite compare_cont_Z in H1, H2.
  pose proof (digits2_pos_upper m) as Hu.
  pose proof (digits2_pos_lower m) as Hl.
  assert (He : -52 <= e <= -20).
  { destruct (Z.compare_spec (-52) e), (Z.compare_spec e (-20)); try done; lia. }
  assert (Hd : Z.pos (digits2_pos m) = 53) by lia.
  rewrite Hd in Hu, Hl. change (53 - 1) with 52 in Hl.
  split; [|lia].
  destruct (Z.compare_spec e (-20)) as [E|E|E]; [|lia|done].
  destruct (Z.compare_spec (Z.pos m) (Z.pos 4503599627370496)) as [E'|E'|E'];
    try done.
  change (Z.pos 4503599627370496) with (2 ^ 52) in E'. lia.
Qed.

Lemma integerPart_range (b : float) :
  (1 <=? b)%float = true -> (b <? 4294967296)%float = true ->
  1 <= integerPart b < 2 ^ 32.
Proof.
  rewrite leb_spec, ltb_spec, Prim2SF_one, Prim2SF_two32. intros H1 H2.
  destruct (one_to_two32_canonical _ (Prim2SF_valid b) H1 H2)
    as (m & e & E & He & Hm).
  unfold integerPart. rewrite E.
  rewrite Z.shiftl_div_pow2 by lia.
  assert (Hp : 0 < 2 ^ (- e)) by (apply Z.pow_pos_nonneg; lia).
  split.
  - apply Z.div_le_lower_bound; [done|].
    assert (2 ^ (- e) <= 2 ^ 52) by (apply Z.pow_le_mono_r; lia). lia.
  - apply Z.div_lt_upper_bound; [done|].
    assert (2 ^ 21 <= 2 ^ (- e)) by (apply Z.pow_le_mono_r; lia).
    change (2 ^ 53) with (2 ^ 21 * 2 ^ 32) in Hm. nia.
Qed.

Lemma toUnsignedLong_integerPart (b : float) :
  (1 <=? b)%float = true -> (b <? 4294967296)%float = true ->
  toUnsignedLong b = integerPart b.
Proof.
  intros H1 H2. unfold toUnsignedLong.
  apply Z.mod_small. pose proof (integerPart_range b H1 H2). lia.
Qed.

Lemma below_two32_counter (b : float) :
  (b <? 4294967296)%float = true -> (counterLimit <? b)%float = false.
Proof.
  rewrite !ltb_spec, Prim2SF_two32, Prim2SF_counterLimit.
  unfold SFltb, SFcompare.
  destruct (Prim2SF b) as [s | s | | s m e];
    [by destruct s | by destruct s | done |].
  destruct s; [done|].
  destruct (Z.compare_spec e (-20)), (Z.compare_spec 1 e); try done; lia.
Qed.

Lemma digits2_pos_eq (p : positive) (d : Z) :
  2 ^ (d - 1) <= Z.pos p < 2 ^ d -> Z.pos (digits2_pos p) = d.
Proof.
  intros [Hl Hu].
  pose proof (digits2_pos_le p d Hu).
  pose proof (digits2_pos_upper p) as Hu'.
  destruct (Z.le_gt_cases d (Z.pos (digits2_pos p))) as [?|Hlt]; [lia|].
  assert (2 ^ Z.pos (digits2_pos p) <= 2 ^ (d - 1)) by (apply Z.pow_le_mono_r; lia).
  lia.
Qed.

(** An integer below 2^53 is a binary64 value: rounding leaves it as it is. *)
Lemma binary_normalize_integer (p : positive) :
  Z.pos p < 2 ^ 53 ->
  exists m e,
    binary_normalize prec emax (Z.pos p) 0 false = S754_finite false m e
    /\ e <= 0 /\ Z.pos m = Z.pos p * 2 ^ (- e).
Proof.
  intros Hp. cbn [binary_normalize]. unfold binary_round.
  rewrite fexp_binary64.
  pose proof (digits2_pos_upper p) as Hu.
  pose proof (digits2_pos_lower p) as Hl.
  pose proof (digits2_pos_le p 53 Hp) as Hd.
  set (d := Z.pos (digits2_pos p)) in *.
  assert (Hd0 : 0 < d) by (unfold d; lia).
  replace (Z.max (d + 0 - 53) (-1074)) with (d - 53) by lia.
  destruct (shl_align_spec p 0 (d - 53)) as [E1 E2].
  destruct (shl_align p 0 (d - 53)) as [mz ez]. cbn [fst snd] in E1, E2.
  rewrite Z.min_r in E1, E2 by lia. subst ez.
  replace (0 - (d - 53)) with (53 - d) in E2 by lia.
  assert (Hmz : 2 ^ 52 <= Z.pos mz < 2 ^ 53).
  { rewrite E2. split.
    - replace 52 with ((d - 1) + (53 - d)) by lia. rewrite Z.pow_add_r by lia.
      apply Z.mul_le_mono_nonneg_r; [apply Z.pow_nonneg; lia | done].
    - replace 53 with (d + (53 - d)) at 2 by lia. rewrite Z.pow_add_r by lia.
      apply Z.mul_lt_mono_pos_r; [apply Z.pow_pos_nonneg; lia | done]. }
  pose proof (digits2_pos_eq mz 53 Hmz) as Hdz.
  unfold binary_round_aux, shr_fexp. cbn [Zdigits2 shr_record_of_loc].
  rewrite fexp_binary64, Hdz.
  replace (Z.max (53 + (d - 53) - 53) (-1074) - (d - 53)) with 0 by lia.
  cbn [shr loc_of_shr_record shr_m round_nearest_even Zdigits2 shr_record_of_loc].
  rewrite fexp_binary64, Hdz.
  replace (Z.max (53 + (d - 53) - 53) (-1074) - (d - 53)) with 0 by lia.
  cbn [shr shr_m]. change (emax - prec) with 971.
  replace (d - 53 <=? 971) with true by (symmetry; apply Z.leb_le; lia).
  exists mz, (d - 53). split; [done|]. split; [lia|].
  rewrite E2. do 2 f_equal. lia.
Qed.

Lemma integerPart_numberOfNat (k : nat) :
  0 < Z.of_nat k < 2 ^ 53 -> integerPart (numberOfNat k) = Z.of_nat k.
Proof.
  intros Hk. unfold integerPart, numberOfNat.
  rewrite of_uint63_spec, Uint63.of_Z_spec.
  rewrite Z.mod_small
    by (split; [lia|]; eapply Z.lt_trans; [apply Hk|]; by vm_compute).
  destruct (Z.of_nat k) as [|p|p] eqn:E; [lia| |lia].
  destruct (binary_normalize_integer p) as (m & e & R & He & Hm); [lia|].
  rewrite R. rewrite Z.shiftl_div_pow2 by lia.
  rewrite Hm. apply Z.div_mul. apply Z.pow_nonzero; lia.
Qed.

(** *** Single precision *)

Lemma fexp_unfold (p em z : Z) : fexp p em z = Z.max (z - p) (3 - em - p).
Proof. reflexivity. Qed.

(** The bound of [binary_round_aux_bound] for any format: a mantissa of at
    most [2 ^ (k - ex)] is rounded to one of at most [2 ^ (k - e)], and the
    exponent is not below the one the format gives to the input. *)
Lemma round_aux_bound (p em : Z) (s : bool) (mx ex k : Z) :
  0 < p -> 0 < mx -> ex <= k -> mx <= 2 ^ (k - ex) ->
  2 - em <= k <= em - 1 -> ex <= em - p ->
  binary_round_aux p em s mx ex loc_Exact = S754_zero s
  \/ exists m e,
       binary_round_aux p em s mx ex loc_Exact = S754_finite s m e
       /\ Z.pos m <= 2 ^ (k - e)
       /\ Z.max ex (fexp p em (Zdigits2 mx + ex)) <= e.
Proof.
  intros Hp Hmx Hex Hb Hk Hex'.
  unfold binary_round_aux, shr_fexp. cbn [shr_record_of_loc].
  rewrite !fexp_unfold.
  set (n1 := Z.max (Zdigits2 mx + ex - p) (3 - em - p) - ex).
  destruct (shr_spec mx ex n1) as (M1 & E1 & L1); [lia|].
  destruct (shr (Build_shr_record mx false false) ex n1) as [mrs' e'].
  cbn [fst snd] in M1, E1, L1. cbv beta iota. rewrite fexp_unfold.
  assert (Hd : Zdigits2 mx <= k - ex + 1).
  { apply zdigits2_le; [lia..|]. rewrite Z.pow_add_r, Z.pow_1_r by lia. lia. }
  assert (He' : ex <= e' <= Z.max ex (k - p + 1)) by lia.
  assert (En1 : Z.max 0 n1 = e' - ex) by lia.
  rewrite En1 in M1, L1.
  destruct (shifted_bound mx ex e' k) as [B1 B1']; [lia..|].
  rewrite <- M1 in B1, B1'.
  set (m1 := round_nearest_even (shr_m mrs') (loc_of_shr_record mrs')).
  assert (Hm1 : 0 <= m1 <= 2 ^ (k - e')).
  { destruct (round_nearest_even_bound (shr_m mrs') (loc_of_shr_record mrs'))
      as [R1 R2]. fold m1 in R1, R2.
    destruct (Z.eq_dec (mx mod 2 ^ (e' - ex)) 0) as [Hz|Hz].
    - rewrite (R1 (L1 Hz)). lia.
    - specialize (B1' Hz). lia. }
  set (n2 := Z.max (Zdigits2 m1 + e' - p) (3 - em - p) - e').
  destruct (shr_spec m1 e' n2) as (M2 & E2 & _); [lia|].
  destruct (shr (Build_shr_record m1 false false) e' n2) as [mrs'' e''].
  cbn [fst snd] in M2, E2.
  assert (Hd1 : Zdigits2 m1 <= k - e' + 1).
  { apply zdigits2_le; [lia..|]. rewrite Z.pow_add_r, Z.pow_1_r by lia. lia. }
  assert (He'' : e' <= e'' <= Z.max ex (k - p + 1)) by lia.
  assert (En2 : Z.max 0 n2 = e'' - e') by lia.
  rewrite En2 in M2.
  destruct (shifted_bound m1 e' e'' k) as [B2 _]; [lia..|].
  rewrite <- M2 in B2.
  cbv beta iota.
  destruct (shr_m mrs'') as [|m|m]; [by left| |lia].
  right. exists m, e''.
  replace (e'' <=? em - p) with true by (symmetry; apply Z.leb_le; lia).
  split; [done|]. split; lia.
Qed.

(** Narrowing a value of at most 1 in size to single precision gives a
    value of at most 1 in size, with a mantissa of at most 24 bits. *)
Lemma narrowed_bound (s : bool) (m : positive) (e : Z) :
  e <= 0 -> Z.pos m <= 2 ^ (- e) ->
  binary_round 24 128 s m e = S754_zero s
  \/ exists m' e',
       binary_round 24 128 s m e = S754_finite s m' e'
       /\ Z.pos m' <= 2 ^ (- e') /\ Z.pos m' <= 2 ^ 24.
Proof.
  intros He Hb. unfold binary_round.
  destruct (shl_align_spec m e (fexp 24 128 (Z.pos (digits2_pos m) + e)))
    as [E1 E2].
  destruct (shl_align _ _ _) as [mz ez]. cbn [fst snd] in E1, E2.
  rewrite <- E1 in E2.
  assert (Hez : ez <= e) by lia.
  assert (Hmz : Z.pos mz <= 2 ^ (0 - ez)).
  { rewrite E2. replace (0 - ez) with (- e + (e - ez)) by lia.
    rewrite Z.pow_add_r by lia. apply Z.mul_le_mono_nonneg_r; [|done].
    apply Z.pow_nonneg. lia. }
  pose proof (digits2_pos_upper mz) as Hu.
  assert (Hdz : Z.pos (digits2_pos mz) + ez <= 1).
  { pose proof (digits2_pos_le mz (0 - ez + 1)) as H.
    rewrite Z.pow_add_r, Z.pow_1_r in H by lia. lia. }
  set (k := Z.max (Z.pos (digits2_pos mz) + ez) (-126)).
  destruct (round_aux_bound 24 128 s (Z.pos mz) ez 0)
    as [H|(m1 & e1 & H & Hm1 & _)]; [lia..| by left |].
  destruct (round_aux_bound 24 128 s (Z.pos mz) ez k)
    as [H'|(m2 & e2 & H' & Hm2 & He2)]; [lia | lia | lia | | lia | lia | by left |].
  { eapply Z.le_trans; [apply Z.lt_le_incl, Hu|].
    apply Z.pow_le_mono_r; lia. }
  rewrite H in H'. injection H' as <- <-.
  right. exists m1, e1. split; [done|]. split; [by rewrite Z.sub_0_l in Hm1|].
  eapply Z.le_trans; [exact Hm2|]. apply Z.pow_le_mono_r; [lia|].
  cbn [Zdigits2] in He2. rewrite fexp_unfold in He2. lia.
Qed.

(** An integer below 2^53 as a binary64 value, mantissa and exponent. *)
Lemma integer_normal (p : positive) :
  Z.pos p < 2 ^ 53 ->
  exists m e,
    Prim2SF (of_uint63 (of_Z (Z.pos p))) = S754_finite false m e
    /\ e <= 0 /\ Z.pos m = Z.pos p * 2 ^ (- e) /\ 2 ^ 52 <= Z.pos m.
Proof.
  intros Hp. pose proof (Prim2SF_valid (of_uint63 (of_Z (Z.pos p)))) as Hv.
  revert Hv. rewrite of_uint63_spec, Uint63.of_Z_spec.
  rewrite Z.mod_small
    by (split; [lia|]; eapply Z.lt_trans; [apply Hp|]; by vm_compute).
  destruct (binary_normalize_integer p Hp) as (m & e & R & He & Hm).
  rewrite R. intros Hv. exists m, e. split; [done|]. split; [done|].
  split; [done|].
  unfold Floats.SpecFloat.valid_binary, bounded, canonical_mantissa in Hv.
  rewrite fexp_binary64 in Hv.
  apply andb_prop in Hv as [Hc _]. apply Z.eqb_eq in Hc.
  pose proof (digits2_pos_lower m) as Hl.
  pose proof (digits2_pos_upper m) as Hu.
  set (d := Z.pos (digits2_pos m)) in *.
  destruct (Z.eq_dec e (-1074)) as [->|Hne].
  - exfalso. assert (d <= 53) by lia.
    assert (2 ^ d <= 2 ^ 53) by (apply Z.pow_le_mono_r; lia).
    assert (2 ^ 53 <= 2 ^ (- -1074)) by (apply Z.pow_le_mono_r; lia).
    assert (0 < 2 ^ (- -1074)) by (apply Z.pow_pos_nonneg; lia).
    nia.
  - replace d with 53 in Hl by lia. exact Hl.
Qed.

(** Read back as a number, a single-precision value of at most 1 in size
    is a binary64 value of at most 1 in size. *)
Lemma widened_bound (s : bool) (m : positive) (e : Z) :
  Z.pos m <= 2 ^ (- e) -> Z.pos m <= 2 ^ 24 ->
  (exists s', Prim2SF (SF2Prim (S754_finite s m e)) = S754_zero s')
  \/ exists m' e',
       Prim2SF (SF2Prim (S754_finite s m e)) = S754_finite s m' e'
       /\ e' <= -52 /\ Z.pos m' <= 2 ^ (- e').
Proof.
  intros Hb Hm.
  assert (H53 : Z.pos m < 2 ^ 53).
  { eapply Z.le_lt_trans; [exact Hm|]. done. }
  destruct (integer_normal m H53) as (mi & ei & Ei & Hei & Hmi & Hni).
  assert (He : e <= 0).
  { destruct (Z.le_gt_cases e 0) as [?|Hpos]; [done|].
    rewrite Z.pow_neg_r in Hb by lia. lia. }
  assert (Hsum : ei + e <= -52).
  { destruct (Z.le_gt_cases (ei + e) (-52)) as [?|Hgt]; [done|]. exfalso.
    assert (Hle : Z.pos mi <= 2 ^ (- e) * 2 ^ (- ei)).
    { rewrite Hmi. apply Z.mul_le_mono_nonneg_r; [apply Z.pow_nonneg; lia|done]. }
    rewrite <- Z.pow_add_r in Hle by lia.
    assert (2 ^ (- e + - ei) < 2 ^ 52) by (apply Z.pow_lt_mono_r; lia).
    lia. }
  assert (Hval : Z.pos mi <= 2 ^ (- (ei + e))).
  { rewrite Hmi. replace (- (ei + e)) with (- e + - ei) by lia.
    rewrite Z.pow_add_r by lia.
    apply Z.mul_le_mono_nonneg_r; [apply Z.pow_nonneg; lia|done]. }
  assert (R : Prim2SF (Z.ldexp (of_uint63 (of_Z (Z.pos m))) e)
              = binary_round prec emax false mi (ei + e)).
  { by rewrite Z_ldexp_spec, Ei. }
  destruct (binary_round_bound false mi (ei + e) Hsum Hval)
    as [Z0|(m' & e' & F & He' & Hm')].
  - left. cbn [SF2Prim]. destruct s.
    + exists true. by rewrite opp_spec, R, Z0.
    + exists false. by rewrite R, Z0.
  - right. exists m', e'. cbn [SF2Prim]. destruct s.
    + by rewrite opp_spec, R, F.
    + by rewrite R, F.
Qed.

(** A canonical binary64 value between -1 and 1. *)
Lemma unit_canonical (s : bool) (m : positive) (e : Z) :
  valid_binary (S754_finite s m e) = true ->
  SFleb (S754_finite true 4503599627370496 (-52)) (S754_finite s m e) = true ->
  SFleb (S754_finite s m e) (S754_finite false 4503599627370496 (-52)) = true ->
  e <= -52 /\ Z.pos m <= 2 ^ (- e).
Proof.
  unfold Floats.SpecFloat.valid_binary, bounded, canonical_mantissa.
  rewrite fexp_binary64. intros Hv Hlo Hhi.
  apply andb_prop in Hv as [Hc _]. apply Z.eqb_eq in Hc.
  pose proof (digits2_pos_upper m) as Hd.
  assert (Hd53 : Z.pos (digits2_pos m) <= 53) by lia.
  assert (Hm : Z.pos m < 2 ^ 53).
  { eapply Z.lt_le_trans; [exact Hd|]. apply Z.pow_le_mono_r; lia. }
  assert (Hcase : e < -52 \/ (e = -52 /\ Z.pos m <= 2 ^ 52)).
  { unfold SFleb, SFcompare in Hlo, Hhi. rewrite !compare_cont_Z in *.
    destruct s.
    - destruct (Z.compare_spec (-52) e) as [E|E|E]; [|done|lia].
      subst e. right. split; [done|].
      change (2 ^ 52) with (Z.pos 4503599627370496).
      destruct (Z.compare_spec (Z.pos 4503599627370496) (Z.pos m));
        [lia|done|lia].
    - destruct (Z.compare_spec e (-52)) as [E|E|E]; [|lia|done].
      subst e. right. split; [done|].
      change (2 ^ 52) with (Z.pos 4503599627370496).
      destruct (Z.compare_spec (Z.pos m) (Z.pos 4503599627370496));
        [lia|lia|done]. }
  destruct Hcase as [Hlt|[-> Hle]]; [|done].
  split; [lia|].
  assert (2 ^ 53 <= 2 ^ (- e)) by (apply Z.pow_le_mono_r; lia). lia.
Qed.

(** Narrowing keeps a sample between -1 and 1. *)
Lemma fround_in_range (x : number) :
  between (-1) 1 x = true -> between (-1) 1 (fround x) = true.
Proof.
  unfold between, fround. intros H.
  pose proof (Prim2SF_valid x) as Hv.
  destruct (Prim2SF x) as [s0 | s0 | | s m e] eqn:Ex; [done..|].
  apply andb_prop in H as [Hlo Hhi].
  rewrite leb_spec, Prim2SF_minus_one, Ex in Hlo.
  rewrite leb_spec, Prim2SF_one, Ex in Hhi.
  destruct (unit_canonical s m e Hv Hlo Hhi) as [He Hm].
  rewrite !leb_spec, Prim2SF_minus_one, Prim2SF_one.
  destruct (narrowed_bound s m e ltac:(lia) Hm) as [N|(m' & e' & N & Hb & H24)].
  - rewrite N. by destruct s.
  - rewrite N.
    destruct (widened_bound s m' e' Hb H24) as [[s' W]|(m2 & e2 & W & He2 & Hm2)].
    + rewrite W. by destruct s'.
    + rewrite W. destruct (compare_with_one s m2 e2 He2 Hm2) as [L U].
      by rewrite L, U.
Qed.

(** ** The noise buffer *)

Lemma fillNoise_length slots i bufferSize random data :
  length (fillNoise slots i bufferSize random data) = length data.
Proof.
  revert i data. induction slots as [|slots IH]; intros i data; cbn [fillNoise];
    [done|].
  destruct (numberOfNat i <? bufferSize)%float; [|done].
  by rewrite IH, length_insert.
Qed.

Lemma fillNoise_Forall (P : number -> Prop) slots i bufferSize random data :
  (forall j, P (fround (random j * 2 - 1))) -> Forall P data ->
  Forall P (fillNoise slots i bufferSize random data).
Proof.
  intros Hr. revert i data.
  induction slots as [|slots IH]; intros i data Hd; cbn [fillNoise]; [done|].
  destruct (numberOfNat i <? bufferSize)%float; [|done].
  apply IH. by apply Forall_insert.
Qed.

Lemma playNoise_run st t w :
  let bufferSize := (sampleRate w * duration (noiseSequence st))%float in
  let n := toUnsignedLong bufferSize in
  1 <= n -> (counterLimit <? bufferSize)%float = false ->
  playNoise st t w =
  (Normal tt,
   {| state := state w; currentTime := currentTime w;
      sampleRate := sampleRate w; resumeSucceeds := resumeSucceeds w;
      mathRandom := mathRandom w; nextNode := S (S (nextNode w));
      calls := calls w ++
        [CreateBufferSource (nextNode w);
         SetBuffer (nextNode w)
           {| numberOfChannels := 1; bufferRate := sampleRate w;
              channelData :=
                fillNoise (Z.to_nat n) 0 bufferSize (mathRandom w)
                  (replicate (Z.to_nat n) 0%float) |};
         CreateBiquadFilter (S (nextNode w));
         SetFilterType (S (nextNode w)) Bandpass;
         SetFrequency (S (nextNode w)) (band (noiseSequence st))]
        ++ (if Track_eqb (selectedTrack st) NOISE
            then [Connect (Node (nextNode w)) (Node (S (nextNode w)));
                  Connect (Node (S (nextNode w))) Analyzer;
                  Connect Analyzer Destination]
            else [Connect (Node (nextNode w)) (Node (S (nextNode w)));
                  Connect (Node (S (nextNode w))) Destination])
        ++ [Start (nextNode w) (Some t)] |}).
Proof.
  intros bufferSize n Hn Hh. unfold playNoise.
  unfold bind at 1. unfold getSampleRate. cbn [fst snd].
  fold bufferSize. unfold bind at 1. unfold createBuffer. fold n.
  replace (n =? 0) with false by (symmetry; apply Z.eqb_neq; lia).
  cbn [Z.eqb orb]. unfold ret at 1. 
  unfold bind at 1. unfold getMathRandom. cbn [fst snd channelData numberOfChannels bufferRate].
  rewrite Hh, length_replicate.
  destruct (Track_eqb (selectedTrack st) NOISE); run_script; reflexivity.
Qed.

Lemma playNoise_buffer st t w :
  let bufferSize := (sampleRate w * duration (noiseSequence st))%float in
  (1 <=? bufferSize)%float = true ->
  (bufferSize <? 4294967296)%float = true ->
  (forall i, (0 <=? mathRandom w i)%float = true
             /\ (mathRandom w i <? 1)%float = true) ->
  fst (playNoise st t w) = Normal tt
  /\ exists buffer,
       buffersSet (callsOf (playNoise st t) w) = [buffer]
       /\ numberOfChannels buffer = 1
       /\ Z.of_nat (length (channelData buffer)) = integerPart bufferSize
       /\ Forall (fun x => between (-1) 1 x = true) (channelData buffer).
Proof.
  intros bufferSize H1 H2 Hr.
  pose proof (integerPart_range bufferSize H1 H2) as Hn.
  pose proof (toUnsignedLong_integerPart bufferSize H1 H2) as En.
  pose proof (playNoise_run st t w) as E. cbv zeta in E. fold bufferSize in E.
  rewrite En in E.
  specialize (E ltac:(lia) (below_two32_counter bufferSize H2)).
  rewrite E. split; [done|].
  eexists. split.
  - erewrite callsOf_app by (rewrite E; reflexivity).
    by destruct (Track_eqb (selectedTrack st) NOISE).
  - cbn [numberOfChannels channelData]. split; [done|]. split.
    + rewrite fillNoise_length, length_replicate. lia.
    + apply fillNoise_Forall.
      * intros j. destruct (Hr j). by apply fround_in_range, sample_in_range.
      * by apply Forall_replicate.
Qed.

Lemma noisyAudio_random (i : nat) :
  (0 <=? mathRandom noisyAudio i)%float = true
  /\ (mathRandom noisyAudio i <? 1)%float = true.
Proof.
  cbn [mathRandom noisyAudio].
  pose proof (Nat.mod_upper_bound i 10 ltac:(lia)) as Hi.
  destruct (i mod 10)%nat as [|[|[|[|[|[|[|[|[|[|n]]]]]]]]]];
    try (vm_compute; split; reflexivity).
  lia.
Qed.

(** C7, as the code has it.  When the product [sampleRate * duration],
    taken in binary64, is at least 1 and below 2^32, a Noise firing returns
    and its buffer is mono; the number of its samples is the integer part
    of the product, which is the product itself whenever the product is a
    whole number; and, [Math.random] yielding values in [0,1), every sample
    the buffer holds, the single-precision value of [random * 2 - 1], is
    between -1 and 1.  For a duration of 1 at 44100 Hz the buffer has
    44100 samples. *)
Theorem noise_buffer_length_and_range st t w :
  let bufferSize := (sampleRate w * duration (noiseSequence st))%float in
  (1 <=? bufferSize)%float = true ->
  (bufferSize <? 4294967296)%float = true ->
  (forall i, (0 <=? mathRandom w i)%float = true
             /\ (mathRandom w i <? 1)%float = true) ->
  (fst (playNoise st t w) = Normal tt
   /\ exists buffer,
        buffersSet (callsOf (playNoise st t) w) = [buffer]
        /\ numberOfChannels buffer = 1
        /\ Z.of_nat (length (channelData buffer)) = integerPart bufferSize
        /\ (forall k : nat,
              Z.of_nat k < 2 ^ 53 -> bufferSize = numberOfNat k ->
              length (channelData buffer) = k)
        /\ Forall (fun x => between (-1) 1 x = true) (channelData buffer))
  /\ (sampleRate noisyAudio = 44100%float
      /\ duration (noiseSequence initialState) = 1%float
      /\ exists buffer,
           buffersSet (callsOf (playNoise initialState 0) noisyAudio) = [buffer]
           /\ numberOfChannels buffer = 1
           /\ length (channelData buffer) = 44100%nat
           /\ Forall (fun x => between (-1) 1 x = true) (channelData buffer)).
Proof.
  intros bufferSize H1 H2 Hr. split.
  - destruct (playNoise_buffer st t w H1 H2 Hr) as (N & buffer & E & C & L & R).
    split; [done|]. exists buffer. repeat split; try done.
    intros k Hk Ek. apply Nat2Z.inj. rewrite L.
    pose proof (integerPart_range bufferSize H1 H2) as Hn.
    subst bufferSize. rewrite Ek in Hn |- *.
    destruct k as [|k]; [by vm_compute in Hn|].
    apply integerPart_numberOfNat. lia.
  - split; [done|]. split; [done|].
    destruct (playNoise_buffer initialState 0 noisyAudio)
      as (_ & buffer & E & C & L & R);
      [by vm_compute | by vm_compute | exact noisyAudio_random |].
    exists buffer. repeat split; try done.
    apply Nat2Z.inj. rewrite L. by vm_compute.
Qed.

Lemma noise_buffer_length_and_range_witness :
  (fst (playNoise initialState 0 noisyAudio) = Normal tt
   /\ exists buffer,
        buffersSet (callsOf (playNoise initialState 0) noisyAudio) = [buffer]
        /\ numberOfChannels buffer = 1
        /\ Z.of_nat (length (channelData buffer))
           = integerPart (sampleRate noisyAudio
                          * duration (noiseSequence initialState))%float
        /\ (forall k : nat,
              Z.of_nat k < 2 ^ 53 ->
              (sampleRate noisyAudio * duration (noiseSequence initialState))%float
              = numberOfNat k -> length (channelData buffer) = k)
        /\ Forall (fun x => between (-1) 1 x = true) (channelData buffer))
  /\ (sampleRate noisyAudio = 44100%float
      /\ duration (noiseSequence initialState) = 1%float
      /\ exists buffer,
           buffersSet (callsOf (playNoise initialState 0) noisyAudio) = [buffer]
           /\ numberOfChannels buffer = 1
           /\ length (channelData buffer) = 44100%nat
           /\ Forall (fun x => between (-1) 1 x = true) (channelData buffer)).
Proof.
  apply (noise_buffer_length_and_range initialState 0 noisyAudio).
  - vm_compute. reflexivity.
  - vm_compute. reflexivity.
  - exact noisyAudio_random.
Defined.

(** The claim C7 fails here: at 44100 Hz with the Duration slider at 0.7
    the product [sampleRate * duration] is 30869.999999999996, which is not
    a whole number, and the buffer has 30869 samples. *)
Lemma noise_buffer_one_sample_short :
  sampleRate anAudio = 44100%float
  /\ duration (noiseSequence shortNoise) = 0.7%float
  /\ (sampleRate anAudio * duration (noiseSequence shortNoise))%float
     = 30869.999999999996%float
  /\ (numberOfNat 30869 =? 30869.999999999996)%float = false
  /\ (numberOfNat 30870 =? 30869.999999999996)%float = false
  /\ exists buffer,
       buffersSet (callsOf (playNoise shortNoise 0) anAudio) = [buffer]
       /\ length (channelData buffer) = 30869%nat.
Proof.
  split; [done|]. split; [done|]. split; [by vm_compute|].
  split; [by vm_compute|]. split; [by vm_compute|].
  destruct (playNoise_buffer shortNoise 0 anAudio)
    as (_ & buffer & E & C & L & R); [by vm_compute..|].
  exists buffer. split; [done|].
  apply Nat2Z.inj. rewrite L. by vm_compute.
Qed.

(** * More properties of the component *)

(** ** Pad clicks *)

Lemma toggledSteps_past_end i (s : list bool) :
  (length s <= i)%nat -> toggledSteps i s = s ++ [true].
Proof.
  intros Hi. unfold toggledSteps.
  rewrite take_ge, drop_ge, lookup_ge_None_2 by lia.
  by rewrite app_nil_r.
Qed.

Lemma gate_toggledSteps i (s : list bool) (j : nat) :
  (i < length s)%nat ->
  gate (toggledSteps i s) (Z.of_nat j)
  = if decide (j = i) then negb (gate s (Z.of_nat j)) else gate s (Z.of_nat j).
Proof.
  intros Hi. unfold gate.
  replace (Z.of_nat j <? 0) with false by (symmetry; apply Z.ltb_ge; lia).
  rewrite Nat2Z.id. destruct (decide (j = i)) as [->|Hj].
  - by rewrite toggledSteps_same.
  - by rewrite toggledSteps_other.
Qed.

(** X1.  A toggle at an index past the end of the pattern does not flip
    anything: it appends one gate that is on, whatever the index, so the
    pattern grows by one.  At an index inside the pattern the length stays
    and the gate read by the scheduler is flipped at that index only. *)
Theorem toggle_out_of_range_appends (s : list bool) (i : nat) :
  ((length s <= i)%nat ->
     toggledSteps i s = s ++ [true]
     /\ length (toggledSteps i s) = S (length s))
  /\ ((i < length s)%nat ->
     length (toggledSteps i s) = length s
     /\ forall j : nat,
          gate (toggledSteps i s) (Z.of_nat j)
          = if decide (j = i) then negb (gate s (Z.of_nat j))
            else gate s (Z.of_nat j)).
Proof.
  split.
  - intros Hi. rewrite toggledSteps_past_end by done.
    split; [done|]. rewrite length_app. cbn. lia.
  - intros Hi. split; [by apply toggledSteps_length|].
    intros j. by apply gate_toggledSteps.
Qed.

Lemma sequenceSteps_handleStepClick track track' i st :
  sequenceSteps (handleStepClick track i st) track'
  = if Track_eqb track track' then toggledSteps i (sequenceSteps st track)
    else sequenceSteps st track'.
Proof. by destruct track, track'. Qed.

Lemma handleStepClick_twice track i st :
  (i < length (sequenceSteps st track))%nat ->
  handleStepClick track i (handleStepClick track i st) = st.
Proof.
  intros Hi. destruct st as [p te pl sel [a r s1] [f l s2] [d b s3] [ra s4]].
  destruct track; cbn in Hi |- *;
    unfold setSweepSequence, setPulseSequence, setNoiseSequence,
      setSampleSequence, toggleSequenceStep; cbn;
    by rewrite toggledSteps_twice.
Qed.

(** X2.  A click on a pad of one track leaves the patterns of the three
    other tracks, the grid position, the transport and the selection as
    they were, and a second click on the same pad restores the whole
    state. *)
Theorem pad_click_frame_and_undo track i st :
  (i < length (sequenceSteps st track))%nat ->
  (forall track', track' <> track ->
     sequenceSteps (handleStepClick track i st) track' = sequenceSteps st track')
  /\ currentStep (handleStepClick track i st) = currentStep st
  /\ isPlaying (handleStepClick track i st) = isPlaying st
  /\ selectedTrack (handleStepClick track i st) = selectedTrack st
  /\ handleStepClick track i (handleStepClick track i st) = st.
Proof.
  intros Hi. split.
  - intros track' Hne. rewrite sequenceSteps_handleStepClick.
    destruct track, track'; done.
  - split; [by destruct track|]. split; [by destruct track|].
    split; [by destruct track|]. by apply handleStepClick_twice.
Qed.

Lemma pad_click_frame_and_undo_witness :
  (forall track', track' <> PULSE ->
     sequenceSteps (handleStepClick PULSE 5 initialState) track'
     = sequenceSteps initialState track')
  /\ currentStep (handleStepClick PULSE 5 initialState) = currentStep initialState
  /\ isPlaying (handleStepClick PULSE 5 initialState) = isPlaying initialState
  /\ selectedTrack (handleStepClick PULSE 5 initialState)
     = selectedTrack initialState
  /\ handleStepClick PULSE 5 (handleStepClick PULSE 5 initialState) = initialState.
Proof.
  apply (pad_click_frame_and_undo PULSE 5 initialState). vm_compute. lia.
Defined.

Lemma toggledSteps_commute i j (s : list bool) :
  (i < length s)%nat -> (j < length s)%nat -> i <> j ->
  toggledSteps i (toggledSteps j s) = toggledSteps j (toggledSteps i s).
Proof.
  intros Hi Hj Hne.
  rewrite (toggledSteps_insert i (toggledSteps j s))
    by (by rewrite toggledSteps_length).
  rewrite (toggledSteps_insert j (toggledSteps i s))
    by (by rewrite toggledSteps_length).
  rewrite !toggledSteps_other by done.
  rewrite !toggledSteps_insert by done.
  by apply list_insert_insert_ne.
Qed.

(** X3.  Clicks on two different pads, of the same track or of two tracks,
    give the same state in either order. *)
Theorem pad_clicks_commute track1 i track2 j st :
  (i < length (sequenceSteps st track1))%nat ->
  (j < length (sequenceSteps st track2))%nat ->
  track1 <> track2 \/ i <> j ->
  handleStepClick track1 i (handleStepClick track2 j st)
  = handleStepClick track2 j (handleStepClick track1 i st).
Proof.
  intros Hi Hj Hne.
  destruct st as [p te pl sel [a r s1] [f l s2] [d b s3] [ra s4]].
  destruct track1, track2; try reflexivity; cbn in Hi, Hj |- *;
    (destruct Hne as [Hne|Hne]; [done|]);
    unfold setSweepSequence, setPulseSequence, setNoiseSequence,
      setSampleSequence, toggleSequenceStep; cbn;
    by rewrite toggledSteps_commute.
Qed.

Lemma pad_clicks_commute_witness :
  handleStepClick SWEEP 2 (handleStepClick SWEEP 9 initialState)
  = handleStepClick SWEEP 9 (handleStepClick SWEEP 2 initialState).
Proof.
  apply (pad_clicks_commute SWEEP 2 SWEEP 9 initialState).
  - vm_compute. lia.
  - vm_compute. lia.
  - right. lia.
Defined.

(** ** The pads and the events of the page *)

Lemma padIndices_lookup i : (i < 16)%nat -> padIndices !! i = Some i.
Proof. intros Hi. unfold padIndices. by apply lookup_seq_lt. Qed.

Lemma padIndices_lookup_ge i : (16 <= i)%nat -> padIndices !! i = None.
Proof. intros Hi. unfold padIndices. by apply lookup_seq_ge. Qed.

Lemma pads_lookup st i :
  (i < 16)%nat ->
  pads st !! i
  = Some {| ariaChecked := sequenceSteps st (selectedTrack st) !! i;
            triggered := isPlaying st && (currentStep st =? Z.of_nat i) |}.
Proof. intros Hi. unfold pads. by rewrite list_lookup_fmap, padIndices_lookup. Qed.

Lemma handleEvent_PadClick i st w :
  handleEvent (PadClick i) (st, w)
  = (if decide (i < 16)%nat then handleStepClick (selectedTrack st) i st else st, w).
Proof.
  cbn [handleEvent]. unfold padHandlers. rewrite list_lookup_fmap.
  destruct (decide (i < 16)%nat) as [Hi|Hi].
  - by rewrite padIndices_lookup.
  - by rewrite padIndices_lookup_ge by lia.
Qed.

Lemma triggered_count (p : Z) (b : bool) (n : nat) :
  length (filter (fun pad => triggered pad = true)
            (map (fun i => {| ariaChecked := None;
                              triggered := b && (p =? Z.of_nat i) |})
                 (seq 0 n)))
  = if b && (0 <=? p) && (p <? Z.of_nat n) then 1%nat else 0%nat.
Proof.
  induction n as [|n IH].
  - change (Z.of_nat 0) with 0.
    destruct b, (Z.leb_spec 0 p), (Z.ltb_spec p 0); try done; lia.
  - rewrite seq_S, map_app, filter_app, length_app, IH. cbn [map Nat.add].
    rewrite filter_cons, filter_nil. cbn [triggered].
    destruct b; [|by cbn]. cbn [andb].
    destruct (Z.eqb_spec p (Z.of_nat n)) as [->|Hne].
    + replace (0 <=? Z.of_nat n) with true by (symmetry; apply Z.leb_le; lia).
      replace (Z.of_nat n <? Z.of_nat n) with false
        by (symmetry; apply Z.ltb_ge; lia).
      replace (Z.of_nat n <? Z.of_nat (S n)) with true
        by (symmetry; apply Z.ltb_lt; lia).
      by rewrite decide_True.
    + rewrite decide_False by done. cbn [length]. rewrite Nat.add_0_r.
      destruct (0 <=? p); [|done]. cbn [andb].
      destruct (Z.ltb_spec p (Z.of_nat n)), (Z.ltb_spec p (Z.of_nat (S n)));
        try done; lia.
Qed.

Lemma filter_triggered_ext (f g : nat -> Pad) (l : list nat) :
  (forall i, triggered (f i) = triggered (g i)) ->
  length (filter (fun pad => triggered pad = true) (map f l))
  = length (filter (fun pad => triggered pad = true) (map g l)).
Proof.
  intros E. induction l as [|a l IH]; [done|].
  cbn [map]. rewrite !filter_cons, E.
  destruct (decide (triggered (g a) = true)); cbn [length]; by rewrite IH.
Qed.

Lemma selectedTrack_handleStepClick track i st :
  selectedTrack (handleStepClick track i st) = selectedTrack st.
Proof. by destruct track. Qed.

Lemma Track_eqb_refl track : Track_eqb track track = true.
Proof. by destruct track. Qed.

(** X4.  In a state whose patterns have sixteen gates and whose grid
    position is the index of a pad, the page shows sixteen pads; exactly
    one of them is highlighted while the transport is playing and none
    while it is paused; the checked state of every pad is defined (it is
    the gate of the selected track at the pad's index); and a click on pad
    [i] flips the checked state of pad [i] and of no other pad.  A click
    on a pad the page does not have changes nothing. *)
Theorem pads_show_the_state st w :
  wellFormed st ->
  length (pads st) = 16%nat
  /\ length (filter (fun pad => triggered pad = true) (pads st))
     = (if isPlaying st then 1%nat else 0%nat)
  /\ (forall i, (i < 16)%nat ->
        exists b, ariaChecked <$> pads st !! i = Some (Some b))
  /\ (forall i j, (i < 16)%nat -> (j < 16)%nat ->
        ariaChecked <$> pads (fst (handleEvent (PadClick i) (st, w))) !! j
        = if decide (j = i)
          then fmap negb <$> (ariaChecked <$> pads st !! j)
          else ariaChecked <$> pads st !! j)
  /\ (forall i, (16 <= i)%nat -> handleEvent (PadClick i) (st, w) = (st, w)).
Proof.
  intros [Hlen Hpos]. unfold BEATS_PER_BAR in *.
  split; [unfold pads, padIndices; by rewrite length_map, length_seq|].
  split.
  { unfold pads, padIndices.
    rewrite (filter_triggered_ext _
               (fun i => {| ariaChecked := None;
                            triggered := isPlaying st
                                         && (currentStep st =? Z.of_nat i) |}))
      by done.
    rewrite triggered_count. change (Z.of_nat (Z.to_nat BEATS_PER_BAR)) with 16.
    replace (0 <=? currentStep st) with true by (symmetry; apply Z.leb_le; lia).
    replace (currentStep st <? 16) with true by (symmetry; apply Z.ltb_lt; lia).
    by destruct (isPlaying st). }
  split.
  { intros i Hi. rewrite pads_lookup by done. cbn.
    destruct (lookup_lt_is_Some_2 (sequenceSteps st (selectedTrack st)) i)
      as [b Eb]; [rewrite Hlen; cbn; lia|].
    exists b. by rewrite Eb. }
  split.
  { intros i j Hi Hj. rewrite handleEvent_PadClick, decide_True by done.
    cbn [fst]. rewrite !pads_lookup by done. cbn.
    assert (Hi' : (i < length (sequenceSteps st (selectedTrack st)))%nat)
      by (rewrite Hlen; cbn; lia).
    rewrite selectedTrack_handleStepClick, sequenceSteps_handleStepClick.
    rewrite Track_eqb_refl.
    destruct (decide (j = i)) as [->|Hne].
    - rewrite toggledSteps_same by done.
      destruct (lookup_lt_is_Some_2 _ i Hi') as [b Eb]. by rewrite Eb.
    - by rewrite toggledSteps_other. }
  intros i Hi. rewrite handleEvent_PadClick. by rewrite decide_False by lia.
Qed.

Lemma initialState_wellFormed : wellFormed initialState.
Proof. split; [by intros []|]. cbn. unfold BEATS_PER_BAR. lia. Qed.

Lemma pads_show_the_state_witness :
  length (pads initialState) = 16%nat
  /\ length (filter (fun pad => triggered pad = true) (pads initialState))
     = (if isPlaying initialState then 1%nat else 0%nat)
  /\ (forall i, (i < 16)%nat ->
        exists b, ariaChecked <$> pads initialState !! i = Some (Some b))
  /\ (forall i j, (i < 16)%nat -> (j < 16)%nat ->
        ariaChecked
          <$> pads (fst (handleEvent (PadClick i) (initialState, anAudio))) !! j
        = if decide (j = i)
          then fmap negb <$> (ariaChecked <$> pads initialState !! j)
          else ariaChecked <$> pads initialState !! j)
  /\ (forall i, (16 <= i)%nat ->
        handleEvent (PadClick i) (initialState, anAudio)
        = (initialState, anAudio)).
Proof.
  apply (pads_show_the_state initialState anAudio).
  apply initialState_wellFormed.
Defined.

Lemma handleEvent_keeps e st w :
  wellFormed st -> inRange st -> fromTheSliders e ->
  wellFormed (fst (handleEvent e (st, w)))
  /\ inRange (fst (handleEvent e (st, w))).
Proof.
  intros [Hlen Hpos] Hin He. change (Z.to_nat BEATS_PER_BAR) with 16%nat in Hlen.
  unfold wellFormed. change (Z.to_nat BEATS_PER_BAR) with 16%nat.
  destruct e as [i | track | | c v |].
  - rewrite handleEvent_PadClick. cbn [fst].
    destruct (decide (i < 16)%nat) as [Hi|Hi];
      [|split; [exact (conj Hlen Hpos) | exact Hin]].
    split; [split|].
    + intros track. rewrite sequenceSteps_handleStepClick.
      destruct (Track_eqb (selectedTrack st) track); [|done].
      rewrite toggledSteps_length; [done|]. rewrite Hlen. lia.
    + by destruct (selectedTrack st).
    + intros c. specialize (Hin c).
      by destruct (selectedTrack st), c.
  - split; [split; [intros tr; specialize (Hlen tr); by destruct tr | done]|].
    intros c. specialize (Hin c). by destruct c.
  - split; [split; [intros tr; specialize (Hlen tr); by destruct tr | done]|].
    intros c. specialize (Hin c). by destruct c.
  - cbn [handleEvent fst]. split; [split|].
    + intros track. specialize (Hlen track). by destruct c, track.
    + by destruct c.
    + intros c'. specialize (Hin c'). cbn in He.
      destruct c, c'; first [exact He | exact Hin].
  - cbn [handleEvent].
    pose proof (tick_sequences st w) as (E1 & E2 & E3 & E4).
    pose proof (tick_isPlaying st w) as Ep.
    assert (Hc : 0 <= currentStep (fst (tick st w)) < BEATS_PER_BAR).
    { unfold tick. destruct (isPlaying st); cbn; [|done].
      unfold BEATS_PER_BAR in *. rewrite Z.rem_mod_nonneg by lia.
      apply Z.mod_pos_bound. lia. }
    assert (Hv : forall c, valueOf c (fst (tick st w)) = valueOf c st).
    { intros c. unfold tick. destruct (isPlaying st); cbn; by destruct c. }
    destruct (tick st w) as [st' [c w']]. cbn [fst] in *.
    split; [split; [|done]|].
    + intros track. specialize (Hlen track).
      destruct track; cbn in Hlen |- *; congruence.
    + intros c0. rewrite Hv. apply Hin.
Qed.

Lemma handleEvent_currentStep e st w :
  e <> TimerFires ->
  currentStep (fst (handleEvent e (st, w))) = currentStep st.
Proof.
  destruct e as [i | track | | c v |]; [| | | |done]; intros _.
  - rewrite handleEvent_PadClick. cbn [fst].
    destruct (decide (i < 16)%nat); [|done]. by destruct (selectedTrack st).
  - done.
  - done.
  - by destruct c.
Qed.

Lemma handleArmed_keeps e st closure w :
  wellFormed st -> inRange st -> currentStep closure = currentStep st ->
  fromTheSliders e ->
  wellFormed (handleArmed (st, closure, w) e).1.1
  /\ inRange (handleArmed (st, closure, w) e).1.1
  /\ currentStep (handleArmed (st, closure, w) e).1.2
     = currentStep (handleArmed (st, closure, w) e).1.1.
Proof.
  intros Hw Hi Hc He.
  assert (Hcase : e = TimerFires \/ e <> TimerFires)
    by (destruct e; first [by left | by right]).
  destruct Hcase as [->|Hne].
  - cbn [handleArmed fst snd rearms].
    destruct Hw as [Hlen Hpos].
    destruct (isPlaying closure).
    + set (next := Z.rem (currentStep closure + 1) BEATS_PER_BAR).
      assert (Hn : 0 <= next < BEATS_PER_BAR).
      { unfold next, BEATS_PER_BAR in *. rewrite Hc.
        rewrite Z.rem_mod_nonneg by lia. apply Z.mod_pos_bound. lia. }
      split; [split; [|exact Hn]|split].
      * intros track. specialize (Hlen track). by destruct track.
      * intros c. specialize (Hi c). by destruct c.
      * cbn [currentStep setCurrentStep].
        destruct (next =? currentStep st) eqn:En; cbn [negb]; [|done].
        apply Z.eqb_eq in En. lia.
    + rewrite Z.eqb_refl. cbn [negb fst snd].
      split; [exact (conj Hlen Hpos)|]. split; [exact Hi|exact Hc].
  - destruct (handleEvent_keeps e st w Hw Hi He) as [Hw' Hi'].
    pose proof (handleEvent_currentStep e st w Hne) as Hs.
    assert (E : handleArmed (st, closure, w) e
                = ((handleEvent e (st, w)).1,
                   if rearms e st (handleEvent e (st, w)).1
                   then (handleEvent e (st, w)).1 else closure,
                   (handleEvent e (st, w)).2)).
    { destruct e; try done; cbn [handleArmed];
        by destruct (handleEvent _ (st, w)). }
    rewrite E. cbn [fst snd]. split; [done|]. split; [done|].
    destruct (rearms e st _); [done|]. by rewrite Hs.
Qed.

Lemma foldl_handleArmed_keep es st closure w :
  wellFormed st -> inRange st -> currentStep closure = currentStep st ->
  Forall fromTheSliders es ->
  wellFormed (foldl handleArmed (st, closure, w) es).1.1
  /\ inRange (foldl handleArmed (st, closure, w) es).1.1.
Proof.
  revert st closure w.
  induction es as [|e es IH]; intros st closure w Hw Hi Hc Hes; [done|].
  apply Forall_cons in Hes as [He Hes]. cbn [foldl].
  destruct (handleArmed_keeps e st closure w Hw Hi Hc He) as (Hw' & Hi' & Hc').
  destruct (handleArmed (st, closure, w) e) as [[st' closure'] w'].
  by apply IH.
Qed.

Lemma handleEvents_keep es st w :
  wellFormed st -> inRange st -> Forall fromTheSliders es ->
  wellFormed (fst (handleEvents es (st, w)))
  /\ inRange (fst (handleEvents es (st, w))).
Proof.
  intros Hw Hi Hes. unfold handleEvents. cbn [fst snd].
  pose proof (foldl_handleArmed_keep es st st w Hw Hi eq_refl Hes) as H.
  by destruct (foldl handleArmed (st, st, w) es) as [[st' closure'] w'].
Qed.

(** X5.  Start-up gives a state in which every pattern has sixteen gates,
    the grid position is the index of a pad and every parameter is inside
    the range of its control; pad clicks, track and play clicks, timer
    ticks and changes whose value is between the [min] and the [max] of
    their input keep all three, in any number and order. *)
Theorem events_keep_the_state_in_shape es st w :
  wellFormed st -> inRange st -> Forall fromTheSliders es ->
  (wellFormed initialState /\ inRange initialState)
  /\ wellFormed (fst (handleEvents es (st, w)))
  /\ inRange (fst (handleEvents es (st, w))).
Proof.
  intros Hw Hi Hes. split.
  - split; [apply initialState_wellFormed | by intros []].
  - by apply handleEvents_keep.
Qed.

Lemma events_keep_the_state_in_shape_witness :
  (wellFormed initialState /\ inRange initialState)
  /\ wellFormed
       (fst (handleEvents
               [PlayClick; PadClick 3; InputChange bpm_control 90;
                TimerFires; TrackClick NOISE; PadClick 15; TimerFires]
               (initialState, anAudio)))
  /\ inRange
       (fst (handleEvents
               [PlayClick; PadClick 3; InputChange bpm_control 90;
                TimerFires; TrackClick NOISE; PadClick 15; TimerFires]
               (initialState, anAudio))).
Proof.
  apply (events_keep_the_state_in_shape
           [PlayClick; PadClick 3; InputChange bpm_control 90;
            TimerFires; TrackClick NOISE; PadClick 15; TimerFires]
           initialState anAudio).
  - apply initialState_wellFormed.
  - by intros [].
  - repeat constructor.
Defined.

(** ** What the firings add to the log *)

Lemma emits_ret {A} P (a : A) : emits P (ret a).
Proof. intros w. exists []. by rewrite app_nil_r. Qed.

Lemma emits_throw {A} P e : emits P (@throw A e).
Proof. intros w. exists []. by rewrite app_nil_r. Qed.

Lemma emits_hang {A} P : emits P (@hang A).
Proof. intros w. exists []. by rewrite app_nil_r. Qed.

Lemma emits_call (P : ApiCall -> Prop) c : P c -> emits P (call c).
Proof. intros Hc w. exists [c]. split; [done|]. by constructor. Qed.

Lemma emits_create (P : ApiCall -> Prop) mk :
  (forall n, P (mk n)) -> emits P (create mk).
Proof. intros Hc w. exists [mk (nextNode w)]. split; [done|]. by constructor. Qed.

Lemma emits_getSampleRate P : emits P getSampleRate.
Proof. intros w. exists []. by rewrite app_nil_r. Qed.

Lemma emits_getMathRandom P : emits P getMathRandom.
Proof. intros w. exists []. by rewrite app_nil_r. Qed.

Lemma emits_bind {A B} P (m : Script A) (k : A -> Script B) :
  emits P m -> (forall a, emits P (k a)) -> emits P (bind m k).
Proof.
  intros Hm Hk w. destruct (Hm w) as (new & E & F). unfold bind.
  destruct (m w) as [[a | e |] w1]; cbn [snd] in E; [|by exists new..].
  destruct (Hk a w1) as (new' & E' & F').
  exists (new ++ new'). rewrite E', E, app_assoc. split; [done|].
  by apply Forall_app.
Qed.

Lemma emits_if {A} P (b : bool) (m1 m2 : Script A) :
  emits P m1 -> emits P m2 -> emits P (if b then m1 else m2).
Proof. by destruct b. Qed.

Lemma emits_when P b m : emits P m -> emits P (when b m).
Proof. intros Hm. unfold when. destruct b; [done | apply emits_ret]. Qed.

Lemma emits_connectChain (P : ApiCall -> Prop) source rest :
  (forall a b, P (Connect a b)) -> emits P (connectChain source rest).
Proof.
  intros Hc. revert source.
  induction rest as [|target rest IH]; intros source; cbn.
  - apply emits_ret.
  - apply emits_bind; [by apply emits_call | intros _; apply IH].
Qed.

Lemma emits_createBuffer P channels len rate :
  emits P (createBuffer channels len rate).
Proof.
  unfold createBuffer. apply emits_if; [apply emits_throw | apply emits_ret].
Qed.

(** Closes [emits P m] for a script [m] built from the primitives, given
    a tactic that proves [P] of each single call.  The script is taken
    apart by its syntax. *)
Ltac emits_step tac :=
  lazymatch goal with
  | |- emits _ (bind _ _) => apply emits_bind; [| intros ?]
  | |- emits _ (if _ then _ else _) => apply emits_if
  | |- emits _ (ret _) => apply emits_ret
  | |- emits _ (throw _) => apply emits_throw
  | |- emits _ hang => apply emits_hang
  | |- emits _ getSampleRate => apply emits_getSampleRate
  | |- emits _ getMathRandom => apply emits_getMathRandom
  | |- emits _ (createBuffer _ _ _) => apply emits_createBuffer
  | |- emits _ (connectChain _ _) => apply emits_connectChain; intros; tac
  | |- emits _ (call _) => apply emits_call; tac
  | |- emits _ (create _) => apply emits_create; intros; tac
  end.

Ltac emits_script tac := repeat emits_step tac.

(** Closes [emits P (playSound ...)] likewise, track by track. *)
Ltac emits_playSound tac :=
  match goal with
  | |- emits _ (playSound _ ?track _ _) =>
      destruct track; cbn [playSound];
      try match goal with
          | |- emits _ (match ?b with Some _ => _ | None => _ end) => destruct b
          end;
      unfold playSweep, playPulse, playNoise, playSample;
      emits_script tac
  end.

Lemma emits_fireTracks P st next t :
  (forall track, emits P (playSound st track t None)) ->
  emits P (fireTracks st next t).
Proof.
  intros H. unfold fireTracks.
  do 3 (apply emits_bind; [apply emits_when, H | intros _]).
  apply emits_when, H.
Qed.

Lemma tickCalls_paused st w :
  isPlaying st = false ->
  fst (tick st w) = st
  /\ tickCalls st w = [RequestAnimationFrame; ClearInterval].
Proof.
  intros Hp. unfold tickCalls, tick. rewrite Hp. cbn. split; [done|].
  rewrite <- app_assoc. apply drop_app_length.
Qed.

Lemma tickCalls_playing (P : ApiCall -> Prop) st w :
  isPlaying st = true ->
  (forall track, emits P (playSound st track (currentTime w) None)) ->
  exists fired,
    tickCalls st w
    = RequestAnimationFrame
      :: match state w with Suspended => [Resume] | _ => [] end ++ fired
    /\ Forall P fired.
Proof.
  intros Hp HP. unfold tickCalls.
  pose proof (emits_fireTracks P st (Z.rem (currentStep st + 1) BEATS_PER_BAR)
                (currentTime w) HP) as Hf.
  destruct (state w) eqn:Es.
  - rewrite (tick_suspended st w Hp Es). cbn [snd].
    destruct (Hf (logged [RequestAnimationFrame; Resume]
                    (if resumeSucceeds w then Running else Suspended) w))
      as (new & E & F).
    exists new. rewrite E. cbn [logged calls]. rewrite <- app_assoc.
    by rewrite drop_app_length.
  - rewrite (tick_not_suspended st w Hp) by congruence. cbn [snd].
    destruct (Hf (logged [RequestAnimationFrame] (state w) w)) as (new & E & F).
    exists new. rewrite E. cbn [logged calls]. rewrite <- app_assoc.
    by rewrite drop_app_length.
  - rewrite (tick_not_suspended st w Hp) by congruence. cbn [snd].
    destruct (Hf (logged [RequestAnimationFrame] (state w) w)) as (new & E & F).
    exists new. rewrite E. cbn [logged calls]. rewrite <- app_assoc.
    by rewrite drop_app_length.
Qed.

Lemma filter_none {A} (P : A -> Prop) `{forall x, Decision (P x)} (l : list A) :
  Forall (fun x => ~ P x) l -> filter P l = [].
Proof.
  induction 1 as [|x l Hx Hl IH]; [done|].
  by rewrite filter_cons_False.
Qed.

(** X6.  Every run of the interval callback requests exactly one animation
    frame, first of all.  Besides, a run while paused clears the timer, and
    a run while playing calls [resume()] exactly when the context is
    suspended; the firings never make any of these three calls. *)
Theorem tick_housekeeping st w :
  filter (fun c => isHousekeeping c = true) (tickCalls st w)
  = RequestAnimationFrame
    :: (if isPlaying st
        then match state w with Suspended => [Resume] | _ => [] end
        else [ClearInterval])
  /\ head (tickCalls st w) = Some RequestAnimationFrame.
Proof.
  destruct (isPlaying st) eqn:Hp.
  - destruct (tickCalls_playing (fun c => isHousekeeping c = false) st w Hp)
      as (fired & E & F).
    { intros track. emits_playSound ltac:(by cbn). }
    rewrite E. split; [|done].
    assert (Hn : filter (fun c => isHousekeeping c = true) fired = []).
    { apply filter_none. eapply Forall_impl; [exact F|].
      intros c Hc. cbn in Hc. by rewrite Hc. }
    destruct (state w); cbn [app]; rewrite !filter_cons; cbn; by rewrite Hn.
  - destruct (tickCalls_paused st w Hp) as [_ E]. by rewrite E.
Qed.

Lemma ticks_paused env j k st w :
  isPlaying st = false -> fst (ticks env j k st w) = st.
Proof.
  intros Hp. revert j w. induction k as [|k IH]; intros j w; [done|].
  cbn [ticks]. destruct (tickCalls_paused st w Hp) as [E _].
  destruct (tick st w) as [st' [c w']]. cbn [fst] in E. subst st'. apply IH.
Qed.

(** X8.  While the transport is paused the callback changes nothing: any
    number of runs leaves the whole state, grid position included, as it
    was, and a run creates no audio node.  A pause followed by a second
    click on the play button therefore resumes at the position reached. *)
Theorem paused_ticks_change_nothing env j k st w :
  isPlaying st = false ->
  fst (ticks env j k st w) = st
  /\ createdNodes (tickCalls st w) = []
  /\ currentStep (setIsPlaying negb (fst (ticks env j k st w))) = currentStep st
  /\ isPlaying (setIsPlaying negb (fst (ticks env j k st w))) = true.
Proof.
  intros Hp. rewrite ticks_paused by done.
  destruct (tickCalls_paused st w Hp) as [_ E]. rewrite E.
  cbn. by rewrite Hp.
Qed.

Lemma paused_ticks_change_nothing_witness :
  fst (ticks (fun _ w => w) 0 7 initialState anAudio) = initialState
  /\ createdNodes (tickCalls initialState anAudio) = []
  /\ currentStep
       (setIsPlaying negb (fst (ticks (fun _ w => w) 0 7 initialState anAudio)))
     = currentStep initialState
  /\ isPlaying
       (setIsPlaying negb (fst (ticks (fun _ w => w) 0 7 initialState anAudio)))
     = true.
Proof.
  apply (paused_ticks_change_nothing (fun _ w => w) 0 7 initialState anAudio).
  reflexivity.
Defined.

(** ** Firings over a bar *)

Lemma tick_appends st w :
  calls (snd (snd (tick st w))) = calls w ++ tickCalls st w.
Proof.
  assert (H : exists new, calls (snd (snd (tick st w))) = calls w ++ new).
  { destruct (isPlaying st) eqn:Hp.
    - pose proof (emits_fireTracks (fun _ => True) st
                    (Z.rem (currentStep st + 1) BEATS_PER_BAR) (currentTime w))
        as Hf.
      assert (Hs : forall track,
                 emits (fun _ => True) (playSound st track (currentTime w) None))
        by (intros track; emits_playSound ltac:(done)).
      specialize (Hf Hs).
      destruct (state w) eqn:Es.
      + rewrite (tick_suspended st w Hp Es). cbn [snd].
        destruct (Hf (logged [RequestAnimationFrame; Resume]
                        (if resumeSucceeds w then Running else Suspended) w))
          as (new & E & _).
        rewrite E. cbn [logged calls]. rewrite <- app_assoc. by eexists.
      + rewrite (tick_not_suspended st w Hp) by congruence. cbn [snd].
        destruct (Hf (logged [RequestAnimationFrame] (state w) w))
          as (new & E & _).
        rewrite E. cbn [logged calls]. rewrite <- app_assoc. by eexists.
      + rewrite (tick_not_suspended st w Hp) by congruence. cbn [snd].
        destruct (Hf (logged [RequestAnimationFrame] (state w) w))
          as (new & E & _).
        rewrite E. cbn [logged calls]. rewrite <- app_assoc. by eexists.
    - unfold tick. rewrite Hp. cbn. rewrite <- app_assoc. by eexists. }
  destruct H as [new E]. unfold tickCalls. rewrite E.
  by rewrite drop_app_length.
Qed.

Lemma firingsOf_app track l1 l2 :
  firingsOf track (l1 ++ l2) = (firingsOf track l1 + firingsOf track l2)%nat.
Proof. unfold firingsOf. by rewrite filter_app, length_app. Qed.

Lemma firingsOf_none track l :
  Forall (fun c => marks track c = false) l -> firingsOf track l = 0%nat.
Proof.
  intros F. unfold firingsOf. rewrite filter_none; [done|].
  eapply Forall_impl; [exact F|]. intros c Hc. cbn in Hc. by rewrite Hc.
Qed.

Lemma firingsOf_housekeeping track (s : ContextState) :
  firingsOf track
    (RequestAnimationFrame
     :: match s with Suspended => [Resume] | _ => [] end) = 0%nat
  /\ firingsOf track [RequestAnimationFrame; ClearInterval] = 0%nat.
Proof. by destruct track, s. Qed.

Lemma tick_no_sample st w : firingsOf SAMPLE (tickCalls st w) = 0%nat.
Proof.
  destruct (isPlaying st) eqn:Hp.
  - destruct (tickCalls_playing (fun c => marks SAMPLE c = false) st w Hp)
      as (fired & Ef & F).
    { intros track. emits_playSound ltac:(by cbn). }
    rewrite Ef.
    change (RequestAnimationFrame :: ?l ++ fired)
      with ((RequestAnimationFrame :: l) ++ fired).
    rewrite firingsOf_app, (firingsOf_none SAMPLE fired F).
    by destruct (firingsOf_housekeeping SAMPLE (state w)) as [-> _].
  - destruct (tickCalls_paused st w Hp) as [_ Ep]. rewrite Ep.
    by destruct (firingsOf_housekeeping SAMPLE (state w)) as [_ ->].
Qed.

Lemma handleArmed_calls e st closure w :
  calls (handleArmed (st, closure, w) e).2
  = calls w ++ match e with TimerFires => tickCalls closure w | _ => [] end.
Proof.
  destruct e; cbn [handleArmed handleEvent fst snd];
    try by rewrite app_nil_r.
  apply tick_appends.
Qed.

Lemma foldl_handleArmed_no_sample es st closure w :
  firingsOf SAMPLE (calls (foldl handleArmed (st, closure, w) es).2)
  = firingsOf SAMPLE (calls w).
Proof.
  revert st closure w.
  induction es as [|e es IH]; intros st closure w; [done|]. cbn [foldl].
  pose proof (handleArmed_calls e st closure w) as E.
  destruct (handleArmed (st, closure, w) e) as [[st' closure'] w'].
  cbn [snd] in E. rewrite IH, E, firingsOf_app.
  destruct e; try (cbn; lia). rewrite tick_no_sample. lia.
Qed.

(** X9.  The callback fires the Sample track without a buffer, so whatever
    the patterns are and whatever the user does, no event ever plays a
    sample: the log never gains the call that sets a playback rate, which
    only [playSample] makes. *)
Theorem sample_track_never_plays es st w :
  firingsOf SAMPLE (calls (snd (handleEvents es (st, w))))
  = firingsOf SAMPLE (calls w).
Proof.
  unfold handleEvents. cbn [fst snd].
  pose proof (foldl_handleArmed_no_sample es st st w) as H.
  by destruct (foldl handleArmed (st, st, w) es) as [[st' closure'] w'].
Qed.

Lemma when_sweep_firings st (b : bool) t w :
  exists w' new,
    when b (playSound st SWEEP t None) w = (Normal tt, w')
    /\ calls w' = calls w ++ new
    /\ firingsOf SWEEP new = (if b then 1 else 0)%nat
    /\ firingsOf PULSE new = 0%nat.
Proof.
  destruct b; cbn [when playSound].
  - rewrite playSweep_run. eexists _, _. split; [reflexivity|].
    cbn [calls]. split; [reflexivity|].
    by destruct (Track_eqb (selectedTrack st) SWEEP).
  - exists w, []. by rewrite app_nil_r.
Qed.

Lemma when_pulse_firings st (b : bool) t w :
  exists w' new,
    when b (playSound st PULSE t None) w = (Normal tt, w')
    /\ calls w' = calls w ++ new
    /\ firingsOf SWEEP new = 0%nat
    /\ firingsOf PULSE new = (if b then 1 else 0)%nat.
Proof.
  destruct b; cbn [when playSound].
  - rewrite playPulse_run. eexists _, _. split; [reflexivity|].
    cbn [calls]. split; [reflexivity|]. unfold pulseCalls.
    by destruct (Track_eqb (selectedTrack st) PULSE).
  - exists w, []. by rewrite app_nil_r.
Qed.

Lemma fireTracks_firings st next t w :
  exists new,
    calls (snd (fireTracks st next t w)) = calls w ++ new
    /\ firingsOf SWEEP new
       = (if gate (steps (sweepSequence st)) next then 1 else 0)%nat
    /\ firingsOf PULSE new
       = (if gate (steps (pulseSequence st)) next then 1 else 0)%nat.
Proof.
  assert (He : emits (fun c => marks SWEEP c = false /\ marks PULSE c = false)
                 (when (gate (steps (noiseSequence st)) next)
                       (playSound st NOISE t None) ;;
                  when (gate (steps (sampleSequence st)) next)
                       (playSound st SAMPLE t None))).
  { apply emits_bind; [|intros _]; apply emits_when;
      cbn [playSound]; unfold playNoise; emits_script ltac:(by cbn). }
  destruct (when_sweep_firings st (gate (steps (sweepSequence st)) next) t w)
    as (w1 & new1 & R1 & E1 & A1 & B1).
  destruct (when_pulse_firings st (gate (steps (pulseSequence st)) next) t w1)
    as (w2 & new2 & R2 & E2 & A2 & B2).
  destruct (He w2) as (new3 & E3 & F3).
  unfold fireTracks. unfold bind at 1. rewrite R1.
  unfold bind at 1. rewrite R2. rewrite E3, E2, E1.
  exists (new1 ++ new2 ++ new3). rewrite <- !app_assoc. split; [done|].
  rewrite !firingsOf_app, A1, A2, B1, B2.
  rewrite !(firingsOf_none _ new3)
    by (eapply Forall_impl; [exact F3|]; by intros c [? ?]).
  split; lia.
Qed.

Lemma tick_firings st w :
  isPlaying st = true ->
  firingsOf SWEEP (tickCalls st w)
  = (if gate (steps (sweepSequence st))
          (Z.rem (currentStep st + 1) BEATS_PER_BAR) then 1 else 0)%nat
  /\ firingsOf PULSE (tickCalls st w)
     = (if gate (steps (pulseSequence st))
             (Z.rem (currentStep st + 1) BEATS_PER_BAR) then 1 else 0)%nat.
Proof.
  intros Hp. unfold tickCalls.
  destruct (state w) eqn:Es;
    [rewrite (tick_suspended st w Hp Es)
    |rewrite (tick_not_suspended st w Hp) by congruence..];
    cbn [snd];
    match goal with
    | |- context [fireTracks st ?next ?t ?w0] =>
        destruct (fireTracks_firings st next t w0) as (new & E & S1 & S2)
    end;
    rewrite E; cbn [logged calls]; rewrite <- app_assoc, drop_app_length;
    rewrite !firingsOf_app, S1, S2; by split.
Qed.

Lemma gatesOn_cons (a : bool) (s : list bool) :
  gatesOn (a :: s) = ((if a then 1 else 0) + gatesOn s)%nat.
Proof. unfold gatesOn. rewrite filter_cons. by destruct a. Qed.

Lemma gate_sum (s : list bool) :
  sum_list (map (fun i => if gate s (Z.of_nat i) then 1%nat else 0%nat)
              (seq 0 (length s)))
  = gatesOn s.
Proof.
  induction s as [|a s IH]; [done|].
  cbn [length seq map sum_list]. rewrite gatesOn_cons, <- IH. f_equal.
  rewrite <- fmap_S_seq. rewrite <- list_fmap_compose. f_equal.
  apply list_fmap_ext. intros _ i _. cbn. unfold gate.
  replace (Z.of_nat (S i) <? 0) with false by (symmetry; apply Z.ltb_ge; lia).
  replace (Z.of_nat i <? 0) with false by (symmetry; apply Z.ltb_ge; lia).
  by rewrite !Nat2Z.id.
Qed.

Lemma cyclic_sum (f : Z -> nat) (p : Z) :
  0 <= p < 16 ->
  sum_list (map (fun i => f ((p + 1 + Z.of_nat i) mod 16)) (seq 0 16))
  = sum_list (map (fun i => f (Z.of_nat i)) (seq 0 16)).
Proof.
  intros Hp.
  assert (H : p = 0 \/ p = 1 \/ p = 2 \/ p = 3 \/ p = 4 \/ p = 5 \/ p = 6
              \/ p = 7 \/ p = 8 \/ p = 9 \/ p = 10 \/ p = 11 \/ p = 12
              \/ p = 13 \/ p = 14 \/ p = 15) by lia.
  repeat (destruct H as [->|H]); [..|subst p];
    cbn [seq map sum_list];
    repeat match goal with
           | |- context [f ?x] =>
               let y := eval vm_compute in x in
               tryif constr_eq x y then fail else change x with y
           end;
    lia.
Qed.

Lemma ticks_firings env j k st w :
  (forall j w, calls (env j w) = calls w) ->
  isPlaying st = true -> 0 <= currentStep st < 16 ->
  firingsOf SWEEP (calls (snd (ticks env j k st w)))
  = (firingsOf SWEEP (calls w)
     + sum_list (map (fun i =>
                        if gate (steps (sweepSequence st))
                             ((currentStep st + 1 + Z.of_nat i) mod 16)
                        then 1 else 0) (seq 0 k)))%nat
  /\ firingsOf PULSE (calls (snd (ticks env j k st w)))
     = (firingsOf PULSE (calls w)
        + sum_list (map (fun i =>
                           if gate (steps (pulseSequence st))
                                ((currentStep st + 1 + Z.of_nat i) mod 16)
                           then 1 else 0) (seq 0 k)))%nat.
Proof.
  intros Henv. revert j st w.
  induction k as [|k IH]; intros j st w Hp Hr; [cbn; lia|].
  cbn [ticks].
  pose proof (tick_isPlaying st w) as E1.
  pose proof (tick_currentStep st w Hp) as E2.
  pose proof (tick_sequences st w) as (Es & Eu & _ & _).
  pose proof (tick_appends st w) as Ec.
  destruct (tick_firings st w Hp) as [Fs Fp].
  destruct (tick st w) as [st' [c w']]. cbn [fst snd] in *.
  assert (E3 : currentStep st' = (currentStep st + 1) mod 16).
  { rewrite E2. unfold BEATS_PER_BAR. apply Z.rem_mod_nonneg; lia. }
  destruct (IH (S j) st' (env j w')) as [IHs IHp];
    [congruence | rewrite E3; apply Z.mod_pos_bound; lia |].
  rewrite IHs, IHp, Henv, Ec, !firingsOf_app, Fs, Fp, Es, Eu.
  unfold BEATS_PER_BAR. rewrite Z.rem_mod_nonneg by lia.
  cbn [seq map sum_list]. rewrite <- fmap_S_seq, <- !list_fmap_compose.
  rewrite Z.add_0_r.
  assert (Hmod : forall i : nat,
             (currentStep st' + 1 + Z.of_nat i) mod 16
             = (currentStep st + 1 + Z.of_nat (S i)) mod 16).
  { intros i. rewrite E3, <- Z.add_assoc, Zplus_mod_idemp_l. f_equal. lia. }
  rewrite (list_fmap_ext _
             (fun i => if gate (steps (sweepSequence st))
                            ((currentStep st + 1 + Z.of_nat (S i)) mod 16)
                       then 1%nat else 0%nat) (seq 0 k))
    by (intros _ i _; by rewrite Hmod).
  rewrite (list_fmap_ext
             (fun i => if gate (steps (pulseSequence st))
                            ((currentStep st' + 1 + Z.of_nat i) mod 16)
                       then 1%nat else 0%nat)
             (fun i => if gate (steps (pulseSequence st))
                            ((currentStep st + 1 + Z.of_nat (S i)) mod 16)
                       then 1%nat else 0%nat) (seq 0 k))
    by (intros _ i _; by rewrite Hmod).
  unfold compose, id. split; by rewrite Nat.add_assoc.
Qed.

(** X10.  Over the sixteen ticks of one bar, from any grid position and
    whatever the other tracks do (a Noise firing may throw), the Sweep
    track is fired once for each gate of its pattern that is on, and so is
    the Pulse track. *)
Theorem bar_fires_each_gate_once env j st w :
  isPlaying st = true -> wellFormed st ->
  (forall j w, calls (env j w) = calls w) ->
  firingsOf SWEEP (calls (snd (ticks env j 16 st w)))
  = (firingsOf SWEEP (calls w) + gatesOn (steps (sweepSequence st)))%nat
  /\ firingsOf PULSE (calls (snd (ticks env j 16 st w)))
     = (firingsOf PULSE (calls w) + gatesOn (steps (pulseSequence st)))%nat.
Proof.
  intros Hp [Hlen Hpos] Henv. unfold BEATS_PER_BAR in *.
  destruct (ticks_firings env j 16 st w Henv Hp Hpos) as [Fs Fp].
  rewrite Fs, Fp.
  rewrite (cyclic_sum (fun z => if gate (steps (sweepSequence st)) z
                                then 1%nat else 0%nat)) by done.
  rewrite (cyclic_sum (fun z => if gate (steps (pulseSequence st)) z
                                then 1%nat else 0%nat)) by done.
  pose proof (Hlen SWEEP) as Ls. pose proof (Hlen PULSE) as Lp.
  cbn [sequenceSteps] in Ls, Lp. change (Z.to_nat 16) with 16%nat in Ls, Lp.
  rewrite <- (gate_sum (steps (sweepSequence st))), Ls.
  rewrite <- (gate_sum (steps (pulseSequence st))), Lp.
  done.
Qed.

Lemma bar_fires_each_gate_once_witness :
  firingsOf SWEEP (calls (snd (ticks (fun _ w => w) 0 16 sweepOnOne anAudio)))
  = (firingsOf SWEEP (calls anAudio) + gatesOn (steps (sweepSequence sweepOnOne)))%nat
  /\ firingsOf PULSE (calls (snd (ticks (fun _ w => w) 0 16 sweepOnOne anAudio)))
     = (firingsOf PULSE (calls anAudio)
        + gatesOn (steps (pulseSequence sweepOnOne)))%nat.
Proof.
  apply (bar_fires_each_gate_once (fun _ w => w) 0 sweepOnOne anAudio).
  - reflexivity.
  - split; [by intros []|]. cbn. unfold BEATS_PER_BAR. lia.
  - reflexivity.
Defined.

(** ** The firings, track by track *)

Lemma playSample_run st buffer t w :
  playSample st buffer t w =
  (Normal (nextNode w),
   {| state := state w; currentTime := currentTime w;
      sampleRate := sampleRate w; resumeSucceeds := resumeSucceeds w;
      mathRandom := mathRandom w; nextNode := S (nextNode w);
      calls := calls w ++
        [CreateBufferSource (nextNode w);
         SetBuffer (nextNode w) buffer;
         SetPlaybackRate (nextNode w) (rate (sampleSequence st))]
        ++ (if Track_eqb (selectedTrack st) SAMPLE
            then [Connect (Node (nextNode w)) Analyzer;
                  Connect Analyzer Destination]
            else [Connect (Node (nextNode w)) Destination])
        ++ [Start (nextNode w) (Some t)] |}).
Proof.
  unfold playSample.
  destruct (Track_eqb (selectedTrack st) SAMPLE); run_script; reflexivity.
Qed.

(** The three ways a Noise firing ends. *)
Lemma playNoise_cases st t w :
  playNoise st t w =
  let bufferSize := (sampleRate w * duration (noiseSequence st))%float in
  let n := toUnsignedLong bufferSize in
  if n =? 0 then (Throw NotSupportedError, w)
  else if (counterLimit <? bufferSize)%float then (Hang, w)
  else
    (Normal tt,
     {| state := state w; currentTime := currentTime w;
        sampleRate := sampleRate w; resumeSucceeds := resumeSucceeds w;
        mathRandom := mathRandom w; nextNode := S (S (nextNode w));
        calls := calls w ++
          [CreateBufferSource (nextNode w);
           SetBuffer (nextNode w)
             {| numberOfChannels := 1; bufferRate := sampleRate w;
                channelData :=
                  fillNoise (Z.to_nat n) 0 bufferSize (mathRandom w)
                    (replicate (Z.to_nat n) 0%float) |};
           CreateBiquadFilter (S (nextNode w));
           SetFilterType (S (nextNode w)) Bandpass;
           SetFrequency (S (nextNode w)) (band (noiseSequence st))]
          ++ (if Track_eqb (selectedTrack st) NOISE
              then [Connect (Node (nextNode w)) (Node (S (nextNode w)));
                    Connect (Node (S (nextNode w))) Analyzer;
                    Connect Analyzer Destination]
              else [Connect (Node (nextNode w)) (Node (S (nextNode w)));
                    Connect (Node (S (nextNode w))) Destination])
          ++ [Start (nextNode w) (Some t)] |}).
Proof.
  cbv zeta.
  destruct (toUnsignedLong (sampleRate w * duration (noiseSequence st)) =? 0)
    eqn:En.
  - unfold playNoise. unfold bind at 1. unfold getSampleRate. cbn [fst snd].
    unfold bind at 1. unfold createBuffer. by rewrite En.
  - destruct (counterLimit <? sampleRate w * duration (noiseSequence st))%float
      eqn:Eh.
    + unfold playNoise. unfold bind at 1. unfold getSampleRate. cbn [fst snd].
      unfold bind at 1. unfold createBuffer. rewrite En. cbn [Z.eqb orb].
      unfold ret at 1. unfold bind at 1. unfold getMathRandom. cbn [fst snd].
      unfold bind at 1. by rewrite Eh.
    + apply Z.eqb_neq in En.
      pose proof (Z.mod_pos_bound
                    (integerPart (sampleRate w * duration (noiseSequence st)))
                    (2 ^ 32) ltac:(lia)) as Hb.
      apply playNoise_run; [|done]. cbv zeta. unfold toUnsignedLong in *. lia.
Qed.

(** X11.  With a buffer, a Sample firing creates one buffer source, hands
    it the buffer, sets its playback rate to the rate of the sequence and
    starts it at the trigger time; it passes through the analyzer exactly
    when Sample is the selected track, and it is never told to stop.  The
    dispatcher reaches it only when a buffer is given. *)
Theorem sample_firing_with_a_buffer st buffer t w :
  fst (playSound st SAMPLE t (Some buffer) w) = Normal tt
  /\ callsOf (playSound st SAMPLE t (Some buffer)) w
     = [CreateBufferSource (nextNode w);
        SetBuffer (nextNode w) buffer;
        SetPlaybackRate (nextNode w) (rate (sampleSequence st))]
       ++ (if Track_eqb (selectedTrack st) SAMPLE
           then [Connect (Node (nextNode w)) Analyzer;
                 Connect Analyzer Destination]
           else [Connect (Node (nextNode w)) Destination])
       ++ [Start (nextNode w) (Some t)]
  /\ stoppedNodes (callsOf (playSound st SAMPLE t (Some buffer)) w) = []
  /\ callsOf (playSound st SAMPLE t None) w = [].
Proof.
  assert (E : playSound st SAMPLE t (Some buffer) w
              = (Normal tt, snd (playSample st buffer t w))).
  { cbn [playSound]. unfold bind. by rewrite playSample_run. }
  rewrite E. split; [done|].
  assert (Ec : callsOf (playSound st SAMPLE t (Some buffer)) w
               = [CreateBufferSource (nextNode w);
                  SetBuffer (nextNode w) buffer;
                  SetPlaybackRate (nextNode w) (rate (sampleSequence st))]
                 ++ (if Track_eqb (selectedTrack st) SAMPLE
                     then [Connect (Node (nextNode w)) Analyzer;
                           Connect Analyzer Destination]
                     else [Connect (Node (nextNode w)) Destination])
                 ++ [Start (nextNode w) (Some t)]).
  { apply callsOf_app. rewrite E. cbn [snd]. by rewrite playSample_run. }
  rewrite Ec. split; [done|]. split.
  - by destruct (Track_eqb (selectedTrack st) SAMPLE).
  - unfold callsOf. cbn. by rewrite drop_all.
Qed.

Lemma callsOf_nil {A} (m : Script A) w : snd (m w) = w -> callsOf m w = [].
Proof. intros E. unfold callsOf. rewrite E. by rewrite drop_all. Qed.

(** The calls of a firing, read off the run of each synthesizer. *)
Lemma playSound_snd st track t buffer w :
  exists new,
    calls (snd (playSound st track t buffer w)) = calls w ++ new.
Proof.
  assert (H : emits (fun _ => True) (playSound st track t buffer))
    by emits_playSound ltac:(done).
  destruct (H w) as (new & E & _). by exists new.
Qed.

Lemma playSound_run st track t buffer w :
  playSound st track t buffer w =
  match track with
  | SWEEP => (Normal tt, snd (playSweep st t w))
  | PULSE => (Normal tt, snd (playPulse st t w))
  | NOISE => playNoise st t w
  | SAMPLE => match buffer with
              | Some b => (Normal tt, snd (playSample st b t w))
              | None => (Normal tt, w)
              end
  end.
Proof.
  destruct track; cbn [playSound].
  - by rewrite playSweep_run.
  - by rewrite playPulse_run.
  - done.
  - destruct buffer; [|done]. unfold bind. by rewrite playSample_run.
Qed.

Lemma callsOf_playSound st track t buffer w :
  callsOf (playSound st track t buffer) w =
  drop (length (calls w))
    (calls match track with
           | SWEEP => snd (playSweep st t w)
           | PULSE => snd (playPulse st t w)
           | NOISE => snd (playNoise st t w)
           | SAMPLE => match buffer with
                       | Some b => snd (playSample st b t w)
                       | None => w
                       end
           end).
Proof.
  unfold callsOf. rewrite playSound_run. by destruct track, buffer.
Qed.

(** Rewrites the calls of a firing to the list its synthesizer logs. *)
Ltac firing_calls :=
  rewrite ?callsOf_playSound, ?playSound_run,
    ?playSweep_run, ?playPulse_run, ?playSample_run;
  unfold pulseCalls;
  cbn [fst snd calls nextNode setSelectedTrack selectedTrack sweepSequence
       pulseSequence noiseSequence sampleSequence];
  rewrite ?drop_all; rewrite ?drop_app_length.

Lemma Track_eqb_eq a b : Track_eqb a b = true <-> a = b.
Proof. by destruct a, b. Qed.

(** Evaluates the connections of an explicit log. *)
Ltac eval_connections :=
  repeat match goal with
         | |- context [(connections ?L).*2] =>
             let x := eval vm_compute in ((connections L).*2) in
             change ((connections L).*2) with x
         end;
  repeat match goal with
         | |- context [connections ?L] =>
             let x := eval vm_compute in (connections L) in
             change (connections L) with x
         end.
Ltac tapped :=
  repeat (apply elem_of_cons; first [left; reflexivity | right]).
Ltac not_tapped H :=
  repeat (apply elem_of_cons in H as [H|H]; [discriminate H|]);
  by apply elem_of_nil in H.
Ltac routing_iff :=
  let H := fresh in
  let H1 := fresh in
  let H2 := fresh in
  eval_connections;
  split;
  [ intros H; first [split; [reflexivity|discriminate] | exfalso; not_tapped H]
  | intros [H1 H2]; first [discriminate H1 | congruence | tapped] ].

(** X12.  Which track is selected decides only the routing of a firing:
    with another track selected the firing ends the same way, creates the
    same number of nodes and makes the same calls apart from its connect
    calls; and the analyzer is among the connection targets exactly when
    the fired track is the selected one and the firing connected
    anything. *)
Theorem selection_changes_only_the_routing st other track t buffer w :
  let run := playSound st track t buffer in
  let run' := playSound (setSelectedTrack other st) track t buffer in
  fst (run' w) = fst (run w)
  /\ nextNode (snd (run' w)) = nextNode (snd (run w))
  /\ filter (fun c => isConnect c = false) (callsOf run' w)
     = filter (fun c => isConnect c = false) (callsOf run w)
  /\ (Analyzer ∈ (connections (callsOf run w)).*2
      <-> selectedTrack st = track /\ connections (callsOf run w) <> []).
Proof.
  cbv zeta. rewrite <- Track_eqb_eq.
  destruct track; [| | |destruct buffer].
  - firing_calls.
    destruct (Track_eqb (selectedTrack st) _), (Track_eqb other _);
      do 3 (split; [reflexivity|]); routing_iff.
  - firing_calls.
    destruct (Track_eqb (selectedTrack st) _), (Track_eqb other _);
      do 3 (split; [reflexivity|]); routing_iff.
  - rewrite !callsOf_playSound, !playSound_run, !playNoise_cases. cbv zeta.
    cbn [setSelectedTrack selectedTrack noiseSequence].
    destruct (toUnsignedLong _ =? 0);
      [|destruct (counterLimit <? _)%float].
    + cbn [fst snd]. rewrite drop_all.
      do 3 (split; [reflexivity|]). routing_iff.
    + cbn [fst snd]. rewrite drop_all.
      do 3 (split; [reflexivity|]). routing_iff.
    + cbn [fst snd calls nextNode]. rewrite !drop_app_length.
      generalize (fillNoise
                    (Z.to_nat (toUnsignedLong
                                 (sampleRate w * duration (noiseSequence st))))
                    0 (sampleRate w * duration (noiseSequence st))
                    (mathRandom w)
                    (replicate
                       (Z.to_nat (toUnsignedLong
                                    (sampleRate w
                                     * duration (noiseSequence st)))) 0%float)).
      intros data.
      destruct (Track_eqb (selectedTrack st) _), (Track_eqb other _);
        do 3 (split; [reflexivity|]); routing_iff.
  - firing_calls.
    destruct (Track_eqb (selectedTrack st) _), (Track_eqb other _);
      do 3 (split; [reflexivity|]); routing_iff.
  - firing_calls. do 3 (split; [reflexivity|]). routing_iff.
Qed.

(** ** The noise buffer, sample by sample *)

Lemma integerPart_below_one (b : float) :
  (0 <=? b)%float = true -> (b <? 1)%float = true -> integerPart b = 0.
Proof.
  rewrite leb_spec, ltb_spec, Prim2SF_one.
  change (Prim2SF 0) with (S754_zero false).
  pose proof (Prim2SF_valid b) as Hv. unfold integerPart.
  destruct (Prim2SF b) as [s | s | | s m e]; [done | done | done |].
  destruct s; [done|]. intros _ H1.
  destruct (below_one_canonical m e Hv H1) as [He Hm].
  rewrite Z.shiftl_div_pow2 by lia. apply Z.div_small. split; [lia|].
  eapply Z.lt_le_trans; [exact Hm|]. apply Z.pow_le_mono_r; lia.
Qed.

Lemma integerPart_not_finite (b : float) :
  is_nan b || is_infinity b = true -> integerPart b = 0.
Proof.
  intros H. unfold integerPart, Prim2SF.
  destruct (is_nan b); [done|]. destruct (is_zero b); [done|].
  cbn [orb] in H. by rewrite H.
Qed.

(** X13.  A buffer size without a whole sample ends the Noise firing by
    the exception of [createBuffer], before any call is made: so for a
    size from 0 up to, but not including, 1, and for a size that is NaN
    or infinite. *)
Theorem noise_without_a_whole_sample_throws st t w :
  let bufferSize := (sampleRate w * duration (noiseSequence st))%float in
  ((0 <=? bufferSize)%float && (bufferSize <? 1)%float
   || is_nan bufferSize || is_infinity bufferSize) = true ->
  playNoise st t w = (Throw NotSupportedError, w).
Proof.
  intros bufferSize H. rewrite playNoise_cases. cbv zeta. fold bufferSize.
  assert (E : toUnsignedLong bufferSize = 0).
  { unfold toUnsignedLong.
    destruct ((0 <=? bufferSize)%float && (bufferSize <? 1)%float) eqn:Hs.
    - apply andb_prop in Hs as [H0 H1].
      by rewrite (integerPart_below_one _ H0 H1).
    - cbn [orb] in H. by rewrite (integerPart_not_finite _ H). }
  by rewrite E.
Qed.

Lemma noise_without_a_whole_sample_throws_witness :
  playNoise (onChange duration_control 0.00001 initialState) 0 anAudio
  = (Throw NotSupportedError, anAudio).
Proof.
  apply (noise_without_a_whole_sample_throws
           (onChange duration_control 0.00001 initialState) 0 anAudio).
  vm_compute. reflexivity.
Defined.

(** The counter of the loop as a binary64 value. *)
Lemma numberOfNat_finite (k : nat) :
  0 < Z.of_nat k < 2 ^ 53 ->
  exists m e,
    Prim2SF (numberOfNat k) = S754_finite false m e
    /\ e <= 0 /\ Z.pos m = Z.of_nat k * 2 ^ (- e)
    /\ (-1074 < e -> 2 ^ 52 <= Z.pos m).
Proof.
  intros Hk. pose proof (Prim2SF_valid (numberOfNat k)) as Hv.
  revert Hv. unfold numberOfNat.
  rewrite of_uint63_spec, Uint63.of_Z_spec.
  rewrite Z.mod_small
    by (split; [lia|]; eapply Z.lt_trans; [apply Hk|]; by vm_compute).
  destruct (Z.of_nat k) as [|p|p] eqn:E; [lia| |lia].
  destruct (binary_normalize_integer p) as (m & e & R & He & Hm); [lia|].
  rewrite R. intros Hv. exists m, e. split; [done|]. split; [done|].
  split; [done|]. intros Hlow.
  unfold Floats.SpecFloat.valid_binary, bounded, canonical_mantissa in Hv.
  rewrite fexp_binary64 in Hv.
  apply andb_prop in Hv as [Hc _]. apply Z.eqb_eq in Hc.
  pose proof (digits2_pos_lower m) as Hl.
  replace (Z.pos (digits2_pos m)) with 53 in Hl by lia. exact Hl.
Qed.

(** Below the integer part of the buffer size the test [i < bufferSize] of
    the loop holds. *)
Lemma counter_below_size (i : nat) (b : float) :
  (1 <=? b)%float = true -> (b <? 4294967296)%float = true ->
  Z.of_nat i < integerPart b ->
  (numberOfNat i <? b)%float = true.
Proof.
  intros H1 H2 Hi.
  pose proof (integerPart_range b H1 H2) as Hn.
  revert Hi Hn. unfold integerPart.
  rewrite leb_spec, Prim2SF_one in H1. rewrite ltb_spec, Prim2SF_two32 in H2.
  destruct (one_to_two32_canonical _ (Prim2SF_valid b) H1 H2)
    as (m & e & E & He & Hm).
  rewrite ltb_spec, E. rewrite Z.shiftl_div_pow2 by lia. intros Hi Hn.
  destruct i as [|i]; [done|].
  assert (Hp : 0 < 2 ^ (- e)) by (apply Z.pow_pos_nonneg; lia).
  assert (H32 : 2 ^ 32 < 2 ^ 53) by done.
  destruct (numberOfNat_finite (S i)) as (mi & ei & Ei & Hei & Hmi & Hnorm);
    [lia|].
  rewrite Ei. unfold SFltb, SFcompare.
  pose proof (Z.mul_div_le (Z.pos m) (2 ^ (- e)) Hp) as Hfl.
  destruct (Z.compare_spec ei e) as [Heq|Hlt|Hgt]; [|done|].
  - subst ei. rewrite compare_cont_Z.
    destruct (Z.compare_spec (Z.pos mi) (Z.pos m)) as [Hc|Hc|Hc]; [|done|];
      exfalso; nia.
  - exfalso.
    specialize (Hnorm ltac:(lia)).
    assert (Hpi : 0 < 2 ^ (- ei)) by (apply Z.pow_pos_nonneg; lia).
    assert (Hlow : 2 ^ (52 + ei) <= Z.of_nat (S i)).
    { apply (Z.mul_le_mono_pos_r _ _ (2 ^ (- ei))); [done|].
      rewrite <- Z.pow_add_r by lia.
      replace (52 + ei + - ei) with 52 by lia. lia. }
    assert (Hup : Z.pos m `div` 2 ^ (- e) < 2 ^ (53 + e)).
    { apply Z.div_lt_upper_bound; [done|].
      rewrite <- Z.pow_add_r by lia.
      replace (- e + (53 + e)) with 53 by lia. lia. }
    assert (2 ^ (53 + e) <= 2 ^ (52 + ei)) by (apply Z.pow_le_mono_r; lia).
    lia.
Qed.

Lemma fillNoise_written b random slots : forall i data,
  length data = (i + slots)%nat ->
  (forall k, (i <= k < i + slots)%nat -> (numberOfNat k <? b)%float = true) ->
  fillNoise slots i b random data
  = take i data ++ map (fun k => fround (random k * 2 - 1)) (seq i slots).
Proof.
  induction slots as [|slots IH]; intros i data Hlen Hc; cbn [fillNoise seq map].
  - rewrite app_nil_r, take_ge; [done|lia].
  - rewrite (Hc i) by lia.
    rewrite IH.
    + rewrite (take_S_r _ _ (fround (random i * 2 - 1))).
      * rewrite take_insert_ge by lia. by rewrite <- app_assoc.
      * apply list_lookup_insert_eq. lia.
    + rewrite length_insert. lia.
    + intros k Hk. apply Hc. lia.
Qed.

(** X14.  When the buffer size is at least 1 and below 2^32 the loop of a
    Noise firing writes every sample of the buffer: sample [k] holds the
    single-precision value of [random * 2 - 1] for the [k]-th random draw
    of the firing, and no sample keeps the zero the buffer was created
    with.  A draw of 0.1 gives the sample -0.800000011920929, not -0.8. *)
Theorem noise_buffer_holds_one_draw_per_sample st t w :
  let bufferSize := (sampleRate w * duration (noiseSequence st))%float in
  (1 <=? bufferSize)%float = true ->
  (bufferSize <? 4294967296)%float = true ->
  (exists buffer,
     buffersSet (callsOf (playNoise st t) w) = [buffer]
     /\ channelData buffer
        = map (fun k => fround (mathRandom w k * 2 - 1))
              (seq 0 (Z.to_nat (integerPart bufferSize))))
  /\ fround (0.1 * 2 - 1) = (-0.800000011920929)%float
  /\ (0.1 * 2 - 1)%float = (-0.8)%float.
Proof.
  intros bufferSize H1 H2. split; [|by vm_compute].
  pose proof (integerPart_range bufferSize H1 H2) as Hn.
  pose proof (toUnsignedLong_integerPart bufferSize H1 H2) as En.
  pose proof (playNoise_run st t w) as E. cbv zeta in E. fold bufferSize in E.
  rewrite En in E.
  specialize (E ltac:(lia) (below_two32_counter bufferSize H2)).
  eexists. split.
  - erewrite callsOf_app by (rewrite E; reflexivity).
    by destruct (Track_eqb (selectedTrack st) NOISE).
  - cbn [channelData]. rewrite fillNoise_written.
    + by rewrite take_0.
    + by rewrite length_replicate.
    + intros k Hk. apply counter_below_size; [done|done|lia].
Qed.

Lemma noise_buffer_holds_one_draw_per_sample_witness :
  (exists buffer,
     buffersSet (callsOf (playNoise initialState 0) noisyAudio) = [buffer]
     /\ channelData buffer
        = map (fun k => fround (mathRandom noisyAudio k * 2 - 1))
              (seq 0 (Z.to_nat
                        (integerPart
                           (sampleRate noisyAudio
                            * duration (noiseSequence initialState))))))
  /\ fround (0.1 * 2 - 1) = (-0.800000011920929)%float
  /\ (0.1 * 2 - 1)%float = (-0.8)%float.
Proof.
  apply (noise_buffer_holds_one_draw_per_sample initialState 0 noisyAudio).
  - vm_compute. reflexivity.
  - vm_compute. reflexivity.
Defined.

(** ** The graph of a firing *)

(** Evaluates the nodes and the connections of an explicit log. *)
Ltac eval_log :=
  repeat match goal with
         | |- context [createdNodes ?L] =>
             let x := eval vm_compute in (createdNodes L) in
             change (createdNodes L) with x
         | |- context [connections ?L] =>
             let x := eval vm_compute in (connections L) in
             change (connections L) with x
         | |- context [startedNodes ?L] =>
             let x := eval vm_compute in (startedNodes L) in
             change (startedNodes L) with x
         | |- context [stoppedNodes ?L] =>
             let x := eval vm_compute in (stoppedNodes L) in
             change (stoppedNodes L) with x
         end.

Ltac flows :=
  repeat first
    [ apply at_destination
    | apply into_parameter
    | eapply through; [solve [tapped]|] ].

Ltac closed_graph :=
  match goal with
  | w : Audio |- _ => generalize (nextNode w); intros ?
  end;
  eval_log; cbn [app];
  repeat split;
  repeat (apply Forall_cons; split);
  try apply Forall_nil;
  cbn [fst snd ownEndpoint];
  repeat split;
  first [exact I | solve [tapped] | solve [flows]].

(** X15.  The graph of a firing is closed: each of its connections joins
    nodes created by this firing, the analyzer or the destination; the
    signal of every node it creates arrives at the destination; and the
    nodes it starts or stops are its own. *)
Theorem firing_graph_is_closed st track t buffer w :
  let log := callsOf (playSound st track t buffer) w in
  Forall (fun c => ownEndpoint (createdNodes log) c.1
                   /\ ownEndpoint (createdNodes log) c.2) (connections log)
  /\ Forall (fun n => flowsTo (connections log) (Node n)) (createdNodes log)
  /\ Forall (fun n => n ∈ createdNodes log)
       (startedNodes log ++ stoppedNodes log).
Proof.
  cbv zeta. destruct track; [| | |destruct buffer].
  - firing_calls. destruct (Track_eqb (selectedTrack st) _); closed_graph.
  - firing_calls. destruct (Track_eqb (selectedTrack st) _); closed_graph.
  - rewrite !callsOf_playSound, !playNoise_cases. cbv zeta.
    destruct (toUnsignedLong _ =? 0);
      [|destruct (counterLimit <? _)%float].
    + cbn [fst snd]. rewrite drop_all. by repeat split.
    + cbn [fst snd]. rewrite drop_all. by repeat split.
    + cbn [fst snd calls nextNode]. rewrite !drop_app_length.
      generalize (fillNoise
                    (Z.to_nat (toUnsignedLong
                                 (sampleRate w * duration (noiseSequence st))))
                    0 (sampleRate w * duration (noiseSequence st))
                    (mathRandom w)
                    (replicate
                       (Z.to_nat (toUnsignedLong
                                    (sampleRate w
                                     * duration (noiseSequence st)))) 0%float)).
      intros data.
      destruct (Track_eqb (selectedTrack st) _); closed_graph.
  - firing_calls. destruct (Track_eqb (selectedTrack st) _); closed_graph.
  - firing_calls. by repeat split.
Qed.

(** ** The period of the timer *)

(** X16.  Over the values of the BPM slider, the whole numbers from 60 to
    240, a faster tempo gives a strictly shorter period, and every period
    lies between 250 and 1000 milliseconds. *)
Theorem tick_period_over_the_bpm_slider (n m : nat) (st : AppState) :
  (60 <= n)%nat -> (n < m)%nat -> (m <= 240)%nat ->
  let slow := setTempo (numberOfNat n) st in
  let fast := setTempo (numberOfNat m) st in
  (tickPeriod fast <? tickPeriod slow)%float = true
  /\ (250 <=? tickPeriod fast)%float = true
  /\ (tickPeriod slow <=? 1000)%float = true.
Proof.
  intros Hn Hnm Hm. cbv zeta. unfold tickPeriod. cbn [setTempo tempo].
  set (p := fun k : nat => (60 / numberOfNat k * 1000)%float).
  assert (H : forallb
                (fun a =>
                   forallb
                     (fun b =>
                        implb (a <? b)%nat
                          ((p b <? p a)%float && (250 <=? p b)%float
                           && (p a <=? 1000)%float))
                     (seq 60 181))
                (seq 60 181) = true) by (vm_compute; reflexivity).
  rewrite forallb_forall in H.
  specialize (H n ltac:(apply in_seq; lia)).
  rewrite forallb_forall in H.
  specialize (H m ltac:(apply in_seq; lia)).
  replace (n <? m)%nat with true in H by (symmetry; apply Nat.ltb_lt; lia).
  cbn [implb] in H. apply andb_prop in H as [H H3].
  apply andb_prop in H as [H1 H2]. by repeat split.
Qed.

Lemma tick_period_over_the_bpm_slider_witness :
  (tickPeriod (setTempo (numberOfNat 120) initialState)
   <? tickPeriod (setTempo (numberOfNat 60) initialState))%float = true
  /\ (250 <=? tickPeriod (setTempo (numberOfNat 120) initialState))%float = true
  /\ (tickPeriod (setTempo (numberOfNat 60) initialState) <=? 1000)%float = true.
Proof.
  apply (tick_period_over_the_bpm_slider 60 120 initialState); lia.
Defined.

(** ** The oscilloscope *)

Lemma digits2_pos_shift (m : positive) :
  Z.pos (digits2_pos (4503599627370496 * m)) = Z.pos (digits2_pos m) + 52.
Proof.
  pose proof (digits2_pos_upper m) as Hu.
  pose proof (digits2_pos_lower m) as Hl.
  apply digits2_pos_eq. rewrite Pos2Z.inj_mul.
  change (Z.pos 4503599627370496) with (2 ^ 52).
  set (d := Z.pos (digits2_pos m)) in *.
  assert (Hd : 0 < d) by (unfold d; lia).
  split.
  - replace (d + 52 - 1) with (52 + (d - 1)) by lia.
    rewrite Z.pow_add_r by lia.
    apply Z.mul_le_mono_nonneg_l; [apply Z.pow_nonneg; lia | done].
  - replace (d + 52) with (52 + d) by lia. rewrite Z.pow_add_r by lia.
    apply Z.mul_lt_mono_pos_l; [apply Z.pow_pos_nonneg; lia | done].
Qed.

(** One is neutral for the multiplication of binary64 values. *)
Lemma SFmul_one_l (x : spec_float) :
  valid_binary x = true ->
  SFmul prec emax (S754_finite false 4503599627370496 (-52)) x = x.
Proof.
  destruct x as [s | s | | s m e]; [done | done | done |].
  unfold Floats.SpecFloat.valid_binary, bounded, canonical_mantissa.
  rewrite fexp_binary64. intros Hv.
  apply andb_prop in Hv as [Hc Hb]. apply Z.eqb_eq in Hc.
  apply Z.leb_le in Hb. change (emax - prec) with 971 in Hb.
  cbn [SFmul xorb]. unfold binary_round_aux, shr_fexp.
  cbn [Zdigits2 shr_record_of_loc]. rewrite fexp_binary64.
  rewrite digits2_pos_shift.
  set (d := Z.pos (digits2_pos m)) in *.
  replace (Z.max (d + 52 + (-52 + e) - 53) (-1074) - (-52 + e)) with 52 by lia.
  destruct (shr_spec (Z.pos (4503599627370496 * m)) (-52 + e) 52 ltac:(lia))
    as (E1 & E2 & E3).
  change (Z.max 0 52) with 52 in E1, E2, E3.
  set (r := shr _ _ 52) in *. clearbody r.
  rewrite Pos2Z.inj_mul in E1, E3.
  change (Z.pos 4503599627370496) with (2 ^ 52) in E1, E3.
  rewrite Z.mul_comm, Z.div_mul in E1 by lia.
  specialize (E3 ltac:(rewrite Z.mul_comm; apply Z.mod_mul; lia)).
  destruct r as [mrs' e']. cbn [fst snd] in E1, E2, E3.
  rewrite E1, E3. subst e'. cbn [round_nearest_even Zdigits2 shr_record_of_loc].
  rewrite fexp_binary64. fold d.
  replace (-52 + e + 52) with e by lia.
  replace (Z.max (d + e - 53) (-1074) - e) with 0 by lia.
  cbn [shr shr_m]. change (emax - prec) with 971.
  by replace (e <=? 971) with true by (symmetry; apply Z.leb_le; lia).
Qed.

Lemma mul_one_l (h : float) : (1 * h)%float = h.
Proof.
  apply Prim2SF_inj. rewrite mul_spec, Prim2SF_one.
  apply SFmul_one_l, Prim2SF_valid.
Qed.

Lemma plot_length data : forall i x sliceWidth h,
  length (plot data i x sliceWidth h) = length data.
Proof.
  induction data as [|byte data IH]; intros i x sliceWidth h; cbn [plot length];
    [done|]. by rewrite IH.
Qed.

Lemma plot_lines data : forall i x sliceWidth h,
  i <> 0%nat ->
  filter (fun c => isMoveTo c = true) (plot data i x sliceWidth h) = [].
Proof.
  induction data as [|byte data IH]; intros i x sliceWidth h Hi; cbn [plot];
    [done|].
  destruct i as [|i]; [done|]. cbn [Nat.eqb].
  rewrite filter_cons_False by (cbn; congruence). by apply IH.
Qed.

Lemma plot_silent data : forall i x sliceWidth h,
  Forall (eq 128%nat) data ->
  Forall (fun c => ordinate c = Some (h / 2)%float)
    (plot data i x sliceWidth h).
Proof.
  induction data as [|byte data IH]; intros i x sliceWidth h Hd; cbn [plot];
    [done|].
  apply Forall_cons in Hd as [<- Hd]. apply Forall_cons. split; [|by apply IH].
  change (numberOfNat 128 / 128)%float with 1%float. rewrite mul_one_l.
  by destruct (Nat.eqb i 0).
Qed.

(** X17.  [visualize] either paints nothing and lets the animation loop
    end (no canvas, or no 2d context), or paints one frame and asks for
    the next: the background, then one path with a point for each byte of
    the analyzer, of which the first, at the left edge, is the only
    [moveTo], closed by a line to the middle of the right edge, then one
    stroke. *)
Theorem waveform_is_one_polyline page :
  let painted := fst (visualize page) in
  (snd (visualize page) = false ->
   painted = []
   /\ forall c, canvas page = Some c -> context2d c = false)
  /\ (snd (visualize page) = true ->
      exists c path,
        canvas page = Some c /\ context2d c = true
        /\ painted
           = [SetFillStyle "hsla(0, 0%, 10%, 1)";
              FillRect 0 0 (width c) (height c);
              SetLineWidth 2;
              SetStrokeStyle "rgb(202, 131, 0)";
              BeginPath]
             ++ path ++ [LineTo (width c) (height c / 2)%float; Stroke]
        /\ length path = length (byteTimeDomainData page)
        /\ filter (fun c => isMoveTo c = true) path = take 1 path
        /\ (forall first, head path = Some first ->
            exists y, first = MoveTo 0 y)).
Proof.
  cbv zeta. unfold visualize.
  destruct (canvas page) as [c|]; [|by split].
  destruct (context2d c) eqn:Ec; cbn [negb fst snd].
  - split; [done|]. intros _. eexists c, _. split; [done|]. split; [done|].
    split; [reflexivity|]. split; [apply plot_length|].
    destruct (byteTimeDomainData page) as [|byte data]; [done|].
    cbn [plot Nat.eqb take head]. split.
    + rewrite filter_cons_True by done. by rewrite plot_lines.
    + intros first [= <-]. by eexists.
  - split; [|done]. intros _. split; [done|]. by intros ? [= <-].
Qed.

(** X18.  A silent signal, every byte 128, is drawn flat: every point of
    the path, the closing one included, lies at half the height of the
    canvas. *)
Theorem silence_is_drawn_on_the_centre_line page c :
  canvas page = Some c -> context2d c = true ->
  Forall (eq 128%nat) (byteTimeDomainData page) ->
  Forall (fun call => ordinate call = None
                      \/ ordinate call = Some (height c / 2)%float)
    (fst (visualize page)).
Proof.
  intros Hc Hx Hd. unfold visualize. rewrite Hc, Hx. cbn [negb fst].
  repeat (apply Forall_cons; split; [by left|]).
  apply Forall_app. split.
  - eapply Forall_impl; [by apply plot_silent|]. intros call E. by right.
  - apply Forall_cons. split; [by right|].
    apply Forall_cons. split; [by left|]. by apply Forall_nil.
Qed.

Lemma silence_is_drawn_on_the_centre_line_witness :
  Forall (fun call => ordinate call = None
                      \/ ordinate call = Some (150 / 2)%float)
    (fst (visualize
            {| canvas := Some {| width := 300; height := 150;
                                 context2d := true |};
               byteTimeDomainData := [128; 128; 128; 128]%nat |})).
Proof.
  apply (silence_is_drawn_on_the_centre_line
           {| canvas := Some {| width := 300; height := 150;
                                context2d := true |};
              byteTimeDomainData := [128; 128; 128; 128]%nat |}
           {| width := 300; height := 150; context2d := true |}).
  - reflexivity.
  - reflexivity.
  - repeat (apply Forall_cons; split; [reflexivity|]). by apply Forall_nil.
Defined.

(** ** Animation frames *)

Lemma tick_requests_one_frame st w :
  filter (fun c => isFrameRequest c = true) (tickCalls st w)
  = [RequestAnimationFrame].
Proof.
  destruct (isPlaying st) eqn:Hp.
  - destruct (tickCalls_playing (fun c => isFrameRequest c = false) st w Hp)
      as (fired & E & F).
    { intros track. emits_playSound ltac:(by cbn). }
    rewrite E.
    assert (Hn : filter (fun c => isFrameRequest c = true) fired = []).
    { apply filter_none. eapply Forall_impl; [exact F|].
      intros c Hc. cbn in Hc. by rewrite Hc. }
    destruct (state w); cbn [app]; rewrite !filter_cons; cbn; by rewrite Hn.
  - destruct (tickCalls_paused st w Hp) as [_ E]. by rewrite E.
Qed.

Lemma repeated_app {A} (p : list A) (k : nat) :
  mjoin (replicate k p) ++ p = p ++ mjoin (replicate k p).
Proof.
  induction k as [|k IH]; cbn [replicate mjoin list_join].
  - by rewrite app_nil_r.
  - rewrite <- app_assoc. f_equal. exact IH.
Qed.

Lemma animationFrame_run page (k : nat) :
  animationFrame page k
  = (mjoin (replicate k (fst (visualize page))),
     if snd (visualize page) then k else 0%nat).
Proof.
  unfold animationFrame. induction k as [|k IH].
  - cbn. by destruct (snd (visualize page)).
  - rewrite Nat.iter_succ, IH.
    destruct (visualize page) as [p again]. cbn [fst snd replicate].
    change (mjoin (p :: replicate k p)) with (p ++ mjoin (replicate k p)).
    rewrite repeated_app. by destruct again.
Qed.

(** X19.  Each run of the interval callback adds one [visualize] callback
    to those waiting, and with a canvas on the page a frame keeps them
    all: nothing ever cancels one.  So after any sequence of timer runs
    and frames their number has grown by the number of timer runs, and
    the next frame paints the waveform that many times. *)
Theorem animation_loops_pile_up beats st w (k : nat) :
  Forall paints beats ->
  snd (foldl runBeat (st, w, k) beats)
  = (k + length (filter (fun b => isTimerBeat b = true) beats))%nat
  /\ forall page,
       paints (FrameBeat page) ->
       animationFrame page (snd (foldl runBeat (st, w, k) beats))
       = (mjoin (replicate (snd (foldl runBeat (st, w, k) beats))
                   (fst (visualize page))),
          snd (foldl runBeat (st, w, k) beats)).
Proof.
  intros Hp. split.
  - revert st w k. induction Hp as [|b beats Hb _ IH]; intros st w k.
    + cbn. lia.
    + cbn [foldl]. destruct b as [|page].
      * cbn [runBeat]. rewrite tick_requests_one_frame.
        destruct (handleEvent TimerFires (st, w)) as [st' w'].
        rewrite IH. rewrite filter_cons_True by done. cbn [length]. lia.
      * cbn [runBeat]. rewrite animationFrame_run. cbn [snd].
        destruct Hb as (c & Hc & Hx).
        unfold visualize at 1. rewrite Hc, Hx. cbn [negb snd].
        rewrite IH. rewrite filter_cons_False by done. lia.
  - intros page (c & Hc & Hx). rewrite animationFrame_run. f_equal.
    unfold visualize. by rewrite Hc, Hx.
Qed.

Lemma animation_loops_pile_up_witness :
  let page := {| canvas := Some {| width := 300; height := 150;
                                   context2d := true |};
                 byteTimeDomainData := [128; 128]%nat |} in
  let beats := [TimerBeat; FrameBeat page; TimerBeat; FrameBeat page] in
  snd (foldl runBeat (initialState, anAudio, 0%nat) beats)
  = (0 + length (filter (fun b => isTimerBeat b = true) beats))%nat
  /\ forall page,
       paints (FrameBeat page) ->
       animationFrame page
         (snd (foldl runBeat (initialState, anAudio, 0%nat) beats))
       = (mjoin (replicate
                   (snd (foldl runBeat (initialState, anAudio, 0%nat) beats))
                   (fst (visualize page))),
          snd (foldl runBeat (initialState, anAudio, 0%nat) beats)).
Proof.
  cbv zeta.
  apply (animation_loops_pile_up
           [TimerBeat;
            FrameBeat {| canvas := Some {| width := 300; height := 150;
                                           context2d := true |};
                         byteTimeDomainData := [128; 128]%nat |};
            TimerBeat;
            FrameBeat {| canvas := Some {| width := 300; height := 150;
                                           context2d := true |};
                         byteTimeDomainData := [128; 128]%nat |}]
           initialState anAudio 0%nat).
  repeat (apply Forall_cons; split;
          [first [exact I | by eexists]|]).
  by apply Forall_nil.
Defined.

(** ** Start times *)

Lemma when_sweep_timed st (b : bool) t w :
  exists w' new,
    when b (playSound st SWEEP t None) w = (Normal tt, w')
    /\ calls w' = calls w ++ new
    /\ Forall (fun c => isUntimedStart c = false) new.
Proof.
  destruct b; cbn [when playSound].
  - rewrite playSweep_run. eexists _, _. split; [reflexivity|].
    cbn [calls]. split; [reflexivity|].
    destruct (Track_eqb (selectedTrack st) SWEEP); by repeat constructor.
  - exists w, []. by rewrite app_nil_r.
Qed.

Lemma when_pulse_calls st (b : bool) t w :
  exists w',
    when b (playSound st PULSE t None) w = (Normal tt, w')
    /\ calls w' = calls w ++ (if b then pulseCalls st t (nextNode w) else []).
Proof.
  destruct b; cbn [when playSound].
  - rewrite playPulse_run. eexists. split; reflexivity.
  - exists w. by rewrite app_nil_r.
Qed.

(** The log of a tick while playing: the calls of a Pulse firing, if the
    Pulse gate is on, between calls that all carry their time. *)
Lemma tickCalls_around_the_pulse st w :
  isPlaying st = true ->
  exists before n after,
    tickCalls st w
    = before
      ++ (if gate (steps (pulseSequence st))
               (Z.rem (currentStep st + 1) BEATS_PER_BAR)
          then pulseCalls st (currentTime w) n else [])
      ++ after
    /\ Forall (fun c => isUntimedStart c = false) before
    /\ Forall (fun c => isUntimedStart c = false) after.
Proof.
  intros Hp. unfold tickCalls. rewrite (tick_playing st w Hp). cbn [snd].
  set (next := Z.rem (currentStep st + 1) BEATS_PER_BAR).
  set (t := currentTime w).
  assert (He : emits (fun c => isUntimedStart c = false)
                 (when (gate (steps (noiseSequence st)) next)
                       (playSound st NOISE t None) ;;
                  when (gate (steps (sampleSequence st)) next)
                       (playSound st SAMPLE t None))).
  { apply emits_bind; [|intros _]; apply emits_when;
      cbn [playSound]; unfold playNoise; emits_script ltac:(by cbn). }
  destruct (when_sweep_timed st (gate (steps (sweepSequence st)) next) t
              (afterHousekeeping w)) as (w1 & new1 & R1 & E1 & F1).
  destruct (when_pulse_calls st (gate (steps (pulseSequence st)) next) t w1)
    as (w2 & R2 & E2).
  destruct (He w2) as (new3 & E3 & F3).
  unfold fireTracks. unfold bind at 1. rewrite R1.
  unfold bind at 1. rewrite R2. rewrite E3, E2, E1.
  unfold afterHousekeeping. cbn [logged calls].
  rewrite <- !app_assoc, drop_app_length.
  exists ((RequestAnimationFrame
             :: match state w with Suspended => [Resume] | _ => [] end)
          ++ new1), (nextNode w1), new3.
  rewrite <- !app_assoc. split; [done|]. split; [|done].
  apply Forall_app. split; [|done].
  destruct (state w); by repeat constructor.
Qed.

Lemma pulseCalls_untimed st t n :
  filter (fun c => isUntimedStart c = true) (pulseCalls st t n)
  = [Start (S (S n)) None].
Proof. unfold pulseCalls. by destruct (Track_eqb (selectedTrack st) PULSE). Qed.

Lemma pulseCalls_lfo st t n :
  SetOscillatorType (S (S n)) Square ∈ pulseCalls st t n
  /\ SetFrequency (S (S n)) (lfo (pulseSequence st)) ∈ pulseCalls st t n.
Proof.
  unfold pulseCalls. cbn [app].
  split; repeat (apply elem_of_cons; first [left; reflexivity | right]).
Qed.

(** X7.  Every start time a tick passes to the audio graph (the start of
    a source, the anchor of an envelope) is the value of the audio clock
    read in that tick, the same for all the tracks fired.  A source
    started without a time is the LFO of a Pulse firing of that tick, the
    square-wave oscillator at the LFO rate, and there is one such start
    for each Pulse firing: no other source is started without a time. *)
Theorem firings_anchored_at_the_tick st w :
  Forall (anchoredAt (currentTime w)) (tickCalls st w)
  /\ (forall n,
        Start n None ∈ tickCalls st w ->
        SetOscillatorType n Square ∈ tickCalls st w
        /\ SetFrequency n (lfo (pulseSequence st)) ∈ tickCalls st w)
  /\ length (filter (fun c => isUntimedStart c = true) (tickCalls st w))
     = firingsOf PULSE (tickCalls st w).
Proof.
  destruct (isPlaying st) eqn:Hp.
  - split.
    { destruct (tickCalls_playing (anchoredAt (currentTime w)) st w Hp)
        as (fired & E & F).
      { intros track. emits_playSound ltac:(by cbn). }
      rewrite E. constructor; [done|]. apply Forall_app. split; [|done].
      destruct (state w); by repeat constructor. }
    destruct (tickCalls_around_the_pulse st w Hp)
      as (before & n0 & after & E & Fb & Fa).
    destruct (tick_firings st w Hp) as [_ Ef]. rewrite Ef, E.
    assert (Hno : forall l n,
               Forall (fun c => isUntimedStart c = false) l ->
               Start n None ∈ l -> False).
    { intros l n F Hin. rewrite Forall_forall in F.
      by specialize (F _ Hin). }
    split.
    + intros n Hin.
      apply elem_of_app in Hin as [Hin|Hin]; [by destruct (Hno _ _ Fb Hin)|].
      apply elem_of_app in Hin as [Hin|Hin]; [|by destruct (Hno _ _ Fa Hin)].
      destruct (gate (steps (pulseSequence st)) _);
        [|by apply elem_of_nil in Hin].
      assert (En : n = S (S n0)).
      { assert (Hf : Start n None
                     ∈ filter (fun c => isUntimedStart c = true)
                         (pulseCalls st (currentTime w) n0))
          by (by apply list_elem_of_filter).
        rewrite pulseCalls_untimed in Hf.
        apply list_elem_of_singleton in Hf. by injection Hf. }
      subst n. destruct (pulseCalls_lfo st (currentTime w) n0) as [H1 H2].
      split; apply elem_of_app; right; apply elem_of_app; by left.
    + rewrite !filter_app, !length_app.
      rewrite (filter_none _ before), (filter_none _ after);
        try (eapply Forall_impl; [eassumption|];
             intros c Hc; cbn in Hc; by rewrite Hc).
      destruct (gate (steps (pulseSequence st)) _); [|done].
      by rewrite pulseCalls_untimed.
  - destruct (tickCalls_paused st w Hp) as [_ E]. rewrite E.
    split; [by repeat constructor|]. split; [|done].
    intros n Hin. exfalso.
    repeat (apply elem_of_cons in Hin as [Hin|Hin]; [discriminate Hin|]).
    by apply elem_of_nil in Hin.
Qed.

(** ** The closure of the timer *)

Lemma next_step_differs (p : Z) : Z.rem (p + 1) BEATS_PER_BAR <> p.
Proof.
  unfold BEATS_PER_BAR. pose proof (Z.quot_rem' (p + 1) 16). lia.
Qed.

(** X20.  A parameter write other than the tempo does not arm a new
    timer, so the run of the callback that follows still reads the
    parameters of the render before the write: it leaves the audio world
    as if the write had not happened, while the state holds the new value.
    That run moves the grid position, which arms a new timer, and the run
    after it reads the new value. *)
Theorem parameter_write_is_heard_one_tick_late c v st w :
  isPlaying st = true -> c <> bpm_control ->
  let st1 := onChange c v st in
  let w1 := snd (snd (tick st w)) in
  let st2 := fst (tick st1 w) in
  handleEvents [InputChange c v; TimerFires] (st, w) = (st2, w1)
  /\ handleEvents [InputChange c v; TimerFires; TimerFires] (st, w)
     = (fst (tick st2 w1), snd (snd (tick st2 w1))).
Proof.
  intros Hp Hc st1 w1 st2.
  assert (Hp1 : isPlaying st1 = true) by (unfold st1; by destruct c).
  assert (Hs1 : currentStep st1 = currentStep st) by (unfold st1; by destruct c).
  assert (Hr : rearms (InputChange c v) st st1 = false) by (by destruct c).
  assert (E2 : st2 = setCurrentStep
                       (Z.rem (currentStep st + 1) BEATS_PER_BAR) st1).
  { unfold st2, tick. by rewrite Hp1, Hs1. }
  assert (Hp2 : isPlaying st2 = true) by (by rewrite E2).
  assert (Hn : (Z.rem (currentStep st + 1) BEATS_PER_BAR =? currentStep st1)
               = false).
  { rewrite Hs1. apply Z.eqb_neq, next_step_differs. }
  unfold handleEvents. cbn [foldl fst snd].
  cbn [handleArmed handleEvent]. fold st1. rewrite Hr.
  cbn [rearms]. rewrite Hp. cbn [currentStep setCurrentStep].
  rewrite Hn. cbn [negb]. rewrite <- E2. fold w1. split; [done|].
  rewrite Hp2.
  assert (E3 : fst (tick st2 w1)
               = setCurrentStep
                   (Z.rem (currentStep st2 + 1) BEATS_PER_BAR) st2).
  { unfold tick. by rewrite Hp2. }
  rewrite E3.
  done.
Qed.

Lemma parameter_write_is_heard_one_tick_late_witness :
  (let st1 := onChange attack_control 0.9 sweepOnOne in
   let w1 := snd (snd (tick sweepOnOne anAudio)) in
   let st2 := fst (tick st1 anAudio) in
   handleEvents [InputChange attack_control 0.9; TimerFires]
     (sweepOnOne, anAudio) = (st2, w1)
   /\ handleEvents [InputChange attack_control 0.9; TimerFires; TimerFires]
        (sweepOnOne, anAudio)
      = (fst (tick st2 w1), snd (snd (tick st2 w1))))
  /\ attack (sweepSequence sweepOnOne) = 0.2%float
  /\ attack (sweepSequence
               (fst (handleEvents [InputChange attack_control 0.9; TimerFires]
                       (sweepOnOne, anAudio)))) = 0.9%float
  /\ LinearRampToValueAtTime 1 1 0.2
     ∈ calls (snd (handleEvents [InputChange attack_control 0.9; TimerFires]
                     (sweepOnOne, anAudio)))
  /\ LinearRampToValueAtTime 1 1 0.9
     ∈ calls (snd (handleEvents
                     [InputChange attack_control 0.9; PadClick 2; TimerFires]
                     (sweepOnOne, anAudio))).
Proof.
  split.
  { apply (parameter_write_is_heard_one_tick_late
             attack_control 0.9 sweepOnOne anAudio).
    - reflexivity.
    - discriminate. }
  split; [reflexivity|]. split; [by vm_compute|].
  split; apply list_elem_of_lookup; exists 7%nat; by vm_compute.
Defined.
